(** * Vulcan dashboard client: flow aggregation, flow cache, histories,
      formatters and gauges

    A shallow embedding of the client-side code of the Vulcan system
    monitor and of the properties its specification states about it:
    - [components/WorldMap.jsx]: [aggregateFlows] and the flows drawn;
    - [App.jsx] (the version with [MAP_LINGER_MS = 20000]): the
      [socket.onmessage] handler with its flow cache and histories,
      [mapFlows], the readings taken from the snapshot and the capture
      summary line;
    - [utils/formatters.js]: the formatters and [clamp];
    - [components/EnergyGauge.jsx]: the gauge label and ring fraction.
    - more of the client: [heatColor], the glow of
      [components/DigitalTwin.jsx], the zoom buttons of the map, the theme
      and its stored item, the connection status, the section chats,
      [cpuAverage], the swap pulse and the grid of the core heat map;
    - [App.jsx] of [src/frontend] (the version with
      [MAP_LINGER_MS = 10000]): [sankeyData] and the flow cache merge.
    The Geolocation Resolver of the backend is modelled from the
    specification.

    Conventions of the embedding.
    - A JavaScript value read from the JSON snapshot is a [JsValue]; a
      finite number carries the rational it denotes.  The order, the keys
      and the shape of the results are stated over exact sums, products
      and quotients.  What the value of a sum is, is stated over the
      module [Binary64], which rounds every result to the nearest binary64
      value as the code does: the sums of [aggregateFlows], of
      [cpuAverage] and of the links of [sankeyData].
    - A call that throws gives [None]: [display] is the text a reading
      shows when the render of [App] goes through.
    - An absent property reads as [Undefined], as it does in JavaScript.
    - A [Map] is an insertion-ordered association list ([JsMap]).
    - An object used as a map from section ids is a [gmap] over strings.
    - Clock readings ([Date.now()]) are integers, in milliseconds.
    - Builtins whose output format is locale or engine dependent
      ([Number.prototype.toFixed], number-to-text conversion,
      [Date.prototype.toLocaleTimeString]) are section variables: every
      theorem holds whatever they print.  Decimal stand-ins are provided to
      run the definitions on concrete inputs. *)

From stdpp Require Import gmap strings.
From Stdlib Require Import QArith Qminmax Qround Qabs Qpower Lqa ZArith Lia.
From Stdlib Require Import List Sorted Permutation DecimalString.
Import ListNotations.

Close Scope Q_scope.
Open Scope string_scope.

(** * Part I. The embedding *)

(** ** JavaScript values *)

Inductive JsValue : Type :=
| Undefined
| Null
| Bool (b : bool)
| Str (s : string)
| Num (q : Q)
| NaN
| Infinity
| NegInfinity.

(** [Number.isFinite(v)]: true for finite numbers only, no coercion. *)
Definition Number_isFinite (v : JsValue) : bool :=
  match v with
  | Num _ => true
  | _ => false
  end.

(** [Number.isFinite(v) ? v : d], the guard the client puts before every
    arithmetic use of a snapshot field. *)
Definition finite_or (v : JsValue) (d : Q) : Q :=
  match v with
  | Num q => q
  | _ => d
  end.

(** [v ?? d] *)
Definition nullish (v d : JsValue) : JsValue :=
  match v with
  | Undefined | Null => d
  | _ => v
  end.

(** [o?.f]: the property of an object that may be missing. *)
Definition optional {A : Type} (o : option A) (f : A -> JsValue) : JsValue :=
  match o with
  | Some a => f a
  | None => Undefined
  end.

(** [s || d] on strings: the empty string is falsy. *)
Definition or_string (s d : string) : string :=
  if String.eqb s "" then d else s.

(** [x || 0] on finite numbers: zero is the only falsy one. *)
Definition or_zero (x : Q) : Q := if Qeq_bool x 0 then 0%Q else x.

(** [t || d] on integer clock readings. *)
Definition or_time (t d : Z) : Z := if (t =? 0)%Z then d else t.

(** [l.slice(-n)]: the last [n] elements, all of them when there are fewer. *)
Definition slice_last {A : Type} (n : nat) (l : list A) : list A :=
  skipn (length l - n) l.

(** [l.slice(0, n)] *)
Definition slice_first {A : Type} (n : nat) (l : list A) : list A :=
  firstn n l.

(** ** Map: insertion-ordered, string keys *)

Definition JsMap (V : Type) : Type := list (string * V).

Fixpoint Map_get {V : Type} (key : string) (m : JsMap V) : option V :=
  match m with
  | [] => None
  | (k, v) :: rest => if String.eqb key k then Some v else Map_get key rest
  end.

(** [m.set(key, v)]: an existing key keeps its position, a new one goes
    last. *)
Fixpoint Map_set {V : Type} (key : string) (v : V) (m : JsMap V) : JsMap V :=
  match m with
  | [] => [(key, v)]
  | (k, w) :: rest =>
      if String.eqb key k then (k, v) :: rest else (k, w) :: Map_set key v rest
  end.

Definition Map_keys {V : Type} (m : JsMap V) : list string := List.map fst m.

Definition Map_values {V : Type} (m : JsMap V) : list V := List.map snd m.

(** ** Array.prototype.sort

    The sort is stable and orders [a] after [b] when [compareFn a b > 0].
    Insertion from the right gives exactly that. *)

Fixpoint sort_insert {A : Type} (compareFn : A -> A -> Q) (x : A) (l : list A)
  : list A :=
  match l with
  | [] => [x]
  | y :: rest =>
      if Qlt_le_dec 0 (compareFn x y)
      then y :: sort_insert compareFn x rest
      else x :: l
  end.

Fixpoint Array_sort {A : Type} (compareFn : A -> A -> Q) (l : list A) : list A :=
  match l with
  | [] => []
  | x :: rest => sort_insert compareFn x (Array_sort compareFn rest)
  end.

(** ** Decimal stand-ins for the printing builtins

    [toFixed_decimal] follows the steps of [Number.prototype.toFixed] for a
    magnitude below 10^21, where JavaScript prints fixed-point notation:
    the nearest integer to [x * 10^digits] (the larger one on a tie), its
    decimal digits left-padded with zeros, and the point inserted. *)

Definition digits_of (n : Z) : string :=
  NilEmpty.string_of_uint (N.to_uint (Z.to_N n)).

Fixpoint zeros (n : nat) : string :=
  match n with
  | O => ""
  | S k => "0" +:+ zeros k
  end.

Definition toFixed_decimal (x : Q) (digits : nat) : string :=
  let sign := if Qlt_le_dec x 0 then "-" else "" in
  let n := Qfloor (Qabs x * inject_Z (10 ^ Z.of_nat digits) + (1 # 2)) in
  let m := digits_of n in
  let m := zeros (S digits - String.length m) +:+ m in
  let k := String.length m in
  match digits with
  | O => sign +:+ m
  | _ =>
      sign +:+ String.substring 0 (k - digits) m +:+ "." +:+ String.substring (k - digits) digits m
  end.

(** Number-to-text conversion of an integer below 10^21. *)
Definition numberToString_decimal (n : Z) : string :=
  NilEmpty.string_of_int (Z.to_int n).

(** A fixed-locale stand-in for [toLocaleTimeString]: the epoch seconds. *)
Definition toLocaleTimeString_epoch (timestamp : JsValue) : string :=
  match timestamp with
  | Num q => numberToString_decimal (Qfloor q)
  | _ => "Invalid Date"
  end.

(** ** The published snapshot, as [JSON.parse] delivers it *)

(** A flow object.  [direction] and [ip] are the string properties the
    published contract gives every flow (the empty string is the one falsy
    string).  [N] is the type of the numeric payload: a raw [JsValue] as
    received, a rational once the code has guarded it with
    [Number.isFinite].  Properties the client neither reads nor writes
    (app, country, port, protocol) are left out. *)
Record Flow (N : Type) : Type := mkFlow {
  direction : string;
  ip : string;
  lat : JsValue;
  lon : JsValue;
  mb_s : N;
  bytes : N;
  fade : N;
}.

Arguments mkFlow {N} _ _ _ _ _ _ _.
Arguments direction {N} _.
Arguments ip {N} _.
Arguments lat {N} _.
Arguments lon {N} _.
Arguments mb_s {N} _.
Arguments bytes {N} _.
Arguments fade {N} _.

(** A flow of the cache: the flow object with the [lastSeen] stamp the
    message handler sets from [Date.now()]. *)
Record Cached (N : Type) : Type := mkCached {
  entry : Flow N;
  lastSeen : Z;
}.

Arguments mkCached {N} _ _.
Arguments entry {N} _.
Arguments lastSeen {N} _.

(** [per_core] is an array when it is there, [None] when it is absent or
    null. *)
Record CpuMetrics : Type := {
  cpu_total : JsValue;
  per_core : option (list JsValue);
}.

Record MemoryMetrics : Type := {
  pressure : JsValue;
  memory_used : JsValue;
  memory_total : JsValue;
  swap_used : JsValue;
  swap_total : JsValue;
  swap_percent : JsValue;
}.

Record DiskMetrics : Type := {
  read_mb_s : JsValue;
  write_mb_s : JsValue;
  read_iops : JsValue;
  write_iops : JsValue;
}.

(** A row of the process list; its name and pid are printed as they
    are. *)
Record Process : Type := { cpu_percent : JsValue }.

Record ThermalMetrics : Type := { cpu_temp_c : JsValue }.

Record NetworkMetrics : Type := {
  download_mb_s : JsValue;
  upload_mb_s : JsValue;
  latency_ms : JsValue;
  jitter_ms : JsValue;
}.

Record BatteryMetrics : Type := { health_percent : JsValue }.

Record EnergyMetrics : Type := { wattage : JsValue }.

Record NetworkSustainability : Type := {
  network_co2e_g : JsValue;
  network_bytes : JsValue;
  network_energy_kwh : JsValue;
}.

Record Sustainability : Type := {
  energy_kwh : JsValue;
  co2e_g : JsValue;
  intensity_g_per_kwh : JsValue;
  device_co2e_g : JsValue;
  sustainability_network : option NetworkSustainability;
}.

Record CaptureStatus : Type := {
  sniffer_running : bool;
  packet_count : Z;
  local_match_count : Z;
  ignored_count : Z;
  flow_keys : Z;
  geo_cached : Z;
  geo_inflight : Z;
  ifaces : list string;
  sniffer_mode : string;
  capture_method : string;
  sniffer_error : string;
}.

(** The snapshot message.  [network_flows] is [None] when the property is
    not an array; [processes] is an array when it is there, [None] when it
    is absent or null. *)
Record Snapshot : Type := {
  timestamp : JsValue;
  cpu : option CpuMetrics;
  memory : option MemoryMetrics;
  disk : option DiskMetrics;
  thermal : option ThermalMetrics;
  network : option NetworkMetrics;
  battery : option BatteryMetrics;
  energy : option EnergyMetrics;
  sustainability : option Sustainability;
  network_flows : option (list (Flow JsValue));
  network_capture : option CaptureStatus;
  processes : option (list Process);
}.

(** ** utils/formatters.js: clamp *)

(** [Math.min(max, Math.max(min, value))] on finite numbers (the same
    function is repeated in [WorldMap.jsx]). *)
Definition clamp (value min max : Q) : Q := Qmin max (Qmax min value).

(** ** components/EnergyGauge.jsx *)

Definition ENERGY_MAX_WATTS : Q := 30.

Definition safeWattage (wattage : JsValue) : Q := finite_or wattage 0.

Definition percent (wattage : JsValue) : Q :=
  clamp (safeWattage wattage / ENERGY_MAX_WATTS) 0 1.

Definition energyColor (wattage : JsValue) : string :=
  if Qle_bool (safeWattage wattage) 6 then "#22c55e"
  else if Qle_bool (safeWattage wattage) 15 then "#f59e0b"
  else "#ef4444".

Definition energyLabel (wattage : JsValue) : string :=
  if Number_isFinite wattage then
    if Qle_bool (safeWattage wattage) 6 then "Low"
    else if Qle_bool (safeWattage wattage) 15 then "Moderate"
    else "High"
  else "Unavailable".

(** ** components/WorldMap.jsx: aggregateFlows *)

Definition flowKey {N : Type} (flow : Flow N) : string :=
  direction flow +:+ "-" +:+ ip flow.

(** [{ ...flow, mb_s: 0, bytes: 0, fade: 0 }] *)
Definition fresh (flow : Flow JsValue) : Flow Q :=
  mkFlow (direction flow) (ip flow) (lat flow) (lon flow) 0%Q 0%Q 0%Q.

(** The body of [flows.forEach] in [aggregateFlows]. *)
Definition accumulate (map : JsMap (Flow Q)) (flow : Flow JsValue) : JsMap (Flow Q) :=
  if negb (Number_isFinite (lat flow)) || negb (Number_isFinite (lon flow))
  then map
  else
    let key := flowKey flow in
    let current :=
      match Map_get key map with
      | Some found => found
      | None => fresh flow
      end in
    let flowMb := finite_or (mb_s flow) 0 in
    let flowBytes := finite_or (bytes flow) 0 in
    let flowFade := finite_or (fade flow) 1 in
    Map_set key
      (mkFlow (direction current) (ip current) (lat current) (lon current)
         (mb_s current + flowMb)%Q
         (bytes current + flowBytes)%Q
         (Qmax (or_zero (fade current)) flowFade))
      map.

Definition aggregateFlows (flows : list (Flow JsValue)) : list (Flow Q) :=
  let map := fold_left accumulate flows [] in
  Array_sort (fun a b => (mb_s b - mb_s a)%Q) (Map_values map).

(** [aggregated.slice(0, 12)], the flows the map draws. *)
Definition topFlows (flows : list (Flow JsValue)) : list (Flow Q) :=
  slice_first 12 (aggregateFlows flows).

(** ** App.jsx: constants and state *)

Definition MAX_POINTS : nat := 60.

Definition MAP_LINGER_MS : Z := 20000.

Record CpuPoint : Type := { cpu_time : string; cpu_value : JsValue }.

Record NetPoint : Type := {
  net_time : string;
  download : JsValue;
  upload : JsValue;
}.

(** The [useState] cells the message handler writes. *)
Record AppState : Type := mkApp {
  metrics : option Snapshot;
  cpuHistory : list CpuPoint;
  netHistory : list NetPoint;
  flowCache : JsMap (Cached JsValue);
  flowNow : Z;
}.

(** The state at mount: [flowNow] is the clock reading taken then. *)
Definition initialState (mountedAt : Z) : AppState :=
  mkApp None [] [] [] mountedAt.

(** ** App.jsx: the flow cache update of [socket.onmessage] *)

(** [`${flow.direction || "unknown"}-${flow.ip || "unknown"}`] *)
Definition cacheKey (flow : Flow JsValue) : string :=
  or_string (direction flow) "unknown" +:+ "-" +:+ or_string (ip flow) "unknown".

(** One property of [{ ...existing, ...flow }]: the later object wins when
    it has the property. *)
Definition spread (existing flow : JsValue) : JsValue :=
  match flow with
  | Undefined => existing
  | _ => flow
  end.

(** [Number.isFinite(merged) ? merged : existing], the coordinate repair. *)
Definition keep_finite (merged existing : JsValue) : JsValue :=
  if Number_isFinite merged then merged else existing.

(** [merged]: [{ ...(existing || {}), ...flow }] with the coordinates
    repaired from [existing] when the merged ones are not finite (the
    [lastSeen] stamp is set by [mergeFlow]). *)
Definition merge (existing : option (Cached JsValue)) (flow : Flow JsValue)
  : Flow JsValue :=
  match existing with
  | Some found =>
      let old := entry found in
      mkFlow (direction flow) (ip flow)
        (keep_finite (spread (lat old) (lat flow)) (lat old))
        (keep_finite (spread (lon old) (lon flow)) (lon old))
        (spread (mb_s old) (mb_s flow))
        (spread (bytes old) (bytes flow))
        (spread (fade old) (fade flow))
  | None => flow
  end.

(** The body of [flows.forEach] in the [setFlowCache] updater. *)
Definition mergeFlow (nowMs : Z) (next : JsMap (Cached JsValue))
  (flow : Flow JsValue) : JsMap (Cached JsValue) :=
  let key := cacheKey flow in
  let existing := Map_get key next in
  Map_set key (mkCached (merge existing flow) nowMs) next.

(** The [for (const [key, value] of next)] loop: entries older than the
    linger window are deleted. *)
Definition prune (nowMs : Z) (next : JsMap (Cached JsValue))
  : JsMap (Cached JsValue) :=
  List.filter
    (fun kv => negb (nowMs - or_time (lastSeen (snd kv)) 0 >? MAP_LINGER_MS)%Z)
    next.

Definition updateFlowCache (nowMs : Z) (data : Snapshot)
  (prev : JsMap (Cached JsValue)) : JsMap (Cached JsValue) :=
  let flows :=
    match network_flows data with
    | Some flows => flows
    | None => []
    end in
  prune nowMs (fold_left (mergeFlow nowMs) flows prev).

(** ** App.jsx: mapFlows *)

Definition fadeFlow (flowNow : Z) (flow : Cached JsValue) : Cached Q :=
  let ageMs := (flowNow - or_time (lastSeen flow) flowNow)%Z in
  let fade := clamp (1 - inject_Z ageMs / inject_Z MAP_LINGER_MS) 0 1 in
  let mb_s := finite_or (mb_s (entry flow)) 0 in
  let bytes := finite_or (bytes (entry flow)) 0 in
  mkCached
    (mkFlow (direction (entry flow)) (ip (entry flow))
       (lat (entry flow)) (lon (entry flow))
       (mb_s * fade)%Q (bytes * fade)%Q fade)
    (lastSeen flow).

Definition mapFlows (flowCache : JsMap (Cached JsValue)) (flowNow : Z)
  : list (Cached Q) :=
  match flowCache with
  | [] => []
  | _ =>
      List.filter
        (fun flow => if Qlt_le_dec 0 (fade (entry flow)) then true else false)
        (List.map (fadeFlow flowNow) (Map_values flowCache))
  end.

(** ** The Geolocation Resolver

    The resolver runs in the backend, whose code is not part of the
    sources embedded here; it is modelled from sections 3, 4.4 and 5 of
    the specification. *)

Module GeoResolver.

(** Modelled from the spec: what a lookup comes back with once the
    provider list has been tried (section 4.4): coordinates and country,
    or total failure. *)
Inductive Outcome : Type :=
| Located (latitude longitude : Q) (country : string)
| LookupFailed.

(** Modelled from the spec: the GeoCacheEntry of section 3, coordinates
    and country, or the negative marker with the time before which the IP
    is not looked up again. *)
Inductive GeoCacheEntry : Type :=
| Coordinates (latitude longitude : Q) (country : string)
| Negative (retry_at : Z).

(** Modelled from the spec: what [resolve] hands back to its caller at
    once (section 4.4). *)
Inductive Answer : Type :=
| Resolved (latitude longitude : Q) (country : string)
| NotYetResolved.

(** Modelled from the spec: the resolver state of sections 3 and 4.4 (the
    backend module that implements it is not among the sources).  [cache]
    is the GeoCache, [inflight] lists the outstanding lookups with the
    callers attached to each, [issued] logs every outbound lookup request,
    newest first. *)
Record Resolver : Type := mkResolver {
  cache : gmap string GeoCacheEntry;
  inflight : list (string * list nat);
  issued : list string;
}.


(** Modelled from the spec: a caller that finds no usable cache entry
    attaches to the lookup in flight for the IP, or starts the one lookup
    when there is none (section 4.4, coalescing invariant). *)
Definition request (caller : nat) (ip : string) (r : Resolver) : Resolver :=
  match Map_get ip (inflight r) with
  | Some waiting =>
      mkResolver (cache r) (Map_set ip (waiting ++ [caller])%list (inflight r))
        (issued r)
  | None =>
      mkResolver (cache r) (Map_set ip [caller] (inflight r)) (ip :: issued r)
  end.

(** Modelled from the spec: [resolve(ip)] of section 4.4, "cached value
    immediately if present; otherwise schedules exactly one background
    lookup and returns not yet resolved"; a negative entry suppresses the
    lookup until its cooldown has elapsed. *)
Definition resolve (now : Z) (caller : nat) (ip : string) (r : Resolver)
  : Resolver * Answer :=
  match cache r !! ip with
  | Some (Coordinates la lo c) => (r, Resolved la lo c)
  | Some (Negative retry_at) =>
      if (now <? retry_at)%Z then (r, NotYetResolved)
      else (request caller ip r, NotYetResolved)
  | None => (request caller ip r, NotYetResolved)
  end.

(** Modelled from the spec: the completion callback of section 4.4, the
    only writer of the cache.  It stores the result (a negative entry with
    the cooldown on failure), ends the lookup and hands the one outcome to
    every caller attached to it. *)
Definition complete (cooldown now : Z) (ip : string) (o : Outcome)
  (r : Resolver) : Resolver * list (nat * Outcome) :=
  match Map_get ip (inflight r) with
  | Some waiting =>
      let e :=
        match o with
        | Located la lo c => Coordinates la lo c
        | LookupFailed => Negative (now + cooldown)
        end in
      (mkResolver (<[ip := e]> (cache r))
         (List.filter (fun kv => negb (String.eqb (fst kv) ip)) (inflight r))
         (issued r),
       List.map (fun caller => (caller, o)) waiting)
  | None => (r, [])
  end.

(** Modelled from the spec: what can happen to the resolver.  Section 5
    has the shared maps mutated by one task under a lock, so a call of
    [resolve] and a completion are atomic steps, and concurrent callers
    are an interleaving of such steps. *)
Inductive Event : Type :=
| Resolve (now : Z) (caller : nat) (ip : string)
| Complete (now : Z) (ip : string) (o : Outcome).

Definition step (cooldown : Z) (r : Resolver) (e : Event) : Resolver :=
  match e with
  | Resolve now caller ip => fst (resolve now caller ip r)
  | Complete now ip o => fst (complete cooldown now ip o r)
  end.

Definition run (cooldown : Z) (events : list Event) (r : Resolver) : Resolver :=
  fold_left (step cooldown) events r.





(** The waiting list of [ip] after the callers [new] have asked. *)
Definition joined (slot : option (list nat)) (new : list nat) : option (list nat) :=
  match slot, new with
  | Some waiting, _ => Some (waiting ++ new)%list
  | None, [] => None
  | None, _ => Some new
  end.


End GeoResolver.

(** [<WorldMap flows={mapFlows} />]: the faded flows as the map component
    receives them, and the flows it draws. *)
Definition worldMapFlows (s : AppState) : list (Flow JsValue) :=
  List.map
    (fun flow =>
       mkFlow (direction (entry flow)) (ip (entry flow))
         (lat (entry flow)) (lon (entry flow))
         (Num (mb_s (entry flow))) (Num (bytes (entry flow)))
         (Num (fade (entry flow))))
    (mapFlows (flowCache s) (flowNow s)).

Definition drawnFlows (s : AppState) : list (Flow Q) :=
  topFlows (worldMapFlows s).

(** ** The arithmetic of the code: binary64

    The definitions above add, subtract and scale finite numbers exactly,
    which is what the order, the keys and the shape of their results rest
    on.  The value of a sum does depend on the arithmetic: JavaScript
    numbers are binary64 values and every operation rounds its exact
    result to the nearest of them, ties to even.  This module follows that
    arithmetic for the sums of [aggregateFlows], for [cpuAverage], for the
    swap pulse and for the link values of [sankeyData].  A finite number is still the
    rational it denotes; the sign of zero is not represented. *)

Module Binary64.

(** A JavaScript number. *)
Inductive Number : Type :=
  | Finite (q : Q)
  | PlusInfinity
  | MinusInfinity
  | NotANumber.

Definition pow2 (e : Z) : Q := (2 ^ e)%Q.

(** The exponent [k] with [2^k <= |q| < 2^(k+1)], for [q] other than 0. *)
Definition ilog2 (q : Q) : Z :=
  let k := (Z.log2 (Z.abs (Qnum q)) - Z.log2 (Zpos (Qden q)))%Z in
  if Qle_bool (pow2 k) (Qabs q) then k else (k - 1)%Z.

(** The nearest integer, the even one of two that are equally near. *)
Definition rne (q : Q) : Z :=
  let f := Qfloor q in
  match (q - inject_Z f ?= 1 # 2)%Q with
  | Lt => f
  | Gt => (f + 1)%Z
  | Eq => if Z.even f then f else (f + 1)%Z
  end.

(** The exponent of the last of the 53 bits of [q]; subnormal numbers
    share the exponent -1074. *)
Definition ulp_exponent (q : Q) : Z := Z.max (ilog2 q - 52) (-1074).

(** The binary64 value of an exact result: round to nearest, ties to
    even, and to an infinity from [2^1024 - 2^970] on. *)
Definition round64 (q : Q) : Number :=
  if Qeq_bool q 0 then Finite 0
  else
    let e := ulp_exponent q in
    let r := (inject_Z (rne (q / pow2 e)) * pow2 e)%Q in
    if Qle_bool (pow2 1024) (Qabs r)
    then (if Qle_bool 0 q then PlusInfinity else MinusInfinity)
    else Finite r.

(** [a + b] *)
Definition plus (a b : Number) : Number :=
  match a, b with
  | Finite x, Finite y => round64 (x + y)
  | NotANumber, _ | _, NotANumber => NotANumber
  | PlusInfinity, MinusInfinity | MinusInfinity, PlusInfinity => NotANumber
  | PlusInfinity, _ | _, PlusInfinity => PlusInfinity
  | MinusInfinity, _ | _, MinusInfinity => MinusInfinity
  end.

(** [a - b] *)
Definition minus (a b : Number) : Number :=
  match a, b with
  | Finite x, Finite y => round64 (x - y)
  | NotANumber, _ | _, NotANumber => NotANumber
  | PlusInfinity, PlusInfinity | MinusInfinity, MinusInfinity => NotANumber
  | PlusInfinity, _ | _, MinusInfinity => PlusInfinity
  | MinusInfinity, _ | _, PlusInfinity => MinusInfinity
  end.

(** [a / n] for a count [n] that is not 0. *)
Definition divide (a : Number) (n : nat) : Number :=
  match a with
  | Finite x => round64 (x / inject_Z (Z.of_nat n))
  | _ => a
  end.

(** [Math.max(a, b)] *)
Definition Math_max (a b : Number) : Number :=
  match a, b with
  | NotANumber, _ | _, NotANumber => NotANumber
  | PlusInfinity, _ | _, PlusInfinity => PlusInfinity
  | MinusInfinity, other | other, MinusInfinity => other
  | Finite x, Finite y => Finite (Qmax x y)
  end.

(** [a * b] *)
Definition times (a b : Number) : Number :=
  match a, b with
  | NotANumber, _ | _, NotANumber => NotANumber
  | Finite x, Finite y => round64 (x * y)
  | Finite x, PlusInfinity | PlusInfinity, Finite x =>
      if Qeq_bool x 0 then NotANumber
      else if Qle_bool 0 x then PlusInfinity else MinusInfinity
  | Finite x, MinusInfinity | MinusInfinity, Finite x =>
      if Qeq_bool x 0 then NotANumber
      else if Qle_bool 0 x then MinusInfinity else PlusInfinity
  | PlusInfinity, PlusInfinity | MinusInfinity, MinusInfinity => PlusInfinity
  | PlusInfinity, MinusInfinity | MinusInfinity, PlusInfinity => MinusInfinity
  end.

(** [Math.min(a, b)] *)
Definition Math_min (a b : Number) : Number :=
  match a, b with
  | NotANumber, _ | _, NotANumber => NotANumber
  | MinusInfinity, _ | _, MinusInfinity => MinusInfinity
  | PlusInfinity, other | other, PlusInfinity => other
  | Finite x, Finite y => Finite (Qmin x y)
  end.

(** A decimal literal of the source: the binary64 value nearest to it. *)
Definition literal (q : Q) : Number := round64 q.

(** [Math.min(max, Math.max(min, value))] *)
Definition clamp (value min max : Number) : Number :=
  Math_min max (Math_max min value).

(** [a || 0] on a number: 0 and NaN are the falsy ones. *)
Definition or_zero (a : Number) : Number :=
  match a with
  | Finite x => if Qeq_bool x 0 then Finite 0 else a
  | NotANumber => Finite 0
  | _ => a
  end.

(** The number as a value. *)
Definition toValue (a : Number) : JsValue :=
  match a with
  | Finite x => Num x
  | PlusInfinity => Infinity
  | MinusInfinity => NegInfinity
  | NotANumber => NaN
  end.

(** *** components/WorldMap.jsx: aggregateFlows *)

(** [{ ...flow, mb_s: 0, bytes: 0, fade: 0 }] *)
Definition fresh (flow : Flow JsValue) : Flow Number :=
  mkFlow (direction flow) (ip flow) (lat flow) (lon flow)
    (Finite 0) (Finite 0) (Finite 0).

(** The body of [flows.forEach] in [aggregateFlows]. *)
Definition accumulate (map : JsMap (Flow Number)) (flow : Flow JsValue)
  : JsMap (Flow Number) :=
  if negb (Number_isFinite (lat flow)) || negb (Number_isFinite (lon flow))
  then map
  else
    let key := flowKey flow in
    let current :=
      match Map_get key map with
      | Some found => found
      | None => fresh flow
      end in
    let flowMb := finite_or (mb_s flow) 0 in
    let flowBytes := finite_or (bytes flow) 0 in
    let flowFade := finite_or (fade flow) 1 in
    Map_set key
      (mkFlow (direction current) (ip current) (lat current) (lon current)
         (plus (mb_s current) (Finite flowMb))
         (plus (bytes current) (Finite flowBytes))
         (Math_max (or_zero (fade current)) (Finite flowFade)))
      map.

(** What [sort] reads off the result of its comparator: the sign, NaN
    counting as 0. *)
Definition comparison (result : Number) : Q :=
  match result with
  | Finite x => x
  | PlusInfinity => 1
  | MinusInfinity => -1
  | NotANumber => 0
  end.

Definition aggregateFlows (flows : list (Flow JsValue)) : list (Flow Number) :=
  let map := fold_left accumulate flows [] in
  Array_sort (fun a b => comparison (minus (mb_s b) (mb_s a))) (Map_values map).

(** A value that is a number, as one. *)
Definition ofValue (x : JsValue) : option Number :=
  match x with
  | Num q => Some (Finite q)
  | NaN => Some NotANumber
  | Infinity => Some PlusInfinity
  | NegInfinity => Some MinusInfinity
  | _ => None
  end.

(** The values of a list, when they are all numbers. *)
Fixpoint numbers (values : list JsValue) : option (list Number) :=
  match values with
  | [] => Some []
  | value :: rest =>
      match ofValue value, numbers rest with
      | Some a, Some others => Some (a :: others)
      | _, _ => None
      end
  end.

(** *** App.jsx: cpuAverage

    [perCore] is [metrics?.cpu?.per_core ?? []], taken here with numbers
    for values. *)
Definition cpuAverage (metrics : option Snapshot) (perCore : list Number)
  : JsValue :=
  match perCore with
  | [] =>
      nullish
        match metrics with
        | Some m => optional (cpu m) cpu_total
        | None => Undefined
        end (Num 0)
  | _ =>
      let sum := fold_left (fun acc value => plus acc value) perCore (Finite 0) in
      toValue (divide sum (length perCore))
  end.

(** *** App.jsx: the number of swapPulseDuration

    [clamp(2.6 - swapPercent / 100 * 1.9, 0.6, 2.6)] *)
Definition swapPulse (swapPercent : Number) : Number :=
  clamp
    (minus (literal (26 # 10))
       (times (divide swapPercent 100) (literal (19 # 10))))
    (literal (6 # 10)) (literal (26 # 10)).

(** *** Vocabulary of the properties *)

(** The binary64 values: [m * 2^e] with [|m| < 2^53] and [e] from -1074
    to 971. *)
Definition binary64 (q : Q) : Prop :=
  exists m e : Z,
    (q == inject_Z m * pow2 e)%Q /\
    (Z.abs m < 2 ^ 53)%Z /\ (-1074 <= e <= 971)%Z.

(** The numbers [m * 2^e] with [|m| < 2^53] and [e] from -1074 up: the
    binary64 values, and beyond them what rounding gives before the test
    for overflow. *)
Definition representable (q : Q) : Prop :=
  exists m e : Z,
    (q == inject_Z m * pow2 e)%Q /\ (Z.abs m < 2 ^ 53)%Z /\ (-1074 <= e)%Z.

(** The rounding step of [round64]. *)
Definition rounded (q : Q) : Q :=
  (inject_Z (rne (q / pow2 (ulp_exponent q))) * pow2 (ulp_exponent q))%Q.

(** The order of the numbers, NaN apart. *)
Definition below (a b : Number) : Prop :=
  match a, b with
  | NotANumber, _ | _, NotANumber => False
  | MinusInfinity, _ | _, PlusInfinity => True
  | Finite x, Finite y => (x <= y)%Q
  | _, _ => False
  end.

(** The sum the code takes of one field of a list of flows: from 0, in
    the order of the list, rounding after every addition. *)
Definition total (pick : Flow JsValue -> JsValue) (flows : list (Flow JsValue))
  : Number :=
  fold_left (fun acc flow => plus acc (Finite (finite_or (pick flow) 0)))
    flows (Finite 0).

(** The effect of one [accumulate] on the slot of key [k]. *)
Definition step_key (k : string) (slot : option (Flow Number))
  (flow : Flow JsValue) : option (Flow Number) :=
  if (Number_isFinite (lat flow) && Number_isFinite (lon flow))
     && String.eqb (flowKey flow) k
  then
    let current := match slot with Some c => c | None => fresh flow end in
    Some
      (mkFlow (direction current) (ip current) (lat current) (lon current)
         (plus (mb_s current) (Finite (finite_or (mb_s flow) 0)))
         (plus (bytes current) (Finite (finite_or (bytes flow) 0)))
         (Math_max (or_zero (fade current)) (Finite (finite_or (fade flow) 1))))
  else slot.

(** The count a [bytes] field carries when it is a whole number that is
    not negative. *)
Definition counted (v : JsValue) : Prop :=
  exists n : Z, (0 <= n)%Z /\ (finite_or v 0 == inject_Z n)%Q.

(** The finite value of a number, 0 for the others. *)
Definition valueOf (a : Number) : Q :=
  match a with
  | Finite x => x
  | _ => 0%Q
  end.

End Binary64.

(** ** App.jsx (src/frontend): sankeyData

    The [useMemo] callback that turns the live flows into the nodes and
    links of the Sankey chart. *)

Module Sankey.

(** The fields of a flow record [sankeyData] reads; a string that is
    absent reads as the empty string. *)
Record LiveFlow : Type := {
  direction : string;
  mb_s : JsValue;
  app : string;
  protocol : string;
  country : string;
}.

Record Node : Type := { name : string; label : string }.

(** The value of a link is a sum the code takes, a binary64 number. *)
Record Link : Type := {
  source : nat;
  target : nat;
  value : Binary64.Number;
}.

(** [linkMap]: the key [`${a}-${b}`] of two node indices is kept as the
    pair it spells; insertion-ordered as a [Map] is. *)
Definition LinkMap : Type := list ((nat * nat) * Link).

Definition key_eqb (a b : nat * nat) : bool :=
  ((fst a =? fst b) && (snd a =? snd b))%nat.

Fixpoint LinkMap_get (key : nat * nat) (m : LinkMap) : option Link :=
  match m with
  | [] => None
  | (k, v) :: rest => if key_eqb key k then Some v else LinkMap_get key rest
  end.

Fixpoint LinkMap_set (key : nat * nat) (v : Link) (m : LinkMap) : LinkMap :=
  match m with
  | [] => [(key, v)]
  | (k, w) :: rest =>
      if key_eqb key k then (k, v) :: rest else (k, w) :: LinkMap_set key v rest
  end.

(** The three accumulators of the callback. *)
Record Builder : Type := {
  nodes : list Node;
  nodeIndex : JsMap nat;
  linkMap : LinkMap;
}.

Definition start : Builder := {| nodes := []; nodeIndex := []; linkMap := [] |}.

Definition addNode (key label : string) (b : Builder) : nat * Builder :=
  match Map_get key (nodeIndex b) with
  | Some index => (index, b)
  | None =>
      let index := length (nodes b) in
      (index,
       {| nodes := (nodes b ++ [{| name := key; label := label |}])%list;
          nodeIndex := Map_set key index (nodeIndex b);
          linkMap := linkMap b |})
  end.

(** [linkMap.set(key, { source, target,
      value: (linkMap.get(key)?.value || 0) + value })] *)
Definition addLink (src tgt : nat) (v : Q) (m : LinkMap) : LinkMap :=
  let found :=
    match LinkMap_get (src, tgt) m with
    | Some link => Binary64.or_zero (value link)
    | None => Binary64.Finite 0
    end in
  LinkMap_set (src, tgt)
    {| source := src; target := tgt;
       value := Binary64.plus found (Binary64.Finite v) |} m.

(** [Number.isFinite(flow.mb_s) ? flow.mb_s : 0] *)
Definition rate (flow : LiveFlow) : Q := finite_or (mb_s flow) 0.

Definition appOf (flow : LiveFlow) : string := or_string (app flow) "Unknown App".
Definition protocolOf (flow : LiveFlow) : string := or_string (protocol flow) "Other".
Definition countryOf (flow : LiveFlow) : string := or_string (country flow) "Unknown".

(** The node keys [`app:${app}`], [`protocol:${protocol}`] and
    [`country:${country}`]. *)
Definition appNode (flow : LiveFlow) : string := "app:" +:+ appOf flow.
Definition protocolNode (flow : LiveFlow) : string :=
  "protocol:" +:+ protocolOf flow.
Definition countryNode (flow : LiveFlow) : string :=
  "country:" +:+ countryOf flow.

(** The body of the [forEach]. *)
Definition addFlow (b : Builder) (flow : LiveFlow) : Builder :=
  let v := rate flow in
  if Qle_bool v 0 then b
  else
    let (appIndex, b1) := addNode (appNode flow) (appOf flow) b in
    let (protocolIndex, b2) := addNode (protocolNode flow) (protocolOf flow) b1 in
    let (countryIndex, b3) := addNode (countryNode flow) (countryOf flow) b2 in
    {| nodes := nodes b3;
       nodeIndex := nodeIndex b3;
       linkMap :=
         addLink protocolIndex countryIndex v
           (addLink appIndex protocolIndex v (linkMap b3)) |}.

(** What the callback returns when it does not return [null]. *)
Record Data : Type := { data_nodes : list Node; data_links : list Link }.

Definition outbound (flow : LiveFlow) : bool :=
  String.eqb (direction flow) "outbound".

Definition build (liveFlows : list LiveFlow) : Builder :=
  fold_left addFlow (List.filter outbound liveFlows) start.

Definition sankeyData (liveFlows : list LiveFlow) : option Data :=
  match liveFlows with
  | [] => None
  | _ =>
      let b := build liveFlows in
      match List.map snd (linkMap b) with
      | [] => None
      | links => Some {| data_nodes := nodes b; data_links := links |}
      end
  end.

(** *** Vocabulary of the properties *)

(** The flows the chart is made of: outbound, with a positive rate. *)
Definition sent (flow : LiveFlow) : bool :=
  outbound flow && negb (Qle_bool (rate flow) 0).

(** A number above 0: a positive finite one or [Infinity]. *)
Definition above_zero (x : Binary64.Number) : Prop :=
  match x with
  | Binary64.Finite q => (0 < q)%Q
  | Binary64.PlusInfinity => True
  | _ => False
  end.

(** One of the links from node [s] to node [t]. *)
Definition joins (ls : list Link) (s t : nat) : Prop :=
  exists l, In l ls /\ source l = s /\ target l = t.

(** The link from [s] to [t] is one of the two links of [flow]: from its
    app to its protocol, or from its protocol to its country. *)
Definition link_of (names : list string) (s t : nat) (flow : LiveFlow) : Prop :=
  (nth_error names s = Some (appNode flow) /\
   nth_error names t = Some (protocolNode flow)) \/
  (nth_error names s = Some (protocolNode flow) /\
   nth_error names t = Some (countryNode flow)).

(** *** Auxiliary notions of the proofs *)

Definition positive (flow : LiveFlow) : bool := negb (Qle_bool (rate flow) 0).

Definition names (b : Builder) : list string := List.map name (nodes b).

Definition links (b : Builder) : list Link := List.map snd (linkMap b).

(** [nodeIndex] maps a key to the position of the node of that name. *)
Definition indexed (b : Builder) : Prop :=
  forall key i,
    Map_get key (nodeIndex b) = Some i <-> nth_error (names b) i = Some key.

(** Every node is an app, a protocol or a country, labelled as such. *)
Definition labelled (b : Builder) : Prop :=
  Forall
    (fun node =>
       name node = "app:" +:+ label node \/
       name node = "protocol:" +:+ label node \/
       name node = "country:" +:+ label node)
    (nodes b).

(** Every link sits under the key of its two ends, joins two nodes that
    exist and has a value above 0. *)
Definition joined (n : nat) (kl : (nat * nat) * Link) : Prop :=
  source (snd kl) = fst (fst kl) /\ target (snd kl) = snd (fst kl) /\
  (fst (fst kl) < n)%nat /\ (snd (fst kl) < n)%nat /\
  above_zero (value (snd kl)).

Definition linked (b : Builder) : Prop :=
  Forall (joined (length (nodes b))) (linkMap b).

(** Every link is a link of one of the flows taken in so far. *)
Definition sourced (b : Builder) (done : list LiveFlow) : Prop :=
  Forall
    (fun kl =>
       exists f, In f done /\ link_of (names b) (fst (fst kl)) (snd (fst kl)) f)
    (linkMap b).

(** The flows taken in so far have their three nodes and their two
    links. *)
Definition covered (b : Builder) (done : list LiveFlow) : Prop :=
  Forall
    (fun f =>
       exists a p c,
         nth_error (names b) a = Some (appNode f) /\
         nth_error (names b) p = Some (protocolNode f) /\
         nth_error (names b) c = Some (countryNode f) /\
         In (a, p) (List.map fst (linkMap b)) /\
         In (p, c) (List.map fst (linkMap b)))
    done.

(** The builder after the flows [done], all of a positive rate. *)
Record built (b : Builder) (done : list LiveFlow) : Prop := {
  built_indexed : indexed b;
  built_labelled : labelled b;
  built_linked : linked b;
  built_sourced : sourced b done;
  built_covered : covered b done;
  built_distinct : NoDup (List.map fst (linkMap b));
  built_empty : links b = [] <-> done = [];
}.

End Sankey.

(** ** App.jsx (src/frontend): the flow cache update

    This copy of the component merges a record into its cache entry with
    the spread alone, and lets an entry linger 10000 ms. *)

Module Frontend.

Definition MAP_LINGER_MS : Z := 10000.

(** [{ ...(existing || {}), ...flow }] *)
Definition merge (existing : option (Cached JsValue)) (flow : Flow JsValue)
  : Flow JsValue :=
  match existing with
  | Some found =>
      let old := entry found in
      mkFlow (direction flow) (ip flow)
        (spread (lat old) (lat flow))
        (spread (lon old) (lon flow))
        (spread (mb_s old) (mb_s flow))
        (spread (bytes old) (bytes flow))
        (spread (fade old) (fade flow))
  | None => flow
  end.

(** The body of [flows.forEach] in the [setFlowCache] updater. *)
Definition mergeFlow (nowMs : Z) (next : JsMap (Cached JsValue))
  (flow : Flow JsValue) : JsMap (Cached JsValue) :=
  let key := cacheKey flow in
  let existing := Map_get key next in
  Map_set key (mkCached (merge existing flow) nowMs) next.

Definition prune (nowMs : Z) (next : JsMap (Cached JsValue))
  : JsMap (Cached JsValue) :=
  List.filter
    (fun kv => negb (nowMs - or_time (lastSeen (snd kv)) 0 >? MAP_LINGER_MS)%Z)
    next.

Definition updateFlowCache (nowMs : Z) (data : Snapshot)
  (prev : JsMap (Cached JsValue)) : JsMap (Cached JsValue) :=
  let flows :=
    match network_flows data with
    | Some flows => flows
    | None => []
    end in
  prune nowMs (fold_left (mergeFlow nowMs) flows prev).

End Frontend.

(** ** The client, over its printing builtins *)

Section Client.

Local Set Default Proof Using "Type".

(** [x.toFixed(digits)] for a finite [x]. *)
Variable toFixed : Q -> nat -> string.

(** The text React and template literals give an integer. *)
Variable numberToString : Z -> string.

(** [new Date(t * 1000).toLocaleTimeString()] *)
Variable toLocaleTimeString : JsValue -> string.

(** The number a string converts to where a number is expected. *)
Variable StringToNumber : string -> Binary64.Number.

(** ** utils/formatters.js *)

Definition units : list string := ["B"; "KB"; "MB"; "GB"; "TB"].

(** The [while] loop of [formatBytes]; it runs at most
    [units.length - 1] times. *)
Fixpoint scaleBytes (fuel : nat) (size : Q) (unitIndex : nat) : Q * nat :=
  match fuel with
  | O => (size, unitIndex)
  | S fuel' =>
      if Qle_bool 1024 size && (unitIndex <? length units - 1)%nat
      then scaleBytes fuel' (size / 1024)%Q (S unitIndex)
      else (size, unitIndex)
  end.

Definition formatBytes (value : JsValue) : string :=
  match value with
  | Num q =>
      let (size, unitIndex) := scaleBytes (length units - 1) q 0 in
      toFixed size (if (unitIndex =? 0)%nat then 0 else 1)%nat
        +:+ " " +:+ nth unitIndex units ""
  | _ => "--"
  end.

Definition formatRate (value : JsValue) : string :=
  match value with
  | Num q => toFixed q 2 +:+ " MB/s"
  | _ => "--"
  end.

Definition formatTemp (value : JsValue) : string :=
  match value with
  | Num q => toFixed q 1 +:+ " deg C"
  | _ => "--"
  end.

Definition formatCo2 (grams : JsValue) : string :=
  match grams with
  | Num q =>
      if Qle_bool 1000 q then toFixed (q / 1000)%Q 4 +:+ " kg"
      else toFixed q 4 +:+ " g"
  | _ => "--"
  end.

Definition formatMs (value : JsValue) : string :=
  match value with
  | Num q => toFixed q 1 +:+ " ms"
  | _ => "--"
  end.

(** ** EnergyGauge.jsx: the wattage text *)

Definition wattsText (wattage : JsValue) : string :=
  match wattage with
  | Num q => toFixed q 1
  | _ => "--"
  end.

(** ** App.jsx: the readings taken from [metrics] (lines 278-306) *)

(** [metrics?.sub?.field] *)
Definition chain {A : Type} (metrics : option Snapshot)
  (sub : Snapshot -> option A) (field : A -> JsValue) : JsValue :=
  match metrics with
  | Some m => optional (sub m) field
  | None => Undefined
  end.

(** [metrics?.sustainability?.network?.field] *)
Definition chain_network (metrics : option Snapshot)
  (field : NetworkSustainability -> JsValue) : JsValue :=
  match metrics with
  | Some m =>
      match sustainability m with
      | Some s => optional (sustainability_network s) field
      | None => Undefined
      end
  | None => Undefined
  end.

Definition memoryPercent m := nullish (chain m memory pressure) (Num 0).
Definition memoryUsed m := nullish (chain m memory memory_used) (Num 0).
Definition memoryTotal m := nullish (chain m memory memory_total) (Num 0).
Definition swapUsed m := nullish (chain m memory swap_used) (Num 0).
Definition swapTotal m := nullish (chain m memory swap_total) (Num 0).
Definition swapPercent m := nullish (chain m memory swap_percent) (Num 0).
Definition diskRead m := nullish (chain m disk read_mb_s) (Num 0).
Definition diskWrite m := nullish (chain m disk write_mb_s) (Num 0).
Definition diskReadIops m := nullish (chain m disk read_iops) (Num 0).
Definition diskWriteIops m := nullish (chain m disk write_iops) (Num 0).

(** [metrics?.cpu?.per_core ?? []] *)
Definition perCore (m : option Snapshot) : list JsValue :=
  match m with
  | Some s =>
      match cpu s with
      | Some c => match per_core c with Some values => values | None => [] end
      | None => []
      end
  | None => []
  end.

(** [metrics?.processes ?? []] *)
Definition processRows (m : option Snapshot) : list Process :=
  match m with
  | Some s => match processes s with Some rows => rows | None => [] end
  | None => []
  end.

(** [cpuAverage], for per-core values that are numbers: [None] stands for
    the other lists, on which the render fails at [value.toFixed] (lines
    484 and 513) whatever the average is. *)
Definition cpuAverage (m : option Snapshot) : option JsValue :=
  match Binary64.numbers (perCore m) with
  | Some loads => Some (Binary64.cpuAverage m loads)
  | None => None
  end.
Definition cpuTemp m := chain m thermal cpu_temp_c.
Definition latencyMs m := chain m network latency_ms.
Definition jitterMs m := chain m network jitter_ms.
Definition batteryHealth m := chain m battery health_percent.
Definition energyKwh m := nullish (chain m sustainability energy_kwh) (Num 0).
Definition co2eGrams m := nullish (chain m sustainability co2e_g) (Num 0).
Definition co2Intensity m :=
  nullish (chain m sustainability intensity_g_per_kwh) (Num 0).
Definition deviceCo2e m := nullish (chain m sustainability device_co2e_g) (Num 0).
Definition networkCo2e m := nullish (chain_network m network_co2e_g) (Num 0).
Definition networkBytes m := nullish (chain_network m network_bytes) (Num 0).
Definition networkEnergyKwh m :=
  nullish (chain_network m network_energy_kwh) (Num 0).

(** [Number.isFinite(x) ? `${x.toFixed(digits)}${suffix}` : "--"] *)
Definition guarded (x : JsValue) (digits : nat) (suffix : string) : string :=
  match x with
  | Num q => toFixed q digits +:+ suffix
  | _ => "--"
  end.

(** [Math.round] of a finite number. *)
Definition Math_round (q : Q) : Z := Qfloor (q + (1 # 2)).

(** [x.toFixed(digits)] on any value.  A number has the method; a string
    or a boolean has not, and [undefined] and [null] have no property at
    all: [None] is the TypeError of the call. *)
Definition toFixed_call (x : JsValue) (digits : nat) : option string :=
  match x with
  | Num q => Some (toFixed q digits)
  | NaN => Some "NaN"
  | Infinity => Some "Infinity"
  | NegInfinity => Some "-Infinity"
  | _ => None
  end.

(** [`${x.toFixed(digits)}%`] without a test before it. *)
Definition percentText (x : JsValue) (digits : nat) : option string :=
  match toFixed_call x digits with
  | Some text => Some (text +:+ "%")
  | None => None
  end.

(** The conversion of a value where a number is expected. *)
Definition ToNumber (x : JsValue) : Binary64.Number :=
  match x with
  | Undefined => Binary64.NotANumber
  | Null => Binary64.Finite 0
  | Bool b => Binary64.Finite (if b then 1 else 0)
  | Str s => StringToNumber s
  | Num q => Binary64.Finite q
  | NaN => Binary64.NotANumber
  | Infinity => Binary64.PlusInfinity
  | NegInfinity => Binary64.MinusInfinity
  end.

(** [`${Math.round(x)} IOPS`] without a test before it. *)
Definition iops (x : JsValue) : string :=
  match ToNumber x with
  | Binary64.Finite q => numberToString (Math_round q)
  | Binary64.PlusInfinity => "Infinity"
  | Binary64.MinusInfinity => "-Infinity"
  | Binary64.NotANumber => "NaN"
  end +:+ " IOPS".

(** The numeric readings of the dashboard. *)
Inductive Reading : Type :=
| CpuTemp | Latency | Jitter | BatteryHealth | Wattage
| MemoryUsed | MemoryTotal | SwapUsed | SwapTotal
| DiskRead | DiskWrite | Download | Upload
| Co2e | EnergyKwh | DeviceCo2e | NetworkCo2e | NetworkEnergyKwh
| NetworkBytes | Co2Intensity
| CpuAverage | MemoryPercent | SwapPercent | DiskReadIops | DiskWriteIops.

(** The snapshot field behind a reading; for the CPU average, the field
    it is read from when there are no per-core values. *)
Definition field (m : option Snapshot) (r : Reading) : JsValue :=
  match r with
  | CpuTemp => chain m thermal cpu_temp_c
  | Latency => chain m network latency_ms
  | Jitter => chain m network jitter_ms
  | BatteryHealth => chain m battery health_percent
  | Wattage => chain m energy wattage
  | MemoryUsed => chain m memory memory_used
  | MemoryTotal => chain m memory memory_total
  | SwapUsed => chain m memory swap_used
  | SwapTotal => chain m memory swap_total
  | DiskRead => chain m disk read_mb_s
  | DiskWrite => chain m disk write_mb_s
  | Download => chain m network download_mb_s
  | Upload => chain m network upload_mb_s
  | Co2e => chain m sustainability co2e_g
  | EnergyKwh => chain m sustainability energy_kwh
  | DeviceCo2e => chain m sustainability device_co2e_g
  | NetworkCo2e => chain_network m network_co2e_g
  | NetworkEnergyKwh => chain_network m network_energy_kwh
  | NetworkBytes => chain_network m network_bytes
  | Co2Intensity => chain m sustainability intensity_g_per_kwh
  | CpuAverage => chain m cpu cpu_total
  | MemoryPercent => chain m memory pressure
  | SwapPercent => chain m memory swap_percent
  | DiskReadIops => chain m disk read_iops
  | DiskWriteIops => chain m disk write_iops
  end.

(** The expression the JSX holds for a reading, evaluated: its text, or
    [None] for a TypeError. *)
Definition expression (m : option Snapshot) (r : Reading) : option string :=
  match r with
  | CpuTemp => Some (formatTemp (cpuTemp m))
  | Latency => Some (formatMs (latencyMs m))
  | Jitter => Some (formatMs (jitterMs m))
  | BatteryHealth => Some (guarded (batteryHealth m) 0 "%")
  | Wattage => Some (wattsText (chain m energy wattage))
  | MemoryUsed => Some (formatBytes (memoryUsed m))
  | MemoryTotal => Some (formatBytes (memoryTotal m))
  | SwapUsed => Some (formatBytes (swapUsed m))
  | SwapTotal => Some (formatBytes (swapTotal m))
  | DiskRead => Some (formatRate (diskRead m))
  | DiskWrite => Some (formatRate (diskWrite m))
  | Download =>
      Some (formatRate (nullish (chain m network download_mb_s) (Num 0)))
  | Upload => Some (formatRate (nullish (chain m network upload_mb_s) (Num 0)))
  | Co2e => Some (formatCo2 (co2eGrams m))
  | EnergyKwh => Some (guarded (energyKwh m) 4 " kWh")
  | DeviceCo2e => Some (formatCo2 (deviceCo2e m))
  | NetworkCo2e => Some (formatCo2 (networkCo2e m))
  | NetworkEnergyKwh => Some (guarded (networkEnergyKwh m) 4 " kWh")
  | NetworkBytes => Some (formatBytes (networkBytes m))
  | Co2Intensity =>
      Some
        match co2Intensity m with
        | Num q => numberToString (Math_round q) +:+ " g CO2e/kWh"
        | _ => "--"
        end
  | CpuAverage =>
      match cpuAverage m with
      | Some average => percentText average 1
      | None => None
      end
  | MemoryPercent => percentText (memoryPercent m) 0
  | SwapPercent => percentText (swapPercent m) 0
  | DiskReadIops => Some (iops (diskReadIops m))
  | DiskWriteIops => Some (iops (diskWriteIops m))
  end.

Definition called (result : option string) : bool :=
  match result with
  | Some _ => true
  | None => false
  end.

(** The render of [App] goes through: none of the [toFixed] calls it
    makes without a test (lines 403, 484, 513, 886, 908, 987 and 1021)
    throws.  Nothing else in it throws on the values a [Snapshot] holds:
    the formatters and the components the readings are handed to test
    them with [Number.isFinite], arithmetic and [Math.round] convert their
    operands. *)
Definition renders (m : option Snapshot) : bool :=
  called (expression m CpuAverage)
  && forallb
       (fun value =>
          called (toFixed_call value 0) && called (toFixed_call value 1))
       (perCore m)
  && called (expression m MemoryPercent)
  && called (expression m SwapPercent)
  && forallb (fun proc => called (toFixed_call (cpu_percent proc) 1))
       (processRows m).

(** The text the dashboard shows for a reading: that of its expression
    when the render goes through, none when it throws. *)
Definition display (m : option Snapshot) (r : Reading) : option string :=
  if renders m then expression m r else None.

(** The readings [App] takes with a [?? 0] default. *)
Definition defaulted (r : Reading) : bool :=
  match r with
  | CpuTemp | Latency | Jitter | BatteryHealth | Wattage => false
  | _ => true
  end.

(** The readings printed through a formatter or behind a
    [Number.isFinite] test. *)
Definition guarded_reading (r : Reading) : bool :=
  match r with
  | CpuAverage | MemoryPercent | SwapPercent | DiskReadIops | DiskWriteIops =>
      false
  | _ => true
  end.

(** ** App.jsx: the capture summary line (lines 706-733) *)

(** The text children of the [<span>], in order. *)
Definition captureChildren (networkCapture : CaptureStatus) : list string :=
  [ "Capture:"; " ";
    (if sniffer_running networkCapture then "running" else "stopped");
    " · Packets: "; numberToString (packet_count networkCapture);
    " · Local:"; " "; numberToString (local_match_count networkCapture);
    " · Ignored:"; " "; numberToString (ignored_count networkCapture);
    " · Flows:"; " "; numberToString (flow_keys networkCapture);
    " · Geo cache:"; " "; numberToString (geo_cached networkCapture);
    " · Inflight:"; " "; numberToString (geo_inflight networkCapture);
    (match ifaces networkCapture with
     | [] => ""
     | _ => " · Ifaces: " +:+ String.concat ", " (ifaces networkCapture)
     end);
    (if String.eqb (sniffer_mode networkCapture) "" then ""
     else " · Mode: " +:+ sniffer_mode networkCapture);
    (if String.eqb (capture_method networkCapture) "" then ""
     else " · Method: " +:+ capture_method networkCapture);
    (if String.eqb (sniffer_error networkCapture) "" then ""
     else " · Error: " +:+ sniffer_error networkCapture) ].

Definition captureSummary (networkCapture : option CaptureStatus) : string :=
  match networkCapture with
  | Some status => String.concat "" (captureChildren status)
  | None => "Capture status pending..."
  end.

(** ** App.jsx: socket.onmessage *)

Definition cpuPoint (data : Snapshot) : CpuPoint :=
  {| cpu_time := toLocaleTimeString (timestamp data);
     cpu_value := nullish (optional (cpu data) cpu_total) (Num 0) |}.

Definition netPoint (data : Snapshot) : NetPoint :=
  {| net_time := toLocaleTimeString (timestamp data);
     download := nullish (optional (network data) download_mb_s) (Num 0);
     upload := nullish (optional (network data) upload_mb_s) (Num 0) |}.

(** One message: [nowMs] is the [Date.now()] reading the handler takes. *)
Definition onmessage (nowMs : Z) (data : Snapshot) (s : AppState) : AppState :=
  {| metrics := Some data;
     flowNow := nowMs;
     flowCache := updateFlowCache nowMs data (flowCache s);
     cpuHistory := slice_last MAX_POINTS (cpuHistory s ++ [cpuPoint data]);
     netHistory := slice_last MAX_POINTS (netHistory s ++ [netPoint data]) |}.

(** A run of the socket: the messages in arrival order, each with its
    clock reading. *)
Definition run (messages : list (Z * Snapshot)) (s : AppState) : AppState :=
  fold_left (fun s m => onmessage (fst m) (snd m) s) messages s.


(** ** Vocabulary of the properties *)

(** The sum of a list of finite numbers. *)
Definition Qsum (l : list Q) : Q := fold_right Qplus 0%Q l.

(** The two directions of the data model. *)
Definition is_direction (d : string) : Prop := d = "outbound" \/ d = "inbound".

(** A flow with resolved coordinates: the ones [aggregateFlows] admits. *)
Definition located {N : Type} (flow : Flow N) : bool :=
  Number_isFinite (lat flow) && Number_isFinite (lon flow).

(** The flow has the identity key (direction, ip). *)
Definition has_identity {N : Type} (d i : string) (flow : Flow N) : bool :=
  String.eqb (direction flow) d && String.eqb (ip flow) i.

(** The flow has finite [lat], [lon], [mb_s] and [bytes]. *)
Definition measured (flow : Flow JsValue) : Prop :=
  Number_isFinite (lat flow) = true /\ Number_isFinite (lon flow) = true /\
  Number_isFinite (mb_s flow) = true /\ Number_isFinite (bytes flow) = true.

(** The number a finite value carries. *)
Definition number (v : JsValue) : Q := finite_or v 0.

(** [lat] and [lon] are both finite or both not. *)
Definition paired {N : Type} (flow : Flow N) : Prop :=
  Number_isFinite (lat flow) = Number_isFinite (lon flow).

(** The flows a snapshot message carries. *)
Definition flows_of (data : Snapshot) : list (Flow JsValue) :=
  match network_flows data with
  | Some flows => flows
  | None => []
  end.

(** [needle] occurs in [text]. *)
Definition contains (needle text : string) : Prop :=
  exists before after, text = before +:+ needle +:+ after.

(** The formatter, or the unguarded call, of a reading applied to a
    value. *)
Definition render (r : Reading) (x : JsValue) : option string :=
  match r with
  | CpuTemp => Some (formatTemp x)
  | Latency | Jitter => Some (formatMs x)
  | BatteryHealth => Some (guarded x 0 "%")
  | Wattage => Some (wattsText x)
  | MemoryUsed | MemoryTotal | SwapUsed | SwapTotal | NetworkBytes =>
      Some (formatBytes x)
  | DiskRead | DiskWrite | Download | Upload => Some (formatRate x)
  | Co2e | DeviceCo2e | NetworkCo2e => Some (formatCo2 x)
  | EnergyKwh | NetworkEnergyKwh => Some (guarded x 4 " kWh")
  | Co2Intensity =>
      Some
        match x with
        | Num q => numberToString (Math_round q) +:+ " g CO2e/kWh"
        | _ => "--"
        end
  | CpuAverage => percentText x 1
  | MemoryPercent | SwapPercent => percentText x 0
  | DiskReadIops | DiskWriteIops => Some (iops x)
  end.

(** [x] is a number: the values [toFixed] can be called on. *)
Definition is_number (x : JsValue) : bool :=
  match x with
  | Num _ | NaN | Infinity | NegInfinity => true
  | _ => false
  end.

(** The capture status with its error string emptied. *)
Definition without_error (status : CaptureStatus) : CaptureStatus :=
  {| sniffer_running := sniffer_running status;
     packet_count := packet_count status;
     local_match_count := local_match_count status;
     ignored_count := ignored_count status;
     flow_keys := flow_keys status;
     geo_cached := geo_cached status;
     geo_inflight := geo_inflight status;
     ifaces := ifaces status;
     sniffer_mode := sniffer_mode status;
     capture_method := capture_method status;
     sniffer_error := "" |}.

(** The running flag as the summary words it. *)
Definition running_text (status : CaptureStatus) : string :=
  if sniffer_running status then "running" else "stopped".

(** The part of the summary that reports the capture error. *)
Definition error_text (status : CaptureStatus) : string :=
  if String.eqb (sniffer_error status) "" then ""
  else " · Error: " +:+ sniffer_error status.

(** ** Auxiliary notions of the proofs *)


(** [a] may stand before [b] in descending order of [key]. *)
Definition before {A : Type} (key : A -> Q) (a b : A) : Prop :=
  (key b <= key a)%Q.

(** The update [accumulate] applies to the entry [current]. *)
Definition bump (current : Flow Q) (flow : Flow JsValue) : Flow Q :=
  mkFlow (direction current) (ip current) (lat current) (lon current)
    (mb_s current + finite_or (mb_s flow) 0)%Q
    (bytes current + finite_or (bytes flow) 0)%Q
    (Qmax (or_zero (fade current)) (finite_or (fade flow) 1)).

(** The effect of one [accumulate] on the slot of key [k]. *)
Definition step_key (k : string) (slot : option (Flow Q)) (flow : Flow JsValue)
  : option (Flow Q) :=
  if located flow && String.eqb (flowKey flow) k then
    Some (bump (match slot with Some c => c | None => fresh flow end) flow)
  else slot.

(** The flows that [accumulate] adds to the slot of key [k]. *)
Definition feeding (k : string) (flows : list (Flow JsValue))
  : list (Flow JsValue) :=
  List.filter (fun flow => located flow && String.eqb (flowKey flow) k) flows.

(** Keys are distinct and every entry sits under the key of its own
    direction and ip. *)
Definition keyed (map : JsMap (Flow Q)) : Prop :=
  NoDup (Map_keys map) /\ forall k c, In (k, c) map -> flowKey c = k.

(** Every entry carries the identity of an admitted input flow. *)
Definition drawn_from (flows : list (Flow JsValue)) (map : JsMap (Flow Q)) : Prop :=
  forall k c, In (k, c) map ->
    exists f, In f flows /\ located f = true /\
              direction c = direction f /\ ip c = ip f.

(** The effect of one [mergeFlow] on the slot of key [k]. *)
Definition merge_step (nowMs : Z) (k : string) (slot : option (Cached JsValue))
  (flow : Flow JsValue) : option (Cached JsValue) :=
  if String.eqb (cacheKey flow) k then Some (mkCached (merge slot flow) nowMs)
  else slot.

(** Every entry of the cache pairs its coordinates. *)
Definition all_paired (cache : JsMap (Cached JsValue)) : Prop :=
  forall k c, In (k, c) cache -> paired (entry c).

(** ** Sample inputs *)

(** The outbound flow of the scenario of section 8 of the specification. *)
Definition sample_outbound : Flow JsValue :=
  mkFlow "outbound" "203.0.113.5" (Num (407 # 10)) (Num (-74))
    (Num (19 # 10000)) (Num 2000) Undefined.

(** The same remote IP seen inbound, its coordinates not resolved. *)
Definition sample_inbound_unresolved : Flow JsValue :=
  mkFlow "inbound" "203.0.113.5" Null Null (Num (95 # 100000)) (Num 1000)
    Undefined.

(** The same remote IP seen inbound, resolved. *)
Definition sample_inbound : Flow JsValue :=
  mkFlow "inbound" "203.0.113.5" (Num (407 # 10)) (Num (-74))
    (Num (95 # 100000)) (Num 1000) Undefined.

(** A second outbound record of the same flow. *)
Definition sample_outbound_again : Flow JsValue :=
  mkFlow "outbound" "203.0.113.5" (Num (407 # 10)) (Num (-74))
    (Num (5 # 10000)) (Num 500) Undefined.

(** A snapshot that carries the given flows and no other metric. *)
Definition snapshot_of_flows (flows : list (Flow JsValue)) : Snapshot :=
  {| timestamp := Num 1700000000;
     cpu := None; memory := None; disk := None; thermal := None;
     network := None; battery := None; energy := None;
     sustainability := None;
     network_flows := Some flows;
     network_capture := None;
     processes := None |}.

(** A snapshot whose memory and temperature readings are the explicit
    null the server sends for a reading it does not have. *)
Definition snapshot_unavailable : Snapshot :=
  {| timestamp := Num 1700000000;
     cpu := None;
     memory := Some {| pressure := Undefined;
                       memory_used := Null; memory_total := Null;
                       swap_used := Null; swap_total := Null;
                       swap_percent := Undefined |};
     disk := None;
     thermal := Some {| cpu_temp_c := Null |};
     network := None; battery := None; energy := None;
     sustainability := None;
     network_flows := None;
     network_capture := None;
     processes := None |}.

(** A snapshot whose temperature is the explicit null and whose CPU total
    is a text. *)
Definition snapshot_busy : Snapshot :=
  {| timestamp := Num 1700000000;
     cpu := Some {| cpu_total := Str "busy"; per_core := None |};
     memory := None;
     disk := None;
     thermal := Some {| cpu_temp_c := Null |};
     network := None; battery := None; energy := None;
     sustainability := None;
     network_flows := None;
     network_capture := None;
     processes := None |}.

(** The outbound flow again, before its coordinates are resolved. *)
Definition sample_outbound_unresolved : Flow JsValue :=
  mkFlow "outbound" "203.0.113.5" Null Null (Num (5 # 10000)) (Num 500)
    Undefined.

(** * Part I, continued. More of the client *)

(** The text a template literal gives a finite number that need not be
    an integer. *)
Variable numberText : Q -> string.

(** ** utils/formatters.js: heatColor *)

(** [hue] of [heatColor]: [190 - clamp(value, 0, 100) * 1.6]. *)
Definition heatHue (value : Q) : Q :=
  (190 - clamp value 0 100 * (16 # 10))%Q.

Definition heatColor (value : Q) : string :=
  "hsl(" +:+ numberText (heatHue value) +:+ ", 80%, 55%)".

(** ** components/DigitalTwin.jsx: the glow of the model

    Both functions are called on a temperature that has passed
    [Number.isFinite]. *)

(** [hue] of [tempToColor]. *)
Definition tempHue (temp : Q) : Q :=
  let safe := clamp temp 30 95 in
  let ratio := ((safe - 30) / 65)%Q in
  (210 - ratio * 210)%Q.

(** The colour string [tempToColor] hands to [THREE.Color]. *)
Definition tempToColor (temp : Q) : string :=
  "hsl(" +:+ numberText (tempHue temp) +:+ ", 80%, 55%)".

Definition tempToIntensity (temp : Q) : Q :=
  let safe := clamp temp 30 95 in
  let ratio := ((safe - 30) / 65)%Q in
  ((15 # 100) + ratio * (11 # 10))%Q.

(** ** App.jsx: swapPulseDuration, heatmapColumns *)

(** [`${clamp(2.6 - swapPercent / 100 * 1.9, 0.6, 2.6)}s`], for a
    [swapPercent] that is a number. *)
Definition swapPulseDuration (swapPercent : Binary64.Number) : string :=
  match Binary64.swapPulse swapPercent with
  | Binary64.Finite d => numberText d
  | Binary64.PlusInfinity => "Infinity"
  | Binary64.MinusInfinity => "-Infinity"
  | Binary64.NotANumber => "NaN"
  end +:+ "s".

(** [Math.ceil(Math.sqrt(n))] on a count: the least [k] with [n <= k * k]. *)
Definition ceil_sqrt (n : nat) : nat := Nat.sqrt_up n.

(** [heatmapColumns], from [perCore.length]. *)
Definition heatmapColumns (cores : nat) : nat :=
  Nat.min 8 (Nat.max 4 (ceil_sqrt (if (cores =? 0)%nat then 4 else cores)%nat)).

(** ** App.jsx: the theme and its [localStorage] item *)

(** The [theme] cell together with the ["theme"] item of [localStorage]. *)
Record ThemeState : Type := {
  theme : string;
  storedTheme : option string;
}.

(** The initialiser of [useState]: [stored === "light" ? "light" : "dark"]. *)
Definition initialTheme (stored : option string) : string :=
  match stored with
  | Some value => if String.eqb value "light" then "light" else "dark"
  | None => "dark"
  end.

(** The effect on [theme]: [localStorage.setItem("theme", theme)]. *)
Definition persistTheme (value : string) : ThemeState :=
  {| theme := value; storedTheme := Some value |}.

(** Mounting the application over a storage that holds [stored]. *)
Definition mountTheme (stored : option string) : ThemeState :=
  persistTheme (initialTheme stored).

(** The updater of [toggleTheme]. *)
Definition toggleTheme (current : string) : string :=
  if String.eqb current "light" then "dark" else "light".

(** One press of the theme button, with the effect that follows it. *)
Definition pressTheme (s : ThemeState) : ThemeState :=
  persistTheme (toggleTheme (theme s)).

(** ** App.jsx: the connection status *)

(** The [status] cell and the [shouldClose] flag of the socket effect. *)
Record Connection : Type := {
  status : string;
  shouldClose : bool;
}.

(** What can happen to the socket: its three status handlers, and the
    cleanup of the effect. *)
Inductive SocketEvent : Type :=
  | onopen
  | onclose
  | onerror
  | cleanup.

Definition connecting : Connection :=
  {| status := "connecting"; shouldClose := false |}.

Definition socketStep (c : Connection) (e : SocketEvent) : Connection :=
  match e with
  | onopen =>
      if shouldClose c then c
      else {| status := "live"; shouldClose := shouldClose c |}
  | onclose =>
      if negb (shouldClose c)
      then {| status := "offline"; shouldClose := shouldClose c |}
      else c
  | onerror =>
      if negb (shouldClose c)
      then {| status := "error"; shouldClose := shouldClose c |}
      else c
  | cleanup => {| status := status c; shouldClose := true |}
  end.

Definition socketRun (events : list SocketEvent) (c : Connection) : Connection :=
  fold_left socketStep events c.

(** ** App.jsx: the section chats *)

(** [String.prototype.trim]. *)
Variable trim : string -> string.

Record Message : Type := { role : string; content : string }.

(** The chat cells of the application; the three objects keyed by section
    id. *)
Record Chat : Type := {
  activeChatSection : option string;
  sectionMessages : gmap string (list Message);
  sectionInputs : gmap string string;
  sectionLoading : gmap string bool;
}.

Definition SECTION_TITLES : list (string * string) :=
  [ ("cpu", "CPU Activity");
    ("digitalTwin", "Digital Twin");
    ("network", "Network Throughput");
    ("worldMap", "Live World Map");
    ("energy", "Energy Impact");
    ("carbon", "Carbon Footprint");
    ("memoryDisk", "Memory & Disk");
    ("processes", "Resource Hogs");
    ("snapshot", "Snapshot") ].

(** What the explainer endpoint does with a request: it answers ([answer]
    is empty when the reply has none), or the request fails (no
    connection, a status that is not ok, or a body that is not JSON). *)
Inductive Reply : Type :=
  | Answered (answer : string)
  | Failed.

(** The updater the handler uses four times: push one message on the
    history of the section. *)
Definition pushMessage (sectionId : string) (message : Message)
  (prev : gmap string (list Message)) : gmap string (list Message) :=
  let history := default [] (prev !! sectionId) in
  <[sectionId := (history ++ [message])%list]> prev.

(** [suggestQuestion] *)
Definition suggestQuestion (text sectionId : string) (chat : Chat) : Chat :=
  if String.eqb sectionId "" then chat
  else
    {| activeChatSection := Some sectionId;
       sectionMessages := sectionMessages chat;
       sectionInputs := <[sectionId := text]> (sectionInputs chat);
       sectionLoading := sectionLoading chat |}.

(** The updater of [toggleSectionChat]. *)
Definition toggleSectionChat (sectionId : string) (current : option string)
  : option string :=
  match current with
  | Some open => if String.eqb open sectionId then None else Some sectionId
  | None => Some sectionId
  end.

(** The text the assistant message of a reply carries. *)
Definition replyContent (reply : Reply) : string :=
  match reply with
  | Answered answer => or_string answer "No response returned."
  | Failed => "Unable to reach the Gemini explainer endpoint."
  end.

(** [user_query] of the request. *)
Definition userQuery (sectionId question : string) : string :=
  let sectionTitle :=
    or_string (default "" (Map_get sectionId SECTION_TITLES)) "This section" in
  "[Section: " +:+ sectionTitle +:+ "] " +:+ question.

(** [sendSectionQuestion], run to its end with no other event in between;
    [fetch] is the explainer endpoint, asked with the [user_query]. *)
Definition sendSectionQuestion (fetch : string -> Reply)
  (metrics : option Snapshot) (sectionId : string) (chat : Chat) : Chat :=
  let question := trim (default "" (sectionInputs chat !! sectionId)) in
  if String.eqb question "" then chat
  else
    let asked :=
      pushMessage sectionId {| role := "user"; content := question |}
        (sectionMessages chat) in
    let inputs := <[sectionId := ""]> (sectionInputs chat) in
    match metrics with
    | None =>
        {| activeChatSection := activeChatSection chat;
           sectionMessages :=
             pushMessage sectionId
               {| role := "assistant";
                  content :=
                    "System data is still loading. Try again in a moment." |}
               asked;
           sectionInputs := inputs;
           sectionLoading := sectionLoading chat |}
    | Some _ =>
        let loading := <[sectionId := true]> (sectionLoading chat) in
        let reply := fetch (userQuery sectionId question) in
        {| activeChatSection := activeChatSection chat;
           sectionMessages :=
             pushMessage sectionId
               {| role := "assistant"; content := replyContent reply |} asked;
           sectionInputs := inputs;
           sectionLoading := <[sectionId := false]> loading |}
    end.

(** ** components/WorldMap.jsx: the zoom buttons *)

Record Position : Type := {
  coordinates : Q * Q;
  zoom : Q;
}.

Definition minZoom : Q := 8 # 10.
Definition maxZoom : Q := 35 # 10.

Definition initialPosition : Position :=
  {| coordinates := (0%Q, 20%Q); zoom := 1 |}.

Inductive Button : Type :=
  | ZoomIn
  | ZoomOut
  | ResetView.

(** The [onClick] of each button, as an update of [position]. *)
Definition press (prev : Position) (button : Button) : Position :=
  match button with
  | ZoomIn =>
      {| coordinates := coordinates prev;
         zoom := clamp (zoom prev + (3 # 10)) minZoom maxZoom |}
  | ZoomOut =>
      {| coordinates := coordinates prev;
         zoom := clamp (zoom prev - (3 # 10)) minZoom maxZoom |}
  | ResetView => initialPosition
  end.

(** ** A stand-in for [trim]

    On ASCII text: it removes the blanks (space,
    tab, line feed, vertical tab, form feed, carriage return) at both
    ends. *)
Definition is_blank (c : Ascii.ascii) : bool :=
  let n := Ascii.nat_of_ascii c in
  ((n =? 32) || ((9 <=? n) && (n <=? 13)))%nat.

Fixpoint drop_blanks (l : list Ascii.ascii) : list Ascii.ascii :=
  match l with
  | c :: rest => if is_blank c then drop_blanks rest else l
  | [] => []
  end.

Definition trim_ascii (s : string) : string :=
  String.string_of_list_ascii
    (rev (drop_blanks (rev (drop_blanks (String.list_ascii_of_string s))))).

(** ** A stand-in for the conversion of a string to a number

    On the strings of decimal digits, and on the empty string, which
    converts to 0; the other strings are taken for text that is no
    number. *)
Fixpoint digits_value (acc : Z) (l : list Ascii.ascii) : option Z :=
  match l with
  | [] => Some acc
  | c :: rest =>
      let n := Ascii.nat_of_ascii c in
      if ((48 <=? n) && (n <=? 57))%nat
      then digits_value (10 * acc + Z.of_nat (n - 48)) rest
      else None
  end.

Definition StringToNumber_digits (s : string) : Binary64.Number :=
  match digits_value 0 (String.list_ascii_of_string s) with
  | Some n => Binary64.round64 (inject_Z n)
  | None => Binary64.NotANumber
  end.

(** ** Auxiliary notions of the further proofs *)

(** [finite_or (fade flow) 1], the fade [accumulate] takes for a flow. *)
Definition fadeOf (flow : Flow JsValue) : Q := finite_or (fade flow) 1.

(** The fade [accumulate] leaves after merging flows with the fades
    [fades] into an entry whose fade was [init]. *)
Definition maxFade (init : Q) (fades : list Q) : Q :=
  fold_left (fun acc x => Qmax (or_zero acc) x) fades init.


(** ** Further sample inputs *)

(** Two outbound records of one flow whose rates are binary64 values. *)
Definition sample_transfer : Flow JsValue :=
  mkFlow "outbound" "203.0.113.5" (Num (407 # 10)) (Num (-74))
    (Num (1 # 512)) (Num 2048) Undefined.

Definition sample_transfer_again : Flow JsValue :=
  mkFlow "outbound" "203.0.113.5" (Num (407 # 10)) (Num (-74))
    (Num (1 # 2048)) (Num 512) Undefined.

Definition sample_transfers : list (Flow JsValue) :=
  [sample_transfer; sample_inbound; sample_transfer_again].

(** A record of [2^53] bytes, and a record of one byte more of the same
    flow. *)
Definition sample_bulk : Flow JsValue :=
  mkFlow "outbound" "203.0.113.5" (Num (407 # 10)) (Num (-74))
    (Num (1 # 2)) (Num 9007199254740992) Undefined.

Definition sample_single_byte : Flow JsValue :=
  mkFlow "outbound" "203.0.113.5" (Num (407 # 10)) (Num (-74))
    (Num (1 # 4)) (Num 1) Undefined.

(** Two records whose directions are not those of the data model and
    whose keys are the same text. *)
Definition sample_hyphen_left : Flow JsValue :=
  mkFlow "a" "b-c" (Num (407 # 10)) (Num (-74)) (Num (1 # 2)) (Num 10)
    Undefined.

Definition sample_hyphen_right : Flow JsValue :=
  mkFlow "a-b" "c" (Num (407 # 10)) (Num (-74)) (Num (1 # 4)) (Num 20)
    Undefined.

(** Live flows for the Sankey chart: two outbound ones of one app and
    protocol, an inbound one and an idle one. *)
Definition sample_live : list Sankey.LiveFlow :=
  [ {| Sankey.direction := "outbound"; Sankey.mb_s := Num (1 # 2);
       Sankey.app := "firefox"; Sankey.protocol := "TCP";
       Sankey.country := "US" |};
    {| Sankey.direction := "inbound"; Sankey.mb_s := Num (3 # 4);
       Sankey.app := "firefox"; Sankey.protocol := "TCP";
       Sankey.country := "US" |};
    {| Sankey.direction := "outbound"; Sankey.mb_s := Num (1 # 4);
       Sankey.app := "firefox"; Sankey.protocol := "TCP";
       Sankey.country := "" |};
    {| Sankey.direction := "outbound"; Sankey.mb_s := Num 0;
       Sankey.app := "mail"; Sankey.protocol := "UDP";
       Sankey.country := "FR" |} ].
(** * Part II. Properties *)

(** ** clamp *)

Lemma clamp_bounds (v lo hi : Q) : (lo <= hi)%Q -> (lo <= clamp v lo hi <= hi)%Q.
Proof.
  intros Hle. unfold clamp. split.
  - apply Q.min_glb; [exact Hle | apply Q.le_max_l].
  - apply Q.le_min_l.
Qed.

Lemma clamp_inside (v lo hi : Q) :
  (lo <= v)%Q -> (v <= hi)%Q -> (clamp v lo hi == v)%Q.
Proof.
  intros Hlo Hhi. unfold clamp.
  rewrite (Q.max_r lo v) by exact Hlo.
  apply Q.min_r. exact Hhi.
Qed.

Lemma clamp_below (v lo hi : Q) :
  (v <= lo)%Q -> (lo <= hi)%Q -> (clamp v lo hi == lo)%Q.
Proof.
  intros Hv Hle. unfold clamp.
  rewrite (Q.max_l lo v) by exact Hv.
  apply Q.min_r. exact Hle.
Qed.

Lemma clamp_above (v lo hi : Q) :
  (hi <= v)%Q -> (lo <= hi)%Q -> (clamp v lo hi == hi)%Q.
Proof.
  intros Hv Hle. unfold clamp.
  apply Q.min_l. apply Qle_trans with v; [exact Hv | apply Q.le_max_r].
Qed.

(** ** The energy gauge *)

Lemma Qle_bool_false (x y : Q) : Qle_bool x y = false <-> (y < x)%Q.
Proof.
  split.
  - intros H. apply Qnot_le_lt. intros Hle.
    apply Qle_bool_iff in Hle. congruence.
  - intros H. destruct (Qle_bool x y) eqn:E; [| reflexivity].
    apply Qle_bool_iff in E. exfalso. apply (Qlt_not_le _ _ H E).
Qed.

Lemma energyLabel_finite (w : Q) :
  energyLabel (Num w) =
    if Qle_bool w 6 then "Low" else if Qle_bool w 15 then "Moderate" else "High".
Proof. reflexivity. Qed.

Lemma percent_finite (w : Q) : percent (Num w) = clamp (w / 30) 0 1.
Proof. reflexivity. Qed.

(** C10. The gauge label is a partition of the wattage inputs:
    "Unavailable" exactly for a wattage that is not a finite number, "Low"
    exactly for a finite wattage of at most 6, "Moderate" exactly above 6
    and up to 15, "High" exactly above 15; the ring fraction lies in [0, 1]
    and is wattage / 30 cut to that interval, 0 when unavailable. *)
Theorem EnergyGauge_label_partition (wattage : JsValue) :
  (energyLabel wattage = "Unavailable" <-> Number_isFinite wattage = false) /\
  (energyLabel wattage = "Low" <-> exists w, wattage = Num w /\ (w <= 6)%Q) /\
  (energyLabel wattage = "Moderate" <->
     exists w, wattage = Num w /\ (6 < w)%Q /\ (w <= 15)%Q) /\
  (energyLabel wattage = "High" <-> exists w, wattage = Num w /\ (15 < w)%Q) /\
  (0 <= percent wattage <= 1)%Q /\
  (Number_isFinite wattage = false -> (percent wattage == 0)%Q) /\
  (forall w, wattage = Num w ->
     ((w <= 0)%Q -> (percent wattage == 0)%Q) /\
     ((0 <= w)%Q -> (w <= 30)%Q -> (percent wattage == w / 30)%Q) /\
     ((30 <= w)%Q -> (percent wattage == 1)%Q)).
Proof.
  assert (Hfin : forall w,
    (energyLabel (Num w) = "Low" <-> (w <= 6)%Q) /\
    (energyLabel (Num w) = "Moderate" <-> (6 < w)%Q /\ (w <= 15)%Q) /\
    (energyLabel (Num w) = "High" <-> (15 < w)%Q) /\
    energyLabel (Num w) <> "Unavailable").
  { intros w. rewrite energyLabel_finite.
    destruct (Qle_bool w 6) eqn:E6; [| destruct (Qle_bool w 15) eqn:E15].
    - apply Qle_bool_iff in E6. repeat split; try discriminate; try (intros; lra).
    - apply Qle_bool_false in E6. apply Qle_bool_iff in E15.
      repeat split; try discriminate; try (intros; lra).
    - apply Qle_bool_false in E6. apply Qle_bool_false in E15.
      repeat split; try discriminate; try (intros; lra). }
  assert (Hnot : forall v, Number_isFinite v = false ->
    energyLabel v = "Unavailable" /\ (forall w, v <> Num w) /\ percent v = clamp 0 0 1).
  { intros v Hv. destruct v; try discriminate Hv; repeat split; discriminate. }
  split; [| split; [| split; [| split; [| split; [| split]]]]].
  - destruct (Number_isFinite wattage) eqn:F.
    + destruct wattage; try discriminate F.
      split; [intros H; exfalso; exact (proj2 (proj2 (proj2 (Hfin q))) H) | discriminate].
    + split; [reflexivity | intros _; exact (proj1 (Hnot _ F))].
  - split.
    + intros H. destruct wattage; try discriminate H.
      exists q. split; [reflexivity | apply (proj1 (Hfin q)); exact H].
    + intros (w & -> & Hw). apply (proj1 (Hfin w)). exact Hw.
  - split.
    + intros H. destruct wattage; try discriminate H.
      exists q. split; [reflexivity | apply (proj1 (proj2 (Hfin q))); exact H].
    + intros (w & -> & Hw). apply (proj1 (proj2 (Hfin w))). exact Hw.
  - split.
    + intros H. destruct wattage; try discriminate H.
      exists q. split; [reflexivity | apply (proj1 (proj2 (proj2 (Hfin q)))); exact H].
    + intros (w & -> & Hw). apply (proj1 (proj2 (proj2 (Hfin w)))). exact Hw.
  - unfold percent. apply clamp_bounds. lra.
  - intros F. destruct (Hnot _ F) as (_ & _ & ->). apply clamp_inside; lra.
  - intros w ->. rewrite percent_finite. repeat split.
    + intros Hw. apply clamp_below; [| lra].
      apply Qle_shift_div_r; [reflexivity | lra].
    + intros H0 H30. apply clamp_inside.
      * apply Qle_shift_div_l; [reflexivity | lra].
      * apply Qle_shift_div_r; [reflexivity | lra].
    + intros Hw. apply clamp_above; [| lra].
      apply Qle_shift_div_l; [reflexivity | lra].
Qed.

(** ** Map *)

Section MapFacts.

Context {V : Type}.

Implicit Types (m : JsMap V) (k : string) (v : V).

Lemma Map_get_set_eq k v m : Map_get k (Map_set k v m) = Some v.
Proof.
  induction m as [| [k' w] rest IH]; simpl.
  - now rewrite String.eqb_refl.
  - destruct (String.eqb k k') eqn:E; simpl; rewrite E; [reflexivity | exact IH].
Qed.

Lemma Map_get_set_ne k k' v m :
  k <> k' -> Map_get k' (Map_set k v m) = Map_get k' m.
Proof.
  intros Hne. induction m as [| [k0 w] rest IH]; simpl.
  - destruct (String.eqb_spec k' k); [congruence | reflexivity].
  - destruct (String.eqb_spec k k0) as [-> | Hk]; simpl.
    + destruct (String.eqb_spec k' k0); [congruence | reflexivity].
    + now rewrite IH.
Qed.

Lemma Map_get_In k v m : Map_get k m = Some v -> In (k, v) m.
Proof.
  induction m as [| [k' w] rest IH]; simpl; [discriminate |].
  destruct (String.eqb_spec k k') as [-> | Hk].
  - intros [= ->]. now left.
  - intros H. right. now apply IH.
Qed.

Lemma Map_get_None k m : Map_get k m = None <-> ~ In k (Map_keys m).
Proof.
  induction m as [| [k' w] rest IH]; simpl.
  - split; [intros _ [] | reflexivity].
  - destruct (String.eqb_spec k k') as [-> | Hk].
    + split; [discriminate | intros H; exfalso; apply H; now left].
    + rewrite IH. split.
      * intros H [E | Hin]; [congruence | exact (H Hin)].
      * intros H Hin. apply H. now right.
Qed.

Lemma In_Map_get k v m : NoDup (Map_keys m) -> In (k, v) m -> Map_get k m = Some v.
Proof.
  induction m as [| [k' w] rest IH]; simpl; [intros _ [] |].
  intros Hnd [E | Hin].
  - injection E as -> ->. now rewrite String.eqb_refl.
  - apply NoDup_cons_iff in Hnd as [Hnotin Hnd].
    destruct (String.eqb_spec k k') as [-> | Hk].
    + exfalso. apply Hnotin. change (In (fst (k', v)) (List.map fst rest)).
      now apply in_map.
    + now apply IH.
Qed.

Lemma Map_keys_set k v m :
  Map_keys (Map_set k v m) =
    match Map_get k m with
    | Some _ => Map_keys m
    | None => (Map_keys m ++ [k])%list
    end.
Proof.
  induction m as [| [k' w] rest IH]; simpl; [reflexivity |].
  destruct (String.eqb_spec k k') as [-> | Hk]; simpl; [reflexivity |].
  rewrite IH. now destruct (Map_get k rest).
Qed.

Lemma Map_set_NoDup k v m : NoDup (Map_keys m) -> NoDup (Map_keys (Map_set k v m)).
Proof.
  intros Hnd. rewrite Map_keys_set. destruct (Map_get k m) eqn:E; [exact Hnd |].
  apply Map_get_None in E.
  apply (Permutation_NoDup (l := k :: Map_keys m)).
  - apply Permutation_cons_append.
  - now constructor.
Qed.

Lemma Map_filter_NoDup (keep : string * V -> bool) m :
  NoDup (Map_keys m) -> NoDup (Map_keys (List.filter keep m)).
Proof.
  induction m as [| [k w] rest IH]; simpl; [intros; constructor |].
  intros Hnd. apply NoDup_cons_iff in Hnd as [Hnotin Hnd].
  destruct (keep (k, w)); simpl; [| now apply IH].
  constructor; [| now apply IH].
  intros Hin. apply Hnotin. unfold Map_keys in *.
  apply in_map_iff in Hin as (kv & Hk & Hin).
  apply filter_In in Hin as [Hin _].
  rewrite <- Hk. now apply in_map.
Qed.

Lemma Map_In_set k v k' v' m :
  In (k', v') (Map_set k v m) -> (k' = k /\ v' = v) \/ In (k', v') m.
Proof.
  induction m as [| [k0 w] rest IH]; simpl.
  - intros [[= <- <-] | []]. now left.
  - destruct (String.eqb_spec k k0) as [-> | Hk]; simpl.
    + intros [[= <- <-] | Hin]; [now left | right; now right].
    + intros [E | Hin]; [right; now left |].
      destruct (IH Hin) as [H | H]; [now left | right; now right].
Qed.

Lemma Map_values_In v m : In v (Map_values m) <-> exists k, In (k, v) m.
Proof.
  unfold Map_values. rewrite in_map_iff. split.
  - intros ([k w] & E & Hin). simpl in E. subst w. now exists k.
  - intros (k & Hin). now exists (k, v).
Qed.

End MapFacts.

(** ** Array.prototype.sort with a descending numeric comparator *)

Section SortFacts.

Context {A : Type} (key : A -> Q).

Lemma sort_insert_perm (cmp : A -> A -> Q) (x : A) (l : list A) :
  Permutation (sort_insert cmp x l) (x :: l).
Proof.
  induction l as [| y rest IH]; simpl; [reflexivity |].
  destruct (Qlt_le_dec 0 (cmp x y)); [| reflexivity].
  rewrite IH. apply perm_swap.
Qed.

Lemma Array_sort_perm (cmp : A -> A -> Q) (l : list A) :
  Permutation (Array_sort cmp l) l.
Proof.
  induction l as [| x rest IH]; simpl; [reflexivity |].
  rewrite sort_insert_perm. now constructor.
Qed.



End SortFacts.

(** ** The drawn flow list is ordered and bounded *)

Lemma aggregateFlows_perm (flows : list (Flow JsValue)) :
  Permutation (aggregateFlows flows) (Map_values (fold_left accumulate flows [])).
Proof. apply Array_sort_perm. Qed.


(** ** Sliding history windows *)

Section SliceFacts.

Context {A : Type}.

Implicit Types (l : list A) (x : A) (n : nat).

Lemma slice_last_length n l : length (slice_last n l) = Nat.min n (length l).
Proof. unfold slice_last. rewrite length_skipn. lia. Qed.

Lemma slice_last_short n l : (length l <= n)%nat -> slice_last n l = l.
Proof.
  intros H. unfold slice_last.
  replace (length l - n)%nat with 0%nat by lia. reflexivity.
Qed.

Lemma slice_last_full n l x :
  length l = n -> (0 < n)%nat -> slice_last n (l ++ [x]) = (tl l ++ [x])%list.
Proof.
  intros Hlen Hpos. unfold slice_last. rewrite length_app. simpl.
  replace (length l + 1 - n)%nat with 1%nat by lia.
  destruct l as [| y rest]; [simpl in Hlen; lia | reflexivity].
Qed.

Lemma slice_last_app n l x :
  slice_last n (slice_last n l ++ [x]) = slice_last n (l ++ [x]).
Proof.
  destruct (Nat.le_gt_cases (length l) n) as [Hle | Hgt].
  - now rewrite (slice_last_short n l Hle).
  - unfold slice_last at 1 3. rewrite !length_app, slice_last_length. simpl.
    replace (Nat.min n (length l) + 1 - n)%nat with 1%nat by lia.
    replace (length l + 1 - n)%nat with (1 + (length l - n))%nat by lia.
    rewrite <- skipn_skipn. f_equal.
    unfold slice_last. rewrite skipn_app.
    replace (length l - n - length l)%nat with 0%nat by lia. reflexivity.
Qed.

End SliceFacts.

Lemma run_snoc (messages : list (Z * Snapshot)) (nowMs : Z) (data : Snapshot)
  (s : AppState) :
  run (messages ++ [(nowMs, data)]) s = onmessage nowMs data (run messages s).
Proof. unfold run. now rewrite fold_left_app. Qed.

Lemma run_histories (messages : list (Z * Snapshot)) (mountedAt : Z) :
  cpuHistory (run messages (initialState mountedAt)) =
    slice_last MAX_POINTS (List.map (fun m => cpuPoint (snd m)) messages) /\
  netHistory (run messages (initialState mountedAt)) =
    slice_last MAX_POINTS (List.map (fun m => netPoint (snd m)) messages).
Proof.
  induction messages as [| [nowMs data] rest IH] using rev_ind.
  - split; reflexivity.
  - rewrite run_snoc. destruct IH as [IHc IHn]. rewrite !map_app. simpl.
    unfold onmessage. simpl.
    rewrite IHc, IHn. split; apply slice_last_app.
Qed.

(** C8. After any sequence of messages each history holds at most 60
    points, namely the last 60 received, in order of arrival; a further
    message appends its one point, and drops the oldest point when the
    history is full. *)
Theorem histories_sliding_window (mountedAt : Z)
  (messages : list (Z * Snapshot)) (nowMs : Z) (data : Snapshot) :
  let s := run messages (initialState mountedAt) in
  let s' := onmessage nowMs data s in
  ((length (cpuHistory s) <= 60)%nat /\ (length (netHistory s) <= 60)%nat) /\
  (cpuHistory s =
     slice_last 60 (List.map (fun m => cpuPoint (snd m)) messages) /\
   netHistory s =
     slice_last 60 (List.map (fun m => netPoint (snd m)) messages)) /\
  ((length (cpuHistory s) < 60)%nat ->
     cpuHistory s' = (cpuHistory s ++ [cpuPoint data])%list) /\
  (length (cpuHistory s) = 60%nat ->
     cpuHistory s' = (tl (cpuHistory s) ++ [cpuPoint data])%list) /\
  ((length (netHistory s) < 60)%nat ->
     netHistory s' = (netHistory s ++ [netPoint data])%list) /\
  (length (netHistory s) = 60%nat ->
     netHistory s' = (tl (netHistory s) ++ [netPoint data])%list).
Proof.
  intros s s'.
  destruct (run_histories messages mountedAt) as [Hc Hn].
  fold s in Hc, Hn. change MAX_POINTS with 60%nat in Hc, Hn.
  split; [| split; [exact (conj Hc Hn) |]].
  - rewrite Hc, Hn, !slice_last_length. lia.
  - subst s'. unfold onmessage. simpl.
    change MAX_POINTS with 60%nat. repeat split; intros H.
    + apply slice_last_short. rewrite length_app. simpl. lia.
    + apply slice_last_full; [exact H | lia].
    + apply slice_last_short. rewrite length_app. simpl. lia.
    + apply slice_last_full; [exact H | lia].
Qed.

(** ** Flow aggregation: what is stored under one key *)

Lemma accumulate_skip (map : JsMap (Flow Q)) (flow : Flow JsValue) :
  located flow = false -> accumulate map flow = map.
Proof.
  unfold located, accumulate. intros H.
  destruct (Number_isFinite (lat flow)), (Number_isFinite (lon flow));
    try discriminate H; reflexivity.
Qed.

Lemma accumulate_set (map : JsMap (Flow Q)) (flow : Flow JsValue) :
  located flow = true ->
  accumulate map flow =
    Map_set (flowKey flow)
      (bump (match Map_get (flowKey flow) map with
             | Some c => c
             | None => fresh flow
             end) flow) map.
Proof.
  unfold located, accumulate. intros H.
  destruct (Number_isFinite (lat flow)), (Number_isFinite (lon flow));
    try discriminate H. simpl.
  destruct (Map_get (flowKey flow) map); reflexivity.
Qed.

Lemma accumulate_get (k : string) (map : JsMap (Flow Q)) (flow : Flow JsValue) :
  Map_get k (accumulate map flow) = step_key k (Map_get k map) flow.
Proof.
  unfold step_key. destruct (located flow) eqn:L; simpl.
  - rewrite accumulate_set by exact L.
    destruct (String.eqb_spec (flowKey flow) k) as [<- | Hne].
    + apply Map_get_set_eq.
    + now apply Map_get_set_ne.
  - now rewrite accumulate_skip.
Qed.

Lemma fold_accumulate_get (k : string) (flows : list (Flow JsValue))
  (map : JsMap (Flow Q)) :
  Map_get k (fold_left accumulate flows map) =
    fold_left (step_key k) flows (Map_get k map).
Proof.
  revert map. induction flows as [| flow rest IH]; intros map; simpl.
  - reflexivity.
  - now rewrite IH, accumulate_get.
Qed.

Lemma fold_step_key_some (k : string) (flows : list (Flow JsValue)) (c : Flow Q) :
  exists c',
    fold_left (step_key k) flows (Some c) = Some c' /\
    direction c' = direction c /\ ip c' = ip c /\
    (mb_s c' ==
       mb_s c + Qsum (List.map (fun f => finite_or (mb_s f) 0) (feeding k flows)))%Q /\
    (bytes c' ==
       bytes c + Qsum (List.map (fun f => finite_or (bytes f) 0) (feeding k flows)))%Q.
Proof.
  revert c. induction flows as [| flow rest IH]; intros c; simpl.
  - exists c. repeat split; try reflexivity; unfold Qsum, feeding; simpl; ring.
  - unfold step_key at 2, feeding. simpl.
    destruct (located flow && String.eqb (flowKey flow) k).
    + destruct (IH (bump c flow)) as (c' & Hfold & Hd & Hi & Hm & Hb).
      exists c'. repeat split; try assumption.
      * rewrite Hm. unfold Qsum, feeding. simpl. ring.
      * rewrite Hb. unfold Qsum, feeding. simpl. ring.
    + apply IH.
Qed.

Lemma fold_step_key_none (k : string) (flows : list (Flow JsValue)) :
  match feeding k flows with
  | [] => fold_left (step_key k) flows None = None
  | first :: _ =>
      exists c',
        fold_left (step_key k) flows None = Some c' /\
        direction c' = direction first /\ ip c' = ip first /\
        (mb_s c' ==
           Qsum (List.map (fun f => finite_or (mb_s f) 0) (feeding k flows)))%Q /\
        (bytes c' ==
           Qsum (List.map (fun f => finite_or (bytes f) 0) (feeding k flows)))%Q
  end.
Proof.
  induction flows as [| flow rest IH]; simpl; [reflexivity |].
  unfold step_key at 2 4, feeding. simpl.
  destruct (located flow && String.eqb (flowKey flow) k).
  - destruct (fold_step_key_some k rest (bump (fresh flow) flow))
      as (c' & Hfold & Hd & Hi & Hm & Hb).
    exists c'. repeat split; try assumption.
    + rewrite Hm. unfold Qsum, feeding. simpl. ring.
    + rewrite Hb. unfold Qsum, feeding. simpl. ring.
  - exact IH.
Qed.

(** ** Flow aggregation: the shape of the map *)

Lemma accumulate_keyed (map : JsMap (Flow Q)) (flow : Flow JsValue) :
  keyed map -> keyed (accumulate map flow).
Proof.
  intros [Hnd Hkey]. destruct (located flow) eqn:L.
  - rewrite accumulate_set by exact L. split.
    + now apply Map_set_NoDup.
    + intros k c Hin. apply Map_In_set in Hin as [[-> ->] | Hin].
      * destruct (Map_get (flowKey flow) map) as [found |] eqn:G.
        -- apply Map_get_In in G. exact (Hkey _ _ G).
        -- reflexivity.
      * exact (Hkey _ _ Hin).
  - rewrite accumulate_skip by exact L. now split.
Qed.

Lemma accumulate_drawn_from (flows : list (Flow JsValue)) (map : JsMap (Flow Q))
  (flow : Flow JsValue) :
  drawn_from flows map -> drawn_from (flows ++ [flow]) (accumulate map flow).
Proof.
  intros Hd k c Hin.
  assert (Hold : forall k c, In (k, c) map ->
            exists f, In f (flows ++ [flow]) /\ located f = true /\
                      direction c = direction f /\ ip c = ip f).
  { intros k' c' H. destruct (Hd _ _ H) as (f & Hf & Hrest).
    exists f. split; [apply in_or_app; now left | exact Hrest]. }
  destruct (located flow) eqn:L.
  - rewrite accumulate_set in Hin by exact L.
    apply Map_In_set in Hin as [[-> ->] | Hin]; [| exact (Hold _ _ Hin)].
    destruct (Map_get (flowKey flow) map) as [found |] eqn:G.
    + apply Map_get_In in G. exact (Hold _ _ G).
    + exists flow. split; [apply in_or_app; right; now left |].
      repeat split. exact L.
  - rewrite accumulate_skip in Hin by exact L. exact (Hold _ _ Hin).
Qed.

Lemma fold_accumulate_shape (flows : list (Flow JsValue)) :
  keyed (fold_left accumulate flows []) /\
  drawn_from flows (fold_left accumulate flows []).
Proof.
  induction flows as [| flow rest [IHk IHd]] using rev_ind.
  - split; [split; [constructor | intros k c []] | intros k c []].
  - rewrite fold_left_app. simpl. split.
    + now apply accumulate_keyed.
    + now apply accumulate_drawn_from.
Qed.

Lemma keyed_filter (k : string) (map : JsMap (Flow Q)) :
  keyed map ->
  List.filter (fun c => String.eqb (flowKey c) k) (Map_values map) =
    match Map_get k map with
    | Some c => [c]
    | None => []
    end.
Proof.
  induction map as [| [k0 c0] rest IH]; intros [Hnd Hkey]; simpl; [reflexivity |].
  apply NoDup_cons_iff in Hnd as [Hnotin Hnd].
  change (~ In k0 (Map_keys rest)) in Hnotin.
  assert (Hrest : keyed rest).
  { split; [exact Hnd | intros k' c' H; apply Hkey; now right]. }
  rewrite (Hkey k0 c0) by now left.
  rewrite (String.eqb_sym k0 k).
  destruct (String.eqb_spec k k0) as [-> | Hne].
  - rewrite (IH Hrest).
    apply Map_get_None in Hnotin. now rewrite Hnotin.
  - exact (IH Hrest).
Qed.

(** ** Flow identity: the key of a pair (direction, ip) *)

Lemma flowKey_injective (d1 i1 d2 i2 : string) :
  is_direction d1 -> is_direction d2 ->
  d1 +:+ "-" +:+ i1 = d2 +:+ "-" +:+ i2 -> d1 = d2 /\ i1 = i2.
Proof.
  intros [-> | ->] [-> | ->] H; cbv [String.append] in H;
    try discriminate H; split; congruence.
Qed.

Lemma has_identity_flowKey {N : Type} (d i : string) (flow : Flow N) :
  is_direction d -> is_direction (direction flow) ->
  has_identity d i flow = String.eqb (flowKey flow) (d +:+ "-" +:+ i).
Proof.
  intros Hd Hf. unfold has_identity.
  destruct (String.eqb_spec (flowKey flow) (d +:+ "-" +:+ i)) as [E | Hne].
  - destruct (flowKey_injective _ _ _ _ Hf Hd E) as [-> ->].
    now rewrite !String.eqb_refl.
  - destruct (String.eqb_spec (direction flow) d) as [Ed | Hd']; [| reflexivity].
    destruct (String.eqb_spec (ip flow) i) as [Ei | Hi']; [| reflexivity].
    exfalso. apply Hne. unfold flowKey. now rewrite Ed, Ei.
Qed.

Lemma Permutation_filter {A : Type} (keep : A -> bool) (l l' : list A) :
  Permutation l l' -> Permutation (List.filter keep l) (List.filter keep l').
Proof.
  induction 1 as [| x l l' _ IH | x y l | l l' l'' _ IH1 _ IH2]; simpl.
  - constructor.
  - destruct (keep x); [now constructor | exact IH].
  - destruct (keep x), (keep y); try reflexivity. apply perm_swap.
  - now transitivity (List.filter keep l').
Qed.

(** ** Flow aggregation: the entry of one identity *)

Lemma aggregateFlows_slot (flows : list (Flow JsValue)) (d i : string) :
  is_direction d ->
  Forall (fun f => is_direction (direction f)) flows ->
  List.filter (has_identity d i) (aggregateFlows flows) =
    match Map_get (d +:+ "-" +:+ i) (fold_left accumulate flows []) with
    | Some c => [c]
    | None => []
    end.
Proof.
  intros Hd Hall.
  destruct (fold_accumulate_shape flows) as [Hkeyed Hdrawn].
  assert (Hperm := Permutation_filter (has_identity d i) _ _ (aggregateFlows_perm flows)).
  rewrite (filter_ext_in (has_identity d i)
             (fun c => String.eqb (flowKey c) (d +:+ "-" +:+ i))
             (Map_values (fold_left accumulate flows []))) in Hperm.
  - rewrite (keyed_filter _ _ Hkeyed) in Hperm.
    destruct (Map_get (d +:+ "-" +:+ i) (fold_left accumulate flows [])).
    + apply Permutation_length_1_inv. now symmetry.
    + apply Permutation_nil. now symmetry.
  - intros c Hc. apply Map_values_In in Hc as [k Hc].
    destruct (Hdrawn _ _ Hc) as (f & Hf & _ & Hdir & _).
    apply has_identity_flowKey; [exact Hd |].
    rewrite Hdir. rewrite Forall_forall in Hall. now apply Hall.
Qed.

(** ** The flow cache: what is stored under one key *)

Lemma mergeFlow_get (nowMs : Z) (k : string) (next : JsMap (Cached JsValue))
  (flow : Flow JsValue) :
  Map_get k (mergeFlow nowMs next flow) = merge_step nowMs k (Map_get k next) flow.
Proof.
  unfold mergeFlow, merge_step.
  destruct (String.eqb_spec (cacheKey flow) k) as [<- | Hne].
  - apply Map_get_set_eq.
  - now apply Map_get_set_ne.
Qed.

Lemma fold_mergeFlow_get (nowMs : Z) (k : string) (flows : list (Flow JsValue))
  (next : JsMap (Cached JsValue)) :
  Map_get k (fold_left (mergeFlow nowMs) flows next) =
    fold_left (merge_step nowMs k) flows (Map_get k next).
Proof.
  revert next. induction flows as [| flow rest IH]; intros next; simpl.
  - reflexivity.
  - now rewrite IH, mergeFlow_get.
Qed.

Lemma fold_mergeFlow_NoDup (nowMs : Z) (flows : list (Flow JsValue))
  (next : JsMap (Cached JsValue)) :
  NoDup (Map_keys next) -> NoDup (Map_keys (fold_left (mergeFlow nowMs) flows next)).
Proof.
  revert next. induction flows as [| flow rest IH]; intros next Hnd; simpl.
  - exact Hnd.
  - apply IH. unfold mergeFlow. now apply Map_set_NoDup.
Qed.

Lemma merge_identity (existing : option (Cached JsValue)) (flow : Flow JsValue) :
  direction (merge existing flow) = direction flow /\
  ip (merge existing flow) = ip flow.
Proof. destruct existing; split; reflexivity. Qed.

(** A flow of the message leaves an entry under its key, stamped with the
    arrival time and carrying the identity of a flow with that key. *)
Lemma fold_merge_step_present (nowMs : Z) (flows : list (Flow JsValue))
  (f : Flow JsValue) (slot : option (Cached JsValue)) :
  In f flows ->
  exists c g,
    fold_left (merge_step nowMs (cacheKey f)) flows slot = Some c /\
    lastSeen c = nowMs /\ In g flows /\ cacheKey g = cacheKey f /\
    direction (entry c) = direction g /\ ip (entry c) = ip g.
Proof.
  induction flows as [| x rest IH] using rev_ind; [intros [] |].
  intros Hin. rewrite fold_left_app. simpl. unfold merge_step at 1.
  destruct (String.eqb_spec (cacheKey x) (cacheKey f)) as [E | Hne].
  - destruct (merge_identity (fold_left (merge_step nowMs (cacheKey f)) rest slot) x)
      as [Hd Hi].
    exists (mkCached
              (merge (fold_left (merge_step nowMs (cacheKey f)) rest slot) x) nowMs), x.
    split; [reflexivity |]. split; [reflexivity |].
    split; [apply in_or_app; right; now left |].
    split; [exact E |]. split; [exact Hd | exact Hi].
  - apply in_app_or in Hin as [Hin | [-> | []]]; [| congruence].
    destruct (IH Hin) as (c & g & Hfold & Hseen & Hg & Hkey & Hd & Hi).
    exists c, g. split; [exact Hfold |]. split; [exact Hseen |].
    split; [apply in_or_app; now left |].
    split; [exact Hkey |]. split; [exact Hd | exact Hi].
Qed.

Lemma Map_get_filter {V : Type} (keep : string * V -> bool) (k : string) (v : V)
  (m : JsMap V) :
  Map_get k m = Some v -> keep (k, v) = true ->
  Map_get k (List.filter keep m) = Some v.
Proof.
  induction m as [| [k0 v0] rest IH]; simpl; [discriminate |].
  destruct (String.eqb_spec k k0) as [-> | Hne].
  - intros [= ->] Hkeep. rewrite Hkeep. simpl. now rewrite String.eqb_refl.
  - intros Hget Hkeep. destruct (keep (k0, v0)); simpl.
    + destruct (String.eqb_spec k k0); [congruence | now apply IH].
    + now apply IH.
Qed.

Lemma Map_get_filter_inv {V : Type} (keep : string * V -> bool) (k : string)
  (v : V) (m : JsMap V) :
  NoDup (Map_keys m) -> Map_get k (List.filter keep m) = Some v ->
  Map_get k m = Some v.
Proof.
  intros Hnd Hget. apply Map_get_In in Hget. apply filter_In in Hget as [Hin _].
  now apply In_Map_get.
Qed.

Lemma prune_keeps_fresh (nowMs : Z) (k : string) (c : Cached JsValue)
  (next : JsMap (Cached JsValue)) :
  Map_get k next = Some c -> lastSeen c = nowMs ->
  Map_get k (prune nowMs next) = Some c.
Proof.
  intros Hget Hseen. unfold prune. apply Map_get_filter; [exact Hget |].
  simpl. rewrite Hseen. unfold or_time, MAP_LINGER_MS.
  apply negb_true_iff. rewrite Z.gtb_ltb. apply Z.ltb_ge.
  destruct (Z.eqb_spec nowMs 0); lia.
Qed.

(** ** Flow identity *)

Lemma or_string_direction (d : string) :
  is_direction d -> or_string d "unknown" = d.
Proof. intros [-> | ->]; reflexivity. Qed.

Lemma flowKey_iff {N M : Type} (f : Flow N) (g : Flow M) :
  is_direction (direction f) -> is_direction (direction g) ->
  flowKey f = flowKey g <-> direction f = direction g /\ ip f = ip g.
Proof.
  intros Hf Hg. unfold flowKey. split.
  - now apply flowKey_injective.
  - now intros [-> ->].
Qed.

Lemma cacheKey_iff (f g : Flow JsValue) :
  is_direction (direction f) -> is_direction (direction g) ->
  cacheKey f = cacheKey g <->
    direction f = direction g /\
    or_string (ip f) "unknown" = or_string (ip g) "unknown".
Proof.
  intros Hf Hg. unfold cacheKey.
  rewrite (or_string_direction _ Hf), (or_string_direction _ Hg). split.
  - now apply flowKey_injective.
  - now intros [-> ->].
Qed.

Lemma aggregateFlows_identities_NoDup (flows : list (Flow JsValue)) :
  NoDup (List.map (fun a => (direction a, ip a)) (aggregateFlows flows)).
Proof.
  destruct (fold_accumulate_shape flows) as [[Hnd Hkey] _].
  apply (Permutation_NoDup
           (l := List.map (fun a : Flow Q => (direction a, ip a))
                   (Map_values (fold_left accumulate flows [])))).
  - apply Permutation_map. symmetry. apply aggregateFlows_perm.
  - apply (NoDup_map_inv (fun p : string * string => fst p +:+ "-" +:+ snd p)).
    rewrite map_map. unfold Map_values. rewrite map_map.
    erewrite map_ext_in; [exact Hnd |].
    intros [k c] Hin. simpl. exact (Hkey _ _ Hin).
Qed.

Lemma aggregateFlows_admits (flows : list (Flow JsValue)) (d i : string) :
  Forall (fun f => is_direction (direction f)) flows ->
  (exists f, In f flows /\ located f = true /\ has_identity d i f = true) <->
  (exists a, In a (aggregateFlows flows) /\ has_identity d i a = true).
Proof.
  intros Hdirs. split.
  - intros (f & Hin & Hloc & Hid).
    assert (Hid' := Hid). unfold has_identity in Hid'.
    apply andb_prop in Hid' as [Ed Ei].
    apply String.eqb_eq in Ed. apply String.eqb_eq in Ei.
    assert (Hd : is_direction d).
    { rewrite <- Ed. rewrite Forall_forall in Hdirs. now apply Hdirs. }
    pose proof (aggregateFlows_slot flows d i Hd Hdirs) as Hslot.
    rewrite fold_accumulate_get in Hslot. simpl in Hslot.
    pose proof (fold_step_key_none (d +:+ "-" +:+ i) flows) as Hfold.
    destruct (feeding (d +:+ "-" +:+ i) flows) as [| first rest] eqn:Hfeed.
    + exfalso. assert (Hf : In f (feeding (d +:+ "-" +:+ i) flows)).
      { unfold feeding. apply filter_In. split; [exact Hin |].
        rewrite Hloc. unfold flowKey. rewrite Ed, Ei. simpl.
        apply String.eqb_refl. }
      now rewrite Hfeed in Hf.
    + destruct Hfold as (c & Hc & _). rewrite Hc in Hslot.
      assert (Hin' : In c (List.filter (has_identity d i) (aggregateFlows flows))).
      { rewrite Hslot. now left. }
      apply filter_In in Hin'. now exists c.
  - intros (a & Hin & Hid).
    destruct (fold_accumulate_shape flows) as [_ Hdrawn].
    apply (Permutation_in _ (aggregateFlows_perm flows)) in Hin.
    apply Map_values_In in Hin as [k Hin].
    destruct (Hdrawn _ _ Hin) as (f & Hf & Hloc & Hdir & Hip).
    exists f. repeat split; try assumption.
    unfold has_identity in *. now rewrite <- Hdir, <- Hip.
Qed.

Lemma updateFlowCache_present (nowMs : Z) (data : Snapshot)
  (prev : JsMap (Cached JsValue)) (f : Flow JsValue) :
  In f (flows_of data) ->
  exists c g,
    Map_get (cacheKey f) (updateFlowCache nowMs data prev) = Some c /\
    lastSeen c = nowMs /\ In g (flows_of data) /\ cacheKey g = cacheKey f /\
    direction (entry c) = direction g /\ ip (entry c) = ip g.
Proof.
  intros Hin. unfold updateFlowCache. fold (flows_of data).
  destruct (fold_merge_step_present nowMs (flows_of data) f
              (Map_get (cacheKey f) prev) Hin)
    as (c & g & Hfold & Hseen & Hrest).
  exists c, g. split; [| now split].
  apply prune_keeps_fresh; [| exact Hseen].
  now rewrite fold_mergeFlow_get.
Qed.

(** The claim C2 as worded fails on the map aggregation: the same remote
    IP is present outbound (resolved) and inbound (coordinates not yet
    resolved), and [aggregateFlows] returns a single entry, none of it
    inbound. *)
Lemma aggregateFlows_skips_unresolved_direction :
  direction sample_outbound = "outbound" /\
  direction sample_inbound_unresolved = "inbound" /\
  ip sample_outbound = ip sample_inbound_unresolved /\
  length (aggregateFlows [sample_outbound; sample_inbound_unresolved]) = 1%nat /\
  List.filter (has_identity "inbound" "203.0.113.5")
    (aggregateFlows [sample_outbound; sample_inbound_unresolved]) = [].
Proof. repeat split. Qed.

(** C2, amended. For flows whose direction is outbound or inbound, the
    key of a flow (in [aggregateFlows] and in the flow cache, where an
    empty ip reads as "unknown") determines and is determined by the pair
    (direction, ip).  [aggregateFlows] returns exactly one entry for each
    identity that occurs among its input flows with finite [lat] and [lon],
    and none for the others; after a message the flow cache holds an entry
    under the key of every flow of the message, with that flow's direction
    and ip. *)
Theorem flow_identity_direction_ip (flows : list (Flow JsValue))
  (data : Snapshot) (nowMs : Z) (prev : JsMap (Cached JsValue)) :
  Forall (fun f => is_direction (direction f)) flows ->
  Forall (fun f => is_direction (direction f)) (flows_of data) ->
  (forall f g : Flow JsValue,
     is_direction (direction f) -> is_direction (direction g) ->
     (flowKey f = flowKey g <-> direction f = direction g /\ ip f = ip g) /\
     (cacheKey f = cacheKey g <->
        direction f = direction g /\
        or_string (ip f) "unknown" = or_string (ip g) "unknown")) /\
  NoDup (List.map (fun a => (direction a, ip a)) (aggregateFlows flows)) /\
  (forall d i,
     (exists f, In f flows /\ located f = true /\ has_identity d i f = true) <->
     (exists a, In a (aggregateFlows flows) /\ has_identity d i a = true)) /\
  (forall f, In f (flows_of data) ->
     exists c,
       Map_get (cacheKey f) (updateFlowCache nowMs data prev) = Some c /\
       direction (entry c) = direction f /\
       or_string (ip (entry c)) "unknown" = or_string (ip f) "unknown").
Proof.
  intros Hflows Hdata. split; [| split; [| split]].
  - intros f g Hf Hg. split; [now apply flowKey_iff | now apply cacheKey_iff].
  - apply aggregateFlows_identities_NoDup.
  - intros d i. now apply aggregateFlows_admits.
  - intros f Hin.
    destruct (updateFlowCache_present nowMs data prev f Hin)
      as (c & g & Hget & _ & Hg & Hkey & Hdir & Hip).
    rewrite Forall_forall in Hdata.
    apply cacheKey_iff in Hkey as [Hd Hi]; [| now apply Hdata | now apply Hdata].
    exists c. split; [exact Hget |]. now rewrite Hdir, Hip.
Qed.

(** ** The flow cache: coordinates *)

Lemma repair_eq (old new : JsValue) :
  keep_finite (spread old new) old = if Number_isFinite new then new else old.
Proof.
  destruct new; simpl; try reflexivity.
  unfold keep_finite. now destruct (Number_isFinite old).
Qed.

Lemma merge_lat (found : Cached JsValue) (flow : Flow JsValue) :
  lat (merge (Some found) flow) =
    if Number_isFinite (lat flow) then lat flow else lat (entry found).
Proof. simpl. apply repair_eq. Qed.

Lemma merge_lon (found : Cached JsValue) (flow : Flow JsValue) :
  lon (merge (Some found) flow) =
    if Number_isFinite (lon flow) then lon flow else lon (entry found).
Proof. simpl. apply repair_eq. Qed.

Lemma merge_paired (existing : option (Cached JsValue)) (flow : Flow JsValue) :
  (forall found, existing = Some found -> paired (entry found)) ->
  paired flow -> paired (merge existing flow).
Proof.
  intros Hold Hflow. destruct existing as [found |]; [| exact Hflow].
  specialize (Hold found eq_refl). unfold paired in *.
  rewrite merge_lat, merge_lon. rewrite Hflow.
  destruct (Number_isFinite (lon flow)) eqn:E; [| exact Hold].
  now rewrite Hflow.
Qed.

Lemma mergeFlow_paired (nowMs : Z) (next : JsMap (Cached JsValue))
  (flow : Flow JsValue) :
  all_paired next -> paired flow -> all_paired (mergeFlow nowMs next flow).
Proof.
  intros Hnext Hflow k c Hin. unfold mergeFlow in Hin.
  apply Map_In_set in Hin as [[_ ->] | Hin]; [| exact (Hnext _ _ Hin)].
  simpl. apply merge_paired; [| exact Hflow].
  intros found Hget. apply Map_get_In in Hget. exact (Hnext _ _ Hget).
Qed.

Lemma updateFlowCache_paired (nowMs : Z) (data : Snapshot)
  (prev : JsMap (Cached JsValue)) :
  all_paired prev -> Forall paired (flows_of data) ->
  all_paired (updateFlowCache nowMs data prev).
Proof.
  intros Hprev Hflows. unfold updateFlowCache. fold (flows_of data).
  assert (Hfold : all_paired (fold_left (mergeFlow nowMs) (flows_of data) prev)).
  { revert prev Hprev. induction Hflows as [| flow rest Hflow _ IH];
      intros prev Hprev; simpl; [exact Hprev |].
    apply IH. now apply mergeFlow_paired. }
  intros k c Hin. unfold prune in Hin. apply filter_In in Hin as [Hin _].
  exact (Hfold _ _ Hin).
Qed.

Lemma run_paired (mountedAt : Z) (messages : list (Z * Snapshot)) :
  Forall (fun m => Forall paired (flows_of (snd m))) messages ->
  all_paired (flowCache (run messages (initialState mountedAt))).
Proof.
  induction messages as [| [nowMs data] rest IH] using rev_ind; intros Hall.
  - intros k c [].
  - apply Forall_app in Hall as [Hrest Hlast].
    rewrite run_snoc. simpl. apply updateFlowCache_paired; [now apply IH |].
    now inversion Hlast.
Qed.

Lemma run_NoDup (mountedAt : Z) (messages : list (Z * Snapshot)) :
  NoDup (Map_keys (flowCache (run messages (initialState mountedAt)))).
Proof.
  induction messages as [| [nowMs data] rest IH] using rev_ind.
  - constructor.
  - rewrite run_snoc. simpl. unfold updateFlowCache, prune.
    apply Map_filter_NoDup. now apply fold_mergeFlow_NoDup.
Qed.

Lemma fold_merge_step_retains (nowMs : Z) (k : string)
  (flows : list (Flow JsValue)) (e : Cached JsValue) :
  (forall f, In f flows -> cacheKey f = k ->
     Number_isFinite (lat f) = false /\ Number_isFinite (lon f) = false) ->
  exists e',
    fold_left (merge_step nowMs k) flows (Some e) = Some e' /\
    lat (entry e') = lat (entry e) /\ lon (entry e') = lon (entry e).
Proof.
  revert e. induction flows as [| flow rest IH]; intros e Hall; simpl.
  - now exists e.
  - unfold merge_step at 2.
    destruct (String.eqb_spec (cacheKey flow) k) as [E | Hne].
    + destruct (Hall flow (or_introl eq_refl) E) as [Hlat Hlon].
      destruct (IH (mkCached (merge (Some e) flow) nowMs)) as (e' & Hfold & Hla & Hlo).
      { intros f Hf. apply Hall. now right. }
      exists e'. split; [exact Hfold |].
      rewrite Hla, Hlo. cbn [entry]. rewrite merge_lat, merge_lon, Hlat, Hlon.
      now split.
    + apply IH. intros f Hf. apply Hall. now right.
Qed.

(** C4. Provided every incoming flow record has [lat] and [lon] both
    finite or both not, every entry of the flow cache still has them both
    finite or both not after any sequence of messages; and when the records
    that arrive for an already cached key have non-finite coordinates, the
    entry of that key keeps the [lat] and [lon] it had. *)
Theorem flowCache_pairs_and_retains (mountedAt : Z)
  (messages : list (Z * Snapshot)) (nowMs : Z) (data : Snapshot) :
  Forall (fun m => Forall paired (flows_of (snd m))) messages ->
  Forall paired (flows_of data) ->
  let s := run messages (initialState mountedAt) in
  let s' := onmessage nowMs data s in
  (forall k c, In (k, c) (flowCache s') -> paired (entry c)) /\
  (forall k e,
     Map_get k (flowCache s) = Some e ->
     (exists f, In f (flows_of data) /\ cacheKey f = k) ->
     (forall f, In f (flows_of data) -> cacheKey f = k ->
        Number_isFinite (lat f) = false /\ Number_isFinite (lon f) = false) ->
     exists e',
       Map_get k (flowCache s') = Some e' /\
       lat (entry e') = lat (entry e) /\ lon (entry e') = lon (entry e)).
Proof.
  intros Hmessages Hdata s s'. split.
  - subst s'. simpl. apply updateFlowCache_paired; [| exact Hdata].
    now apply run_paired.
  - intros k e Hget (f & Hf & Hk) Hnot. subst s'. simpl.
    destruct (updateFlowCache_present nowMs data (flowCache s) f Hf)
      as (c & _ & Hc & _).
    rewrite Hk in Hc. exists c. split; [exact Hc |].
    unfold updateFlowCache in Hc. fold (flows_of data) in Hc.
    apply Map_get_filter_inv in Hc.
    + rewrite fold_mergeFlow_get, Hget in Hc.
      destruct (fold_merge_step_retains nowMs k (flows_of data) e Hnot)
        as (e' & Hfold & Hla & Hlo).
      rewrite Hfold in Hc. injection Hc as <-. now split.
    + apply fold_mergeFlow_NoDup. apply run_NoDup.
Qed.

(** ** The flow cache: linger and fade *)


Lemma fadeFlow_fade (flowNow : Z) (c : Cached JsValue) :
  (0 <= fade (entry (fadeFlow flowNow c)) <= 1)%Q /\
  (mb_s (entry (fadeFlow flowNow c)) ==
     number (mb_s (entry c)) * fade (entry (fadeFlow flowNow c)))%Q /\
  (bytes (entry (fadeFlow flowNow c)) ==
     number (bytes (entry c)) * fade (entry (fadeFlow flowNow c)))%Q.
Proof.
  unfold fadeFlow, number. simpl. split; [| split; reflexivity].
  apply clamp_bounds. lra.
Qed.

Lemma mapFlows_In (cache : JsMap (Cached JsValue)) (flowNow : Z)
  (flow : Cached Q) :
  In flow (mapFlows cache flowNow) ->
  (0 < fade (entry flow))%Q /\
  exists k c, In (k, c) cache /\ flow = fadeFlow flowNow c.
Proof.
  unfold mapFlows. destruct cache as [| kv rest]; [intros [] |].
  intros Hin. apply filter_In in Hin as [Hin Hpos].
  destruct (Qlt_le_dec 0 (fade (entry flow))) as [Hlt | _]; [| discriminate].
  split; [exact Hlt |].
  apply in_map_iff in Hin as (c & <- & Hc).
  apply Map_values_In in Hc as [k Hc]. now exists k, c.
Qed.


(** ** Unavailable readings *)

Lemma expression_render (m : option Snapshot) (r : Reading) :
  r <> CpuAverage ->
  expression m r =
    render r (if defaulted r then nullish (field m r) (Num 0) else field m r).
Proof. destruct r; try reflexivity. congruence. Qed.

Lemma render_unavailable (r : Reading) (x : JsValue) :
  guarded_reading r = true -> Number_isFinite x = false ->
  render r x = Some "--".
Proof.
  intros Hg H. destruct x; try discriminate H; destruct r;
    try discriminate Hg; reflexivity.
Qed.

Lemma nullish_present (x d : JsValue) :
  x <> Undefined -> x <> Null -> nullish x d = x.
Proof. intros Hu Hn. destruct x; try reflexivity; contradiction. Qed.

Lemma called_toFixed (x : JsValue) (digits : nat) :
  called (toFixed_call x digits) = is_number x.
Proof. destruct x; reflexivity. Qed.

Lemma called_percentText (x : JsValue) (digits : nat) :
  called (percentText x digits) = is_number x.
Proof. destruct x; reflexivity. Qed.

Lemma numbers_all (values : list JsValue) :
  (exists loads, Binary64.numbers values = Some loads /\
                 length loads = length values) <->
  forallb is_number values = true.
Proof.
  induction values as [| v rest IH]; cbn [Binary64.numbers forallb].
  - split; [reflexivity | intros _; now exists []].
  - rewrite andb_true_iff, <- IH. split.
    + intros (loads & Hsome & Hlen).
      destruct v; cbn [Binary64.ofValue] in Hsome; try discriminate Hsome;
        (split; [reflexivity |]);
        (destruct (Binary64.numbers rest) as [tail |];
         [| discriminate Hsome]; exists tail; split; [reflexivity |];
         injection Hsome as <-; cbn [length] in Hlen; lia).
    + intros (Hv & tail & -> & Hlen).
      destruct v; try discriminate Hv; cbn [Binary64.ofValue];
        eexists; (split; [reflexivity |]); cbn [length]; lia.
Qed.

Lemma forallb_same {A : Type} (f g : A -> bool) (l : list A) :
  (forall x, f x = g x) -> forallb f l = forallb g l.
Proof.
  intros Hfg. induction l as [| x rest IH]; [reflexivity |].
  cbn [forallb]. now rewrite Hfg, IH.
Qed.

Lemma number_toValue (a : Binary64.Number) : is_number (Binary64.toValue a) = true.
Proof. destruct a; reflexivity. Qed.

(** The render goes through exactly when every value [toFixed] is called
    on without a test is a number. *)
Lemma renders_iff (m : option Snapshot) :
  renders m = true <->
  forallb is_number (perCore m) = true /\
  (perCore m = [] -> is_number (nullish (field m CpuAverage) (Num 0)) = true) /\
  is_number (nullish (field m MemoryPercent) (Num 0)) = true /\
  is_number (nullish (field m SwapPercent) (Num 0)) = true /\
  forallb (fun proc => is_number (cpu_percent proc)) (processRows m) = true.
Proof.
  unfold renders. rewrite !andb_true_iff.
  assert (Hcores :
            forallb
              (fun value =>
                 called (toFixed_call value 0) && called (toFixed_call value 1))
              (perCore m) = forallb is_number (perCore m)).
  { apply forallb_same. intros value. rewrite !called_toFixed.
    now destruct (is_number value). }
  assert (Hrows :
            forallb (fun proc => called (toFixed_call (cpu_percent proc) 1))
              (processRows m) =
            forallb (fun proc => is_number (cpu_percent proc)) (processRows m)).
  { apply forallb_same. intros proc. apply called_toFixed. }
  rewrite Hcores, Hrows.
  cbn [expression]. rewrite !called_percentText.
  change (memoryPercent m) with (nullish (field m MemoryPercent) (Num 0)).
  change (swapPercent m) with (nullish (field m SwapPercent) (Num 0)).
  assert (Haverage :
            forallb is_number (perCore m) = true ->
            (called match cpuAverage m with
                    | Some average => percentText average 1
                    | None => None
                    end = true <->
             (perCore m = [] ->
              is_number (nullish (field m CpuAverage) (Num 0)) = true))).
  { intros Hall. apply numbers_all in Hall as (loads & Hloads & Hlen).
    unfold cpuAverage. rewrite Hloads, called_percentText.
    destruct loads as [| load rest].
    - destruct (perCore m) as [| v vs]; [| discriminate Hlen].
      cbn [Binary64.cpuAverage]. split; [intros H _; exact H | intros H; now apply H].
    - split; [| intros _; apply number_toValue].
      intros _ Hnil. rewrite Hnil in Hlen. discriminate Hlen. }
  split.
  - intros ((((Ha & Hc) & Hm) & Hs) & Hp).
    split; [exact Hc |]. split; [now apply Haverage |].
    split; [exact Hm |]. split; [exact Hs | exact Hp].
  - intros (Hc & Ha & Hm & Hs & Hp).
    split; [| exact Hp]. split; [| exact Hs]. split; [| exact Hm].
    split; [now apply Haverage | exact Hc].
Qed.

(** C3. Every formatter, every [Number.isFinite]-guarded text and the
    gauge give the marker ("--", "Unavailable" for the gauge label) for a
    value that is not a finite number.  The render of [App] goes through
    exactly when every value it calls [toFixed] on without a test is a
    number: the per-core values, the CPU total when there are none, the
    memory pressure and the swap percentage when they are there, and the
    load of every process; otherwise nothing is shown, no marker either.
    When it goes through, a reading that [App] takes without a default
    (CPU temperature, latency, jitter, battery health, wattage) shows "--"
    when its field is absent or not finite, and a reading taken with
    [?? 0] and printed through a formatter or behind a test (memory, swap,
    disk and network rates, sustainability) shows "--" for a field that is
    present, not null and not finite. *)
Theorem unavailable_readings_marked (m : option Snapshot) (r : Reading) :
  (forall x, Number_isFinite x = false ->
     formatBytes x = "--" /\ formatRate x = "--" /\
     formatTemp x = "--" /\ formatCo2 x = "--" /\ formatMs x = "--" /\
     wattsText x = "--" /\ energyLabel x = "Unavailable" /\
     (guarded_reading r = true -> render r x = Some "--")) /\
  (renders m = true <->
   forallb is_number (perCore m) = true /\
   (perCore m = [] -> is_number (nullish (field m CpuAverage) (Num 0)) = true) /\
   is_number (nullish (field m MemoryPercent) (Num 0)) = true /\
   is_number (nullish (field m SwapPercent) (Num 0)) = true /\
   forallb (fun proc => is_number (cpu_percent proc)) (processRows m) = true) /\
  (renders m = false -> display m r = None) /\
  (renders m = true -> defaulted r = false ->
   Number_isFinite (field m r) = false -> display m r = Some "--") /\
  (renders m = true -> defaulted r = true -> guarded_reading r = true ->
   Number_isFinite (field m r) = false ->
   field m r <> Undefined -> field m r <> Null -> display m r = Some "--").
Proof.
  split; [| split; [| split; [| split]]].
  - intros x Hx.
    assert (Hrender : guarded_reading r = true -> render r x = Some "--").
    { intros Hg. now apply render_unavailable. }
    destruct x; try discriminate Hx; repeat split; exact Hrender.
  - apply renders_iff.
  - intros Hno. unfold display. now rewrite Hno.
  - intros Hyes Hd Hx. unfold display. rewrite Hyes.
    rewrite expression_render, Hd by (intros ->; discriminate Hd).
    apply render_unavailable; [now destruct r | exact Hx].
  - intros Hyes Hd Hg Hx Hu Hn. unfold display. rewrite Hyes.
    rewrite expression_render, Hd, nullish_present
      by (assumption || (intros ->; discriminate Hg)).
    now apply render_unavailable.
Qed.

(** What a reading taken with [?? 0] shows for an absent or null field
    when the render goes through: the number 0, formatted. *)
Lemma defaulted_reading_zero (m : option Snapshot) (r : Reading) :
  renders m = true -> r <> CpuAverage ->
  defaulted r = true -> field m r = Undefined \/ field m r = Null ->
  display m r = render r (Num 0).
Proof.
  intros Hyes Hr Hd [Hx | Hx]; unfold display;
    rewrite Hyes, expression_render, Hd, Hx by exact Hr; reflexivity.
Qed.

(** ** The capture summary *)

Lemma append_nil_r (s : string) : s +:+ "" = s.
Proof.
  induction s as [| a s IH]; [reflexivity |].
  change (String a (s +:+ "") = String a s). now rewrite IH.
Qed.

Lemma append_assoc (s t u : string) : (s +:+ t) +:+ u = s +:+ (t +:+ u).
Proof.
  induction s as [| a s IH]; [reflexivity |].
  change (String a ((s +:+ t) +:+ u) = String a (s +:+ (t +:+ u))).
  now rewrite IH.
Qed.

Lemma concat_cons (x : string) (l : list string) :
  String.concat "" (x :: l) = x +:+ String.concat "" l.
Proof. destruct l; [symmetry; apply append_nil_r | reflexivity]. Qed.

Lemma concat_app (l1 l2 : list string) :
  String.concat "" (l1 ++ l2) = String.concat "" l1 +:+ String.concat "" l2.
Proof.
  induction l1 as [| x rest IH]; [reflexivity |].
  change ((x :: rest) ++ l2)%list with (x :: (rest ++ l2))%list.
  now rewrite !concat_cons, IH, append_assoc.
Qed.

Lemma contains_children (l1 l2 l3 : list string) :
  contains (String.concat "" l2) (String.concat "" (l1 ++ l2 ++ l3)).
Proof.
  exists (String.concat "" l1), (String.concat "" l3).
  now rewrite !concat_app.
Qed.

Lemma captureSummary_error (status : CaptureStatus) :
  captureSummary (Some status) =
    captureSummary (Some (without_error status)) +:+ error_text status.
Proof.
  unfold captureSummary.
  set (front := firstn 23 (captureChildren status)).
  change (captureChildren status) with (front ++ [error_text status])%list.
  change (captureChildren (without_error status)) with (front ++ [""])%list.
  rewrite !concat_app. simpl String.concat. now rewrite append_nil_r.
Qed.

(** C7. When the capture status is present, the summary line contains the
    running flag (as "running" or "stopped"), the packet count, the
    local-matched count, the ignored count, the number of flow keys, the
    geolocation cache size and the in-flight count, each after its label;
    it ends with the capture error, after the label "Error:", exactly
    when that string is not empty. *)
Theorem captureSummary_complete (status : CaptureStatus) :
  contains ("Capture: " +:+ running_text status) (captureSummary (Some status)) /\
  contains (" · Packets: " +:+ numberToString (packet_count status))
    (captureSummary (Some status)) /\
  contains (" · Local: " +:+ numberToString (local_match_count status))
    (captureSummary (Some status)) /\
  contains (" · Ignored: " +:+ numberToString (ignored_count status))
    (captureSummary (Some status)) /\
  contains (" · Flows: " +:+ numberToString (flow_keys status))
    (captureSummary (Some status)) /\
  contains (" · Geo cache: " +:+ numberToString (geo_cached status))
    (captureSummary (Some status)) /\
  contains (" · Inflight: " +:+ numberToString (geo_inflight status))
    (captureSummary (Some status)) /\
  captureSummary (Some status) =
    captureSummary (Some (without_error status)) +:+
    (if String.eqb (sniffer_error status) "" then ""
     else " · Error: " +:+ sniffer_error status).
Proof.
  pose (children := captureChildren status).
  assert (Hsplit : forall n m : nat,
    contains (String.concat "" (firstn m (skipn n children)))
      (captureSummary (Some status))).
  { intros n m. unfold captureSummary. fold children.
    rewrite <- (firstn_skipn n children) at 2.
    rewrite <- (firstn_skipn m (skipn n children)) at 2.
    apply contains_children. }
  repeat split.
  - exact (Hsplit 0%nat 3%nat).
  - exact (Hsplit 3%nat 2%nat).
  - exact (Hsplit 5%nat 3%nat).
  - exact (Hsplit 8%nat 3%nat).
  - exact (Hsplit 11%nat 3%nat).
  - exact (Hsplit 14%nat 3%nat).
  - exact (Hsplit 17%nat 3%nat).
  - apply captureSummary_error.
Qed.

(** * Part II, continued. Further properties of the client *)

(** ** The formatters *)

Lemma spaced_not_marker (s t : string) : s +:+ " " +:+ t <> "--".
Proof.
  destruct s as [| a [| b [| c s']]]; cbv [String.append]; discriminate.
Qed.

(** X1. A formatter prints the marker "--" for the values that are not
    finite numbers and for no other: a finite reading is never shown as
    unavailable, whatever [toFixed] prints. *)
Theorem formatters_marker_iff (value : JsValue) :
  (formatBytes value = "--" <-> Number_isFinite value = false) /\
  (formatRate value = "--" <-> Number_isFinite value = false) /\
  (formatTemp value = "--" <-> Number_isFinite value = false) /\
  (formatCo2 value = "--" <-> Number_isFinite value = false) /\
  (formatMs value = "--" <-> Number_isFinite value = false).
Proof.
  destruct value; try (simpl; repeat split; reflexivity).
  unfold formatBytes, formatRate, formatTemp, formatCo2, formatMs, Number_isFinite.
  repeat split; try discriminate; intros H; exfalso; revert H.
  - destruct (scaleBytes (length units - 1) q 0) as [size unitIndex].
    apply spaced_not_marker.
  - apply spaced_not_marker.
  - apply spaced_not_marker.
  - destruct (Qle_bool 1000 q); apply spaced_not_marker.
  - apply spaced_not_marker.
Qed.

Lemma scaleBytes_last (fuel : nat) (size : Q) :
  scaleBytes fuel size 4 = (size, 4%nat).
Proof.
  destruct fuel; [reflexivity |].
  cbn [scaleBytes]. change (4 <? length units - 1)%nat with false.
  now rewrite andb_false_r.
Qed.

(** X2. [formatBytes] on a finite value prints [size] and a unit such
    that [size * 1024^unitIndex] is the value; the unit is bytes exactly
    for a value below 1024, [size] lies in [1, 1024) for KB, MB and GB, and
    TB is the last unit (there [size] may reach 1024 and more).  The
    scaling loop stops by itself: more iterations change nothing. *)
Theorem formatBytes_unit (q : Q) :
  exists size unitIndex,
    formatBytes (Num q) =
      toFixed size (if (unitIndex =? 0)%nat then 0 else 1)%nat
        +:+ " " +:+ nth unitIndex units "" /\
    (unitIndex <= 4)%nat /\
    (size * inject_Z (1024 ^ Z.of_nat unitIndex) == q)%Q /\
    (unitIndex = 0%nat <-> (q < 1024)%Q) /\
    ((unitIndex < 4)%nat -> (size < 1024)%Q) /\
    ((0 < unitIndex)%nat -> (1 <= size)%Q) /\
    (forall more, scaleBytes (length units - 1 + more) q 0 = (size, unitIndex)).
Proof.
  unfold formatBytes. change (length units - 1)%nat with 4%nat.
  assert (Hdiv : forall x : Q, Qle_bool 1024 x = true -> (1 <= x / 1024)%Q).
  { intros x Hx. apply Qle_bool_iff in Hx.
    apply Qle_shift_div_l; [reflexivity | lra]. }
  cbn [scaleBytes Nat.add].
  change (0 <? length units - 1)%nat with true.
  change (1 <? length units - 1)%nat with true.
  change (2 <? length units - 1)%nat with true.
  change (3 <? length units - 1)%nat with true.
  rewrite !andb_true_r.
  destruct (Qle_bool 1024 q) eqn:E0;
    [destruct (Qle_bool 1024 (q / 1024)) eqn:E1;
       [destruct (Qle_bool 1024 (q / 1024 / 1024)) eqn:E2;
          [destruct (Qle_bool 1024 (q / 1024 / 1024 / 1024)) eqn:E3 | ] | ] | ].
  - exists (q / 1024 / 1024 / 1024 / 1024)%Q, 4%nat.
    split; [reflexivity |]. split; [lia |].
    split; [assert (Hp : (inject_Z (1024 ^ Z.of_nat 4) == 1024 * 1024 * 1024 * 1024)%Q)
              by reflexivity; rewrite Hp; field |].
    apply Qle_bool_iff in E0.
    split; [split; [discriminate | intros H; lra] |].
    split; [lia |]. split; [intros _; now apply Hdiv |].
    intros more. apply scaleBytes_last.
  - exists (q / 1024 / 1024 / 1024)%Q, 3%nat.
    split; [reflexivity |]. split; [lia |].
    split; [assert (Hp : (inject_Z (1024 ^ Z.of_nat 3) == 1024 * 1024 * 1024)%Q)
              by reflexivity; rewrite Hp; field |].
    apply Qle_bool_iff in E0. apply Qle_bool_false in E3.
    split; [split; [discriminate | intros H; lra] |].
    split; [intros _; exact E3 |]. split; [intros _; now apply Hdiv |].
    intros more. destruct more; reflexivity.
  - exists (q / 1024 / 1024)%Q, 2%nat.
    split; [reflexivity |]. split; [lia |].
    split; [assert (Hp : (inject_Z (1024 ^ Z.of_nat 2) == 1024 * 1024)%Q)
              by reflexivity; rewrite Hp; field |].
    apply Qle_bool_iff in E0. apply Qle_bool_false in E2.
    split; [split; [discriminate | intros H; lra] |].
    split; [intros _; exact E2 |]. split; [intros _; now apply Hdiv |].
    intros more. destruct more; reflexivity.
  - exists (q / 1024)%Q, 1%nat.
    split; [reflexivity |]. split; [lia |].
    split; [assert (Hp : (inject_Z (1024 ^ Z.of_nat 1) == 1024)%Q)
              by reflexivity; rewrite Hp; field |].
    pose proof (Hdiv q E0) as Hone.
    apply Qle_bool_iff in E0. apply Qle_bool_false in E1.
    split; [split; [discriminate | intros H; lra] |].
    split; [intros _; exact E1 |]. split; [intros _; exact Hone |].
    intros more. destruct more; reflexivity.
  - exists q, 0%nat.
    split; [reflexivity |]. split; [lia |].
    split; [assert (Hp : (inject_Z (1024 ^ Z.of_nat 0) == 1)%Q)
              by reflexivity; rewrite Hp; ring |].
    apply Qle_bool_false in E0.
    split; [split; [intros _; exact E0 | reflexivity] |].
    split; [intros _; exact E0 |]. split; [lia |].
    intros more. destruct more; reflexivity.
Qed.

(** ** clamp and the scales built on it *)

Lemma clamp_cases (v lo hi : Q) :
  ((lo <= hi)%Q /\
   (((v <= lo)%Q /\ (clamp v lo hi == lo)%Q) \/
    ((lo <= v)%Q /\ (v <= hi)%Q /\ (clamp v lo hi == v)%Q) \/
    ((hi <= v)%Q /\ (clamp v lo hi == hi)%Q))) \/
  ((hi < lo)%Q /\ (clamp v lo hi == hi)%Q).
Proof.
  destruct (Qlt_le_dec hi lo) as [Hlt | Hle].
  - right. split; [exact Hlt |]. unfold clamp. apply Q.min_l.
    apply Qle_trans with lo; [apply Qlt_le_weak; exact Hlt | apply Q.le_max_l].
  - left. split; [exact Hle |].
    destruct (Qlt_le_dec v lo) as [Hv | Hv].
    + left. split; [apply Qlt_le_weak; exact Hv |].
      apply clamp_below; [apply Qlt_le_weak; exact Hv | exact Hle].
    + destruct (Qlt_le_dec hi v) as [Hw | Hw].
      * right. right. split; [apply Qlt_le_weak; exact Hw |].
        apply clamp_above; [apply Qlt_le_weak; exact Hw | exact Hle].
      * right. left. split; [exact Hv |]. split; [exact Hw |].
        now apply clamp_inside.
Qed.

(** X3. [clamp] never exceeds [max], also when [min] is above [max] (the
    result is then [max]); with [min <= max] it is at least [min]; it is
    monotone in the value and applying it twice changes nothing. *)
Theorem clamp_laws (v w lo hi : Q) :
  (clamp v lo hi <= hi)%Q /\
  ((lo <= hi)%Q -> (lo <= clamp v lo hi)%Q) /\
  ((hi < lo)%Q -> (clamp v lo hi == hi)%Q) /\
  ((v <= w)%Q -> (clamp v lo hi <= clamp w lo hi)%Q) /\
  (clamp (clamp v lo hi) lo hi == clamp v lo hi)%Q.
Proof.
  pose proof (clamp_cases v lo hi) as Hv.
  pose proof (clamp_cases w lo hi) as Hw.
  pose proof (clamp_cases (clamp v lo hi) lo hi) as Hvv.
  repeat split; intros; lra.
Qed.

(** X4. The heat colour of a core: the hue runs from 190 (idle) down to 30
    (fully loaded), never outside, falls as the load rises, and is
    [190 - 1.6 * load] for a load within 0..100. *)
Theorem heatHue_scale (value other : Q) :
  (30 <= heatHue value <= 190)%Q /\
  ((value <= other)%Q -> (heatHue other <= heatHue value)%Q) /\
  ((value <= 0)%Q -> (heatHue value == 190)%Q) /\
  ((100 <= value)%Q -> (heatHue value == 30)%Q) /\
  ((0 <= value)%Q -> (value <= 100)%Q ->
     (heatHue value == 190 - (16 # 10) * value)%Q).
Proof.
  unfold heatHue.
  pose proof (clamp_cases value 0 100) as Hv.
  pose proof (clamp_cases other 0 100) as Hw.
  repeat split; intros; lra.
Qed.

(** X5. The glow of the digital twin: the hue runs from 210 at 30 degrees
    or less down to 0 at 95 degrees or more, the emissive intensity from
    0.15 up to 1.25; a hotter reading never gives a higher hue or a lower
    intensity. *)
Theorem digitalTwin_glow_scale (temp other : Q) :
  (0 <= tempHue temp <= 210)%Q /\
  ((15 # 100) <= tempToIntensity temp <= (125 # 100))%Q /\
  ((temp <= other)%Q ->
     (tempHue other <= tempHue temp)%Q /\
     (tempToIntensity temp <= tempToIntensity other)%Q) /\
  ((temp <= 30)%Q ->
     (tempHue temp == 210)%Q /\ (tempToIntensity temp == 15 # 100)%Q) /\
  ((95 <= temp)%Q ->
     (tempHue temp == 0)%Q /\ (tempToIntensity temp == 125 # 100)%Q).
Proof.
  unfold tempHue, tempToIntensity.
  assert (Hdiv : forall x : Q, (x / 65 == x * (1 # 65))%Q).
  { intros x. unfold Qdiv. reflexivity. }
  rewrite !Hdiv.
  pose proof (clamp_cases temp 30 95) as Hv.
  pose proof (clamp_cases other 30 95) as Hw.
  repeat split; intros; lra.
Qed.

(** ** The energy gauge: colour *)

(** X6. The ring colour follows the label: red exactly for "High", amber
    exactly for "Moderate", green for "Low" and also for an unavailable
    wattage, whose ring is empty. *)
Theorem energyColor_label (wattage : JsValue) :
  (energyColor wattage = "#ef4444" <-> energyLabel wattage = "High") /\
  (energyColor wattage = "#f59e0b" <-> energyLabel wattage = "Moderate") /\
  (energyColor wattage = "#22c55e" <->
     energyLabel wattage = "Low" \/ energyLabel wattage = "Unavailable") /\
  (energyLabel wattage = "Unavailable" ->
     energyColor wattage = "#22c55e" /\ (percent wattage == 0)%Q).
Proof.
  assert (Hother : forall w,
    Number_isFinite w = false ->
    energyColor w = "#22c55e" /\ energyLabel w = "Unavailable" /\
    (percent w == 0)%Q).
  { intros w Hw. destruct w; try discriminate Hw; repeat split. }
  destruct (Number_isFinite wattage) eqn:F.
  - destruct wattage; try discriminate F.
    unfold energyColor, energyLabel, safeWattage, finite_or, Number_isFinite.
    destruct (Qle_bool q 6); [| destruct (Qle_bool q 15)].
    + split; [split; discriminate |]. split; [split; discriminate |].
      split; [split; [intros _; now left | reflexivity] | discriminate].
    + split; [split; discriminate |]. split; [split; reflexivity |].
      split; [split; [discriminate | intros [H | H]; discriminate H] | discriminate].
    + split; [split; reflexivity |]. split; [split; discriminate |].
      split; [split; [discriminate | intros [H | H]; discriminate H] | discriminate].
  - destruct (Hother wattage F) as (Hc & Hl & Hp). rewrite Hc, Hl.
    split; [split; discriminate |]. split; [split; discriminate |].
    split; [split; [intros _; now right | reflexivity] |].
    intros _. now split.
Qed.

(** ** Flow aggregation: what is skipped, how many entries, their shape *)

Lemma fold_accumulate_located (flows : list (Flow JsValue)) (map : JsMap (Flow Q)) :
  fold_left accumulate flows map =
    fold_left accumulate (List.filter located flows) map.
Proof.
  revert map. induction flows as [| flow rest IH]; intros map; simpl;
    [reflexivity |].
  destruct (located flow) eqn:L; simpl.
  - apply IH.
  - rewrite accumulate_skip by exact L. apply IH.
Qed.

Lemma fold_accumulate_keys (flows : list (Flow JsValue)) (k : string) :
  In k (Map_keys (fold_left accumulate flows [])) <->
  In k (List.map flowKey (List.filter located flows)).
Proof.
  destruct (fold_accumulate_shape flows) as [[Hnd Hkey] Hdrawn]. split.
  - intros Hin. unfold Map_keys in Hin.
    apply in_map_iff in Hin as ([k' c] & Hk & Hin). simpl in Hk. subst k'.
    destruct (Hdrawn _ _ Hin) as (f & Hf & Hloc & Hd & Hi).
    apply in_map_iff. exists f. split.
    + rewrite <- (Hkey _ _ Hin). unfold flowKey. now rewrite Hd, Hi.
    + apply filter_In. now split.
  - intros Hin. apply in_map_iff in Hin as (f & Hk & Hin).
    apply filter_In in Hin as [Hin Hloc].
    destruct (Map_get k (fold_left accumulate flows [])) as [c |] eqn:G.
    + apply Map_get_In in G. unfold Map_keys.
      change k with (fst (k, c)). now apply in_map.
    + exfalso. rewrite fold_accumulate_get in G. simpl in G.
      pose proof (fold_step_key_none k flows) as Hslot.
      destruct (feeding k flows) as [| first rest] eqn:Hfeed.
      * assert (Hf : In f (feeding k flows)).
        { unfold feeding. apply filter_In. split; [exact Hin |].
          rewrite Hloc, Hk. simpl. apply String.eqb_refl. }
        now rewrite Hfeed in Hf.
      * destruct Hslot as (c & Hc & _). congruence.
Qed.

(** X7. [aggregateFlows] takes no account of the flows whose [lat] or
    [lon] is not finite: dropping them from the input changes nothing, an
    input without located flows gives the empty list, and the number of
    entries returned is the number of distinct keys among the located
    flows. *)
Theorem aggregateFlows_located_only (flows : list (Flow JsValue)) :
  aggregateFlows flows = aggregateFlows (List.filter located flows) /\
  (List.filter located flows = [] -> aggregateFlows flows = []) /\
  length (aggregateFlows flows) =
    length (nodup String.string_dec
              (List.map flowKey (List.filter located flows))).
Proof.
  assert (Heq : aggregateFlows flows = aggregateFlows (List.filter located flows)).
  { unfold aggregateFlows. now rewrite fold_accumulate_located. }
  split; [exact Heq |]. split.
  - intros Hnone. now rewrite Heq, Hnone.
  - rewrite (Permutation_length (aggregateFlows_perm flows)).
    unfold Map_values. rewrite length_map.
    rewrite <- (length_map fst (fold_left accumulate flows [])).
    apply Permutation_length. apply NoDup_Permutation.
    + exact (proj1 (proj1 (fold_accumulate_shape flows))).
    + apply NoDup_nodup.
    + intros k. rewrite nodup_In. apply fold_accumulate_keys.
Qed.

Lemma or_zero_eq (x : Q) : (or_zero x == x)%Q.
Proof.
  unfold or_zero. destruct (Qeq_bool x 0) eqn:E; [| reflexivity].
  apply Qeq_bool_iff in E. now symmetry.
Qed.

Lemma maxFade_spec (init : Q) (fades : list Q) :
  (init <= maxFade init fades)%Q /\
  (forall x, In x fades -> (x <= maxFade init fades)%Q) /\
  ((maxFade init fades == init)%Q \/
   exists x, In x fades /\ (maxFade init fades == x)%Q).
Proof.
  revert init. induction fades as [| y rest IH]; intros init; simpl.
  - split; [apply Qle_refl |]. split; [intros x [] | left; reflexivity].
  - destruct (IH (Qmax (or_zero init) y)) as (Hge & Hall & Hone).
    pose proof (or_zero_eq init) as Hz.
    pose proof (Q.le_max_l (or_zero init) y) as Hl.
    pose proof (Q.le_max_r (or_zero init) y) as Hr.
    split; [lra |]. split.
    + intros x [<- | Hx]; [lra | now apply Hall].
    + destruct Hone as [Hone | (x & Hx & Hone)].
      * destruct (Q.max_spec (or_zero init) y) as [[_ Hm] | [_ Hm]].
        -- right. exists y. split; [now left | lra].
        -- left. lra.
      * right. exists x. split; [now right | exact Hone].
Qed.

Lemma fold_step_key_some_shape (k : string) (flows : list (Flow JsValue))
  (c : Flow Q) :
  exists c',
    fold_left (step_key k) flows (Some c) = Some c' /\
    lat c' = lat c /\ lon c' = lon c /\
    fade c' = maxFade (fade c) (List.map fadeOf (feeding k flows)).
Proof.
  revert c. induction flows as [| flow rest IH]; intros c; simpl.
  - now exists c.
  - unfold step_key at 2, feeding. simpl.
    destruct (located flow && String.eqb (flowKey flow) k); [| apply IH].
    destruct (IH (bump c flow)) as (c' & Hfold & Hla & Hlo & Hfade).
    exists c'. repeat split; assumption.
Qed.

Lemma fold_step_key_none_shape (k : string) (flows : list (Flow JsValue)) :
  match feeding k flows with
  | [] => fold_left (step_key k) flows None = None
  | first :: _ =>
      exists c',
        fold_left (step_key k) flows None = Some c' /\
        lat c' = lat first /\ lon c' = lon first /\
        fade c' = maxFade 0 (List.map fadeOf (feeding k flows))
  end.
Proof.
  induction flows as [| flow rest IH]; simpl; [reflexivity |].
  unfold step_key at 2 4, feeding. simpl.
  destruct (located flow && String.eqb (flowKey flow) k); [| exact IH].
  destruct (fold_step_key_some_shape k rest (bump (fresh flow) flow))
    as (c' & Hfold & Hla & Hlo & Hfade).
  exists c'. repeat split; assumption.
Qed.

(** What [aggregateFlows] returns for the key of one of its entries. *)
Lemma aggregateFlows_entry (flows : list (Flow JsValue)) (a : Flow Q) :
  In a (aggregateFlows flows) ->
  exists first rest,
    feeding (flowKey a) flows = first :: rest /\
    lat a = lat first /\ lon a = lon first /\
    fade a = maxFade 0 (List.map fadeOf (first :: rest)).
Proof.
  intros Hin.
  destruct (fold_accumulate_shape flows) as [[Hnd Hkey] _].
  apply (Permutation_in _ (aggregateFlows_perm flows)) in Hin.
  apply Map_values_In in Hin as [k Hin].
  pose proof (Hkey _ _ Hin) as Hk.
  apply (In_Map_get _ _ _ Hnd) in Hin.
  rewrite fold_accumulate_get in Hin. simpl in Hin.
  pose proof (fold_step_key_none_shape k flows) as Hslot. revert Hin Hslot.
  subst k. intros Hin Hslot.
  destruct (feeding (flowKey a) flows) as [| first rest] eqn:Hfeed.
  - rewrite Hslot in Hin. discriminate Hin.
  - destruct Hslot as (c & Hc & Hla & Hlo & Hfade).
    rewrite Hc in Hin. injection Hin as ->.
    exists first, rest. split; [reflexivity |].
    split; [exact Hla |]. split; [exact Hlo | exact Hfade].
Qed.

Lemma feeding_In (k : string) (flows : list (Flow JsValue)) (f : Flow JsValue) :
  In f (feeding k flows) <-> In f flows /\ located f = true /\ flowKey f = k.
Proof.
  unfold feeding. split.
  - intros H. apply filter_In in H as [Hin H].
    apply andb_prop in H as [Hloc Hkey]. apply String.eqb_eq in Hkey.
    split; [exact Hin |]. split; [exact Hloc | exact Hkey].
  - intros (Hin & Hloc & Hkey). apply filter_In. split; [exact Hin |].
    rewrite Hloc. apply String.eqb_eq in Hkey. now rewrite Hkey.
Qed.

(** X8. Every entry [aggregateFlows] returns carries the coordinates of
    the first located input flow with its key, so both are finite; its
    fade is never negative, is at least the fade of every flow merged into
    it (1 for a flow without a finite fade), and is 0 or the fade of one
    of them. *)
Theorem aggregateFlows_entry_shape (flows : list (Flow JsValue)) :
  Forall
    (fun a =>
       exists first rest,
         feeding (flowKey a) flows = first :: rest /\
         lat a = lat first /\ lon a = lon first /\
         Number_isFinite (lat a) = true /\ Number_isFinite (lon a) = true /\
         (0 <= fade a)%Q /\
         (forall f, In f (first :: rest) -> (fadeOf f <= fade a)%Q) /\
         ((fade a == 0)%Q \/
          exists f, In f (first :: rest) /\ (fade a == fadeOf f)%Q))
    (aggregateFlows flows).
Proof.
  apply Forall_forall. intros a Hin.
  destruct (aggregateFlows_entry flows a Hin)
    as (first & rest & Hfeed & Hla & Hlo & Hfade).
  exists first, rest.
  assert (Hfirst : located first = true).
  { assert (H : In first (feeding (flowKey a) flows)).
    { rewrite Hfeed. now left. }
    apply feeding_In in H. tauto. }
  unfold located in Hfirst. apply andb_prop in Hfirst as [Hf1 Hf2].
  destruct (maxFade_spec 0 (List.map fadeOf (first :: rest)))
    as (Hge & Hall & Hone).
  rewrite <- Hfade in Hge, Hall, Hone.
  split; [exact Hfeed |]. split; [exact Hla |]. split; [exact Hlo |].
  split; [now rewrite Hla |]. split; [now rewrite Hlo |].
  split; [exact Hge |]. split.
  - intros f Hf. apply Hall. now apply in_map.
  - destruct Hone as [Hzero | (x & Hx & Hone)]; [now left |].
    right. apply in_map_iff in Hx as (f & <- & Hf). now exists f.
Qed.

(** ** Flow aggregation: totals *)

Lemma Qsum_app (l1 l2 : list Q) : (Qsum (l1 ++ l2) == Qsum l1 + Qsum l2)%Q.
Proof.
  unfold Qsum. induction l1 as [| x rest IH]; simpl.
  - ring.
  - rewrite IH. ring.
Qed.

Lemma Qsum_perm (l l' : list Q) : Permutation l l' -> (Qsum l == Qsum l')%Q.
Proof.
  induction 1 as [| x l l' _ IH | x y l | l l' l'' _ IH1 _ IH2];
    cbn [Qsum fold_right].
  - reflexivity.
  - fold (Qsum l) (Qsum l'). rewrite IH. reflexivity.
  - ring.
  - now rewrite IH1.
Qed.

Lemma Qsum_nonneg (l : list Q) : Forall (fun x => (0 <= x)%Q) l -> (0 <= Qsum l)%Q.
Proof.
  induction 1 as [| x rest Hx _ IH]; cbn [Qsum fold_right]; [apply Qle_refl |].
  fold (Qsum rest). lra.
Qed.

(** The total of a quantity over a map after [set]: the new value takes
    the place of the one the key had. *)
Lemma Map_set_total {V : Type} (g : V -> Q) (k : string) (v : V) (m : JsMap V) :
  (Qsum (List.map g (Map_values (Map_set k v m)))
     + match Map_get k m with Some old => g old | None => 0 end
   == Qsum (List.map g (Map_values m)) + g v)%Q.
Proof.
  induction m as [| [k0 w] rest IH]; cbn [Map_set Map_get].
  - cbn. ring.
  - destruct (String.eqb k k0).
    + cbn [Map_values List.map snd Qsum fold_right].
      fold (Qsum (List.map g (List.map snd rest))). ring.
    + cbn [Map_values List.map snd Qsum fold_right].
      fold (Map_values (Map_set k v rest)) (Map_values rest).
      fold (Qsum (List.map g (Map_values (Map_set k v rest))))
           (Qsum (List.map g (Map_values rest))).
      lra.
Qed.


(** ** From the cache to the map: fading *)

Lemma positive_clamp (x : Q) : (0 < clamp x 0 1)%Q <-> (0 < x)%Q.
Proof. pose proof (clamp_cases x 0 1) as H. split; intros; lra. Qed.

(** The age [mapFlows] computes for a cache entry. *)
Lemma fadeFlow_fade_value (flowNow : Z) (c : Cached JsValue) :
  fade (entry (fadeFlow flowNow c)) =
    clamp (1 - inject_Z (flowNow - or_time (lastSeen c) flowNow)
               / inject_Z MAP_LINGER_MS) 0 1.
Proof. reflexivity. Qed.

Lemma age_ratio (age : Z) :
  (inject_Z age / inject_Z MAP_LINGER_MS == inject_Z age * (1 # 20000))%Q.
Proof. unfold Qdiv. reflexivity. Qed.

Lemma fade_positive_iff (flowNow : Z) (c : Cached JsValue) :
  (0 < fade (entry (fadeFlow flowNow c)))%Q <->
  (flowNow - or_time (lastSeen c) flowNow < 20000)%Z.
Proof.
  rewrite fadeFlow_fade_value, positive_clamp.
  pose proof (age_ratio (flowNow - or_time (lastSeen c) flowNow)) as Hr.
  rewrite (Zlt_Qlt _ 20000). change (inject_Z 20000) with 20000%Q.
  split; intros; lra.
Qed.

Lemma fadeFlow_fresh (flowNow : Z) (c : Cached JsValue) :
  (flowNow - or_time (lastSeen c) flowNow <= 0)%Z ->
  (fade (entry (fadeFlow flowNow c)) == 1)%Q.
Proof.
  intros Hage. rewrite fadeFlow_fade_value.
  pose proof (age_ratio (flowNow - or_time (lastSeen c) flowNow)) as Hr.
  rewrite (Zle_Qle _ 0) in Hage. change (inject_Z 0) with 0%Q in Hage.
  apply clamp_above; lra.
Qed.

Lemma filter_map_swap {A B : Type} (keep : B -> bool) (f : A -> B) (l : list A) :
  List.filter keep (List.map f l) =
    List.map f (List.filter (fun x => keep (f x)) l).
Proof.
  induction l as [| x rest IH]; simpl; [reflexivity |].
  destruct (keep (f x)); simpl; now rewrite IH.
Qed.

Lemma mapFlows_filter (cache : JsMap (Cached JsValue)) (flowNow : Z) :
  mapFlows cache flowNow =
    List.map (fadeFlow flowNow)
      (List.filter
         (fun c => (flowNow - or_time (lastSeen c) flowNow <? 20000)%Z)
         (Map_values cache)).
Proof.
  unfold mapFlows. destruct cache as [| kv rest]; [reflexivity |].
  rewrite filter_map_swap. f_equal. apply filter_ext. intros c.
  destruct (Qlt_le_dec 0 (fade (entry (fadeFlow flowNow c)))) as [Hlt | Hle].
  - symmetry. apply Z.ltb_lt. now apply fade_positive_iff.
  - symmetry. apply Z.ltb_ge.
    destruct (Z.lt_ge_cases (flowNow - or_time (lastSeen c) flowNow) 20000)
      as [H | H]; [| exact H].
    apply fade_positive_iff in H. lra.
Qed.

(** X10. [mapFlows] hands on, in cache order, exactly the entries seen
    less than 20000 ms before [flowNow]; an entry exactly 20000 ms old is
    not handed on.  An entry not older than [flowNow] has fade 1, and one
    of age between 0 and 20000 ms has fade [1 - age / 20000]. *)
Theorem mapFlows_lingering (cache : JsMap (Cached JsValue)) (flowNow : Z) :
  mapFlows cache flowNow =
    List.map (fadeFlow flowNow)
      (List.filter
         (fun c => (flowNow - or_time (lastSeen c) flowNow <? 20000)%Z)
         (Map_values cache)) /\
  (forall c,
     (flowNow - or_time (lastSeen c) flowNow <= 0)%Z ->
     (fade (entry (fadeFlow flowNow c)) == 1)%Q) /\
  (forall c,
     (0 <= flowNow - or_time (lastSeen c) flowNow <= 20000)%Z ->
     (fade (entry (fadeFlow flowNow c)) ==
        1 - inject_Z (flowNow - or_time (lastSeen c) flowNow) / 20000)%Q).
Proof.
  split; [apply mapFlows_filter |]. split; [apply fadeFlow_fresh |].
  intros c [Hlo Hhi]. rewrite fadeFlow_fade_value.
  change (inject_Z MAP_LINGER_MS) with 20000%Q.
  pose proof (age_ratio (flowNow - or_time (lastSeen c) flowNow)) as Hr.
  change (inject_Z MAP_LINGER_MS) with 20000%Q in Hr.
  rewrite (Zle_Qle 0) in Hlo. rewrite (Zle_Qle _ 20000) in Hhi.
  change (inject_Z 0) with 0%Q in Hlo. change (inject_Z 20000) with 20000%Q in Hhi.
  apply clamp_inside; lra.
Qed.

Lemma or_time_same (t : Z) : or_time t t = t.
Proof. unfold or_time. now destruct (t =? 0)%Z. Qed.

(** X11. Right after a message, every flow of that message is in the
    list handed to the map at full strength: its fade is 1 and its [mb_s]
    and [bytes] are the numbers of its cache entry. *)
Theorem onmessage_flows_at_full_strength (nowMs : Z) (data : Snapshot)
  (s : AppState) :
  let s' := onmessage nowMs data s in
  Forall
    (fun f =>
       exists c,
         Map_get (cacheKey f) (flowCache s') = Some c /\
         In (fadeFlow (flowNow s') c) (mapFlows (flowCache s') (flowNow s')) /\
         (fade (entry (fadeFlow (flowNow s') c)) == 1)%Q /\
         (mb_s (entry (fadeFlow (flowNow s') c)) == number (mb_s (entry c)))%Q /\
         (bytes (entry (fadeFlow (flowNow s') c)) == number (bytes (entry c)))%Q)
    (flows_of data).
Proof.
  intros s'. apply Forall_forall. intros f Hin.
  destruct (updateFlowCache_present nowMs data (flowCache s) f Hin)
    as (c & _ & Hget & Hseen & _).
  exists c. split; [exact Hget |].
  assert (Hage : (nowMs - or_time (lastSeen c) nowMs = 0)%Z).
  { rewrite Hseen, or_time_same. lia. }
  assert (Hfade : (fade (entry (fadeFlow nowMs c)) == 1)%Q).
  { apply fadeFlow_fresh. lia. }
  destruct (fadeFlow_fade nowMs c) as (_ & Hm & Hb).
  split.
  - change (flowNow s') with nowMs. rewrite mapFlows_filter.
    apply in_map. apply filter_In. split.
    + apply Map_values_In. exists (cacheKey f). now apply Map_get_In.
    + apply Z.ltb_lt. lia.
  - change (flowNow s') with nowMs.
    split; [exact Hfade |]. split; [rewrite Hm | rewrite Hb]; rewrite Hfade; ring.
Qed.

Lemma firstn_In {A : Type} (n : nat) (l : list A) (x : A) :
  In x (firstn n l) -> In x l.
Proof.
  intros H. rewrite <- (firstn_skipn n l). apply in_or_app. now left.
Qed.

(** X12. The flows the world map draws for any state of the dashboard are
    at most 12, each has finite coordinates and a fade factor above 0 and
    at most 1, so every opacity computed from it is a valid one. *)
Theorem drawnFlows_valid (s : AppState) :
  (length (drawnFlows s) <= 12)%nat /\
  Forall
    (fun a =>
       Number_isFinite (lat a) = true /\ Number_isFinite (lon a) = true /\
       (0 < fade a)%Q /\ (fade a <= 1)%Q)
    (drawnFlows s).
Proof.
  split; [apply firstn_le_length |].
  apply Forall_forall. intros a Hin. apply firstn_In in Hin.
  destruct (aggregateFlows_entry _ a Hin)
    as (first & rest & Hfeed & Hla & Hlo & Hfade).
  assert (Hfed : forall f, In f (first :: rest) ->
            located f = true /\ (0 < fadeOf f)%Q /\ (fadeOf f <= 1)%Q).
  { intros f Hf. rewrite <- Hfeed in Hf. apply feeding_In in Hf as (Hf & Hloc & _).
    split; [exact Hloc |].
    unfold worldMapFlows in Hf. apply in_map_iff in Hf as (flow & <- & Hflow).
    apply mapFlows_In in Hflow as (Hpos & k & c & _ & ->).
    destruct (fadeFlow_fade (flowNow s) c) as ((_ & Hle) & _).
    unfold fadeOf. simpl. split; [exact Hpos | exact Hle]. }
  destruct (Hfed first (or_introl eq_refl)) as (Hloc & Hpos & _).
  unfold located in Hloc. apply andb_prop in Hloc as [H1 H2].
  destruct (maxFade_spec 0 (List.map fadeOf (first :: rest)))
    as (_ & Hall & Hone).
  rewrite <- Hfade in Hall, Hone.
  split; [now rewrite Hla |]. split; [now rewrite Hlo |]. split.
  - apply Qlt_le_trans with (fadeOf first); [exact Hpos |].
    apply Hall. apply in_map. now left.
  - destruct Hone as [Hzero | (x & Hx & Hone)]; [lra |].
    apply in_map_iff in Hx as (f & <- & Hf).
    destruct (Hfed f Hf) as (_ & _ & Hle). lra.
Qed.

(** ** The flow cache: entries no message touches *)

Lemma Map_get_filter_exact {V : Type} (keep : string * V -> bool) (k : string)
  (m : JsMap V) :
  NoDup (Map_keys m) ->
  Map_get k (List.filter keep m) =
    match Map_get k m with
    | Some v => if keep (k, v) then Some v else None
    | None => None
    end.
Proof.
  intros Hnd. destruct (Map_get k m) as [v |] eqn:Hget.
  - destruct (keep (k, v)) eqn:Hkeep; [now apply Map_get_filter |].
    destruct (Map_get k (List.filter keep m)) as [v' |] eqn:Hf; [| reflexivity].
    pose proof (Map_get_filter_inv keep k v' m Hnd Hf) as Hsame.
    rewrite Hget in Hsame. injection Hsame as <-.
    apply Map_get_In, filter_In in Hf as [_ Hf]. congruence.
  - destruct (Map_get k (List.filter keep m)) as [v' |] eqn:Hf; [| reflexivity].
    pose proof (Map_get_filter_inv keep k v' m Hnd Hf). congruence.
Qed.

Lemma fold_merge_step_other (nowMs : Z) (k : string) (flows : list (Flow JsValue))
  (slot : option (Cached JsValue)) :
  Forall (fun f => cacheKey f <> k) flows ->
  fold_left (merge_step nowMs k) flows slot = slot.
Proof.
  intros Hall. revert slot. induction Hall as [| f rest Hf _ IH]; intros slot.
  - reflexivity.
  - simpl. rewrite IH. unfold merge_step.
    destruct (String.eqb_spec (cacheKey f) k); [contradiction | reflexivity].
Qed.

(** X13. A message leaves the cache entry of every key it has no flow
    for exactly as it was (fields and [lastSeen]) as long as the entry was
    seen at most 20000 ms before the message, and deletes it when it is
    older; a key absent before stays absent. *)
Theorem updateFlowCache_untouched (nowMs : Z) (data : Snapshot)
  (prev : JsMap (Cached JsValue)) (k : string) :
  NoDup (Map_keys prev) ->
  Forall (fun f => cacheKey f <> k) (flows_of data) ->
  Map_get k (updateFlowCache nowMs data prev) =
    match Map_get k prev with
    | Some c =>
        if (nowMs - or_time (lastSeen c) 0 <=? 20000)%Z then Some c else None
    | None => None
    end.
Proof.
  intros Hnd Hother. unfold updateFlowCache, prune. fold (flows_of data).
  rewrite Map_get_filter_exact by now apply fold_mergeFlow_NoDup.
  rewrite fold_mergeFlow_get, fold_merge_step_other by exact Hother.
  destruct (Map_get k prev) as [c |]; [| reflexivity].
  cbn [snd]. unfold MAP_LINGER_MS.
  rewrite Z.gtb_ltb, <- Z.leb_antisym. reflexivity.
Qed.

Lemma mergeFlow_keyed (nowMs : Z) (next : JsMap (Cached JsValue))
  (flow : Flow JsValue) :
  Forall (fun kc => cacheKey (entry (snd kc)) = fst kc) next ->
  Forall (fun kc => cacheKey (entry (snd kc)) = fst kc) (mergeFlow nowMs next flow).
Proof.
  intros Hall. apply Forall_forall. intros [k c] Hin.
  unfold mergeFlow in Hin. apply Map_In_set in Hin as [[-> ->] | Hin].
  - change (cacheKey (merge (Map_get (cacheKey flow) next) flow) = cacheKey flow).
    generalize (Map_get (cacheKey flow) next). intros existing.
    unfold cacheKey.
    destruct (merge_identity existing flow) as [-> ->].
    reflexivity.
  - rewrite Forall_forall in Hall. exact (Hall (k, c) Hin).
Qed.

Lemma updateFlowCache_keyed (nowMs : Z) (data : Snapshot)
  (prev : JsMap (Cached JsValue)) :
  Forall (fun kc => cacheKey (entry (snd kc)) = fst kc) prev ->
  Forall (fun kc => cacheKey (entry (snd kc)) = fst kc)
    (updateFlowCache nowMs data prev).
Proof.
  intros Hall. unfold updateFlowCache, prune. fold (flows_of data).
  assert (Hfold : Forall (fun kc => cacheKey (entry (snd kc)) = fst kc)
                    (fold_left (mergeFlow nowMs) (flows_of data) prev)).
  { revert prev Hall. induction (flows_of data) as [| f rest IH]; intros prev Hall.
    - exact Hall.
    - simpl. apply IH. now apply mergeFlow_keyed. }
  rewrite Forall_forall in Hfold. apply Forall_forall. intros kc Hin.
  apply filter_In in Hin as [Hin _]. now apply Hfold.
Qed.

(** X14. After any sequence of messages the flow cache has one entry per
    key, every entry is stored under the key its own [direction] and [ip]
    give, and so no two entries of the cache have the same such key. *)
Theorem flowCache_keyed (mountedAt : Z) (messages : list (Z * Snapshot)) :
  let cache := flowCache (run messages (initialState mountedAt)) in
  NoDup (Map_keys cache) /\
  Forall (fun kc => cacheKey (entry (snd kc)) = fst kc) cache /\
  NoDup (List.map (fun c => cacheKey (entry c)) (Map_values cache)).
Proof.
  intros cache.
  assert (Hkeys : NoDup (Map_keys cache)) by apply run_NoDup.
  assert (Hkeyed : Forall (fun kc => cacheKey (entry (snd kc)) = fst kc) cache).
  { subst cache. induction messages as [| [nowMs data] rest IH] using rev_ind.
    - constructor.
    - rewrite run_snoc. cbn [flowCache onmessage]. apply updateFlowCache_keyed.
      apply IH. apply run_NoDup. }
  split; [exact Hkeys |]. split; [exact Hkeyed |].
  unfold Map_values. rewrite map_map.
  replace (List.map (fun kc => cacheKey (entry (snd kc))) cache)
    with (Map_keys cache); [exact Hkeys |].
  unfold Map_keys. apply map_ext_in. intros kc Hin.
  rewrite Forall_forall in Hkeyed. symmetry. now apply Hkeyed.
Qed.

(** ** The histories: one clock for both charts *)

Lemma map_slice_last {A B : Type} (f : A -> B) (n : nat) (l : list A) :
  List.map f (slice_last n l) = slice_last n (List.map f l).
Proof. unfold slice_last. now rewrite skipn_map, length_map. Qed.

(** X15. After any sequence of messages the CPU chart and the network
    chart have the same points in time, in the same order: the two
    histories have the same time labels; and no charted value is the
    absent or null value, a missing reading being charted as 0. *)
Theorem histories_synchronised (mountedAt : Z) (messages : list (Z * Snapshot)) :
  let s := run messages (initialState mountedAt) in
  List.map cpu_time (cpuHistory s) = List.map net_time (netHistory s) /\
  length (cpuHistory s) = length (netHistory s) /\
  Forall (fun p => nullish (cpu_value p) (Num 0) = cpu_value p) (cpuHistory s) /\
  Forall
    (fun p => nullish (download p) (Num 0) = download p /\
              nullish (upload p) (Num 0) = upload p)
    (netHistory s).
Proof.
  intros s. destruct (run_histories messages mountedAt) as [Hc Hn].
  fold s in Hc, Hn.
  assert (Htimes : List.map cpu_time (cpuHistory s) =
                   List.map net_time (netHistory s)).
  { rewrite Hc, Hn, !map_slice_last, !map_map. reflexivity. }
  assert (Hidem : forall x, nullish (nullish x (Num 0)) (Num 0) = nullish x (Num 0)).
  { intros x. now destruct x. }
  split; [exact Htimes |]. split.
  - rewrite <- (length_map cpu_time), Htimes. apply length_map.
  - split.
    + rewrite Hc. apply Forall_forall. intros p Hin.
      unfold slice_last in Hin.
      assert (Hp : In p (List.map (fun m => cpuPoint (snd m)) messages)).
      { rewrite <- (firstn_skipn
                      (length (List.map (fun m => cpuPoint (snd m)) messages)
                       - MAX_POINTS)
                      (List.map (fun m => cpuPoint (snd m)) messages)).
        apply in_or_app. now right. }
      apply in_map_iff in Hp as (m & <- & _). apply Hidem.
    + rewrite Hn. apply Forall_forall. intros p Hin.
      unfold slice_last in Hin.
      assert (Hp : In p (List.map (fun m => netPoint (snd m)) messages)).
      { rewrite <- (firstn_skipn
                      (length (List.map (fun m => netPoint (snd m)) messages)
                       - MAX_POINTS)
                      (List.map (fun m => netPoint (snd m)) messages)).
        apply in_or_app. now right. }
      apply in_map_iff in Hp as (m & <- & _). split; apply Hidem.
Qed.

(** ** App.jsx: the heat map grid *)

(** X18. The core heat map has between 4 and 8 columns.  Up to 16 cores
    (and with none) it has 4; from 17 to 64 cores it has the least number
    of columns whose square holds every core, so the grid is never taller
    than wide; and from 50 cores on it has 8. *)
Theorem heatmapColumns_grid (cores : nat) :
  (4 <= heatmapColumns cores <= 8)%nat /\
  ((cores <= 16)%nat -> heatmapColumns cores = 4%nat) /\
  ((16 < cores <= 64)%nat ->
   (cores <= heatmapColumns cores * heatmapColumns cores)%nat /\
   ((heatmapColumns cores - 1) * (heatmapColumns cores - 1) < cores)%nat) /\
  ((49 < cores)%nat -> heatmapColumns cores = 8%nat).
Proof.
  unfold heatmapColumns, ceil_sqrt.
  destruct (Nat.eqb_spec cores 0) as [-> | Hne].
  - change (Nat.sqrt_up 4) with 2%nat. cbn. repeat split; lia.
  - pose proof (Nat.sqrt_up_spec cores ltac:(lia)) as [Hlo Hhi].
    set (r := Nat.sqrt_up cores) in *. clearbody r.
    split; [lia |]. split; [| split].
    + intros Hc. assert (r <= 4)%nat by nia. lia.
    + intros [Hc1 Hc2]. assert (5 <= r)%nat by nia. assert (r <= 8)%nat by nia.
      replace (Nat.min 8 (Nat.max 4 r)) with r by lia.
      split; [exact Hhi |]. replace (r - 1)%nat with (Nat.pred r) by lia.
      exact Hlo.
    + intros Hc. assert (8 <= r)%nat by nia. lia.
Qed.

(** ** App.jsx: the theme *)

Lemma initialTheme_valid (stored : option string) :
  initialTheme stored = "light" \/ initialTheme stored = "dark".
Proof.
  destruct stored as [value |]; simpl; [| now right].
  destruct (String.eqb value "light"); [now left | now right].
Qed.

Lemma toggleTheme_valid (current : string) :
  toggleTheme current = "light" \/ toggleTheme current = "dark".
Proof.
  unfold toggleTheme. destruct (String.eqb current "light"); [now right | now left].
Qed.

(** X19. Whatever the ["theme"] item of [localStorage] holds at mount and
    however often the theme button is pressed, the theme is ["light"] or
    ["dark"], the stored item is the current theme, so that mounting again
    restores exactly this state; pressing the button changes the theme,
    and pressing it twice gives the state back. *)
Theorem theme_persisted (stored : option string) (presses : nat) :
  let s := Nat.iter presses pressTheme (mountTheme stored) in
  (theme s = "light" \/ theme s = "dark") /\
  storedTheme s = Some (theme s) /\
  mountTheme (storedTheme s) = s /\
  theme (pressTheme s) <> theme s /\
  pressTheme (pressTheme s) = s.
Proof.
  intros s.
  assert (Hinv : (theme s = "light" \/ theme s = "dark") /\
                 storedTheme s = Some (theme s)).
  { subst s. induction presses as [| n IH].
    - split; [apply initialTheme_valid | reflexivity].
    - cbn [Nat.iter]. split; [apply toggleTheme_valid | reflexivity]. }
  destruct Hinv as [Hvalid Hstored].
  split; [exact Hvalid |]. split; [exact Hstored |].
  destruct s as [current item]. cbn [theme storedTheme] in *. subst item.
  destruct Hvalid as [-> | ->]; repeat split; discriminate.
Qed.

(** ** App.jsx: the connection status *)

Lemma socketRun_closing (events : list SocketEvent) (c : Connection) :
  shouldClose c = true -> socketRun events c = c.
Proof.
  intros Hclose. induction events as [| e rest IH]; [reflexivity |].
  unfold socketRun in *. cbn [fold_left].
  assert (Hstep : socketStep c e = c).
  { destruct c as [st closing]. cbn [shouldClose] in Hclose. subst closing.
    destruct e; reflexivity. }
  rewrite Hstep. exact IH.
Qed.

Lemma socketStep_status (c : Connection) (e : SocketEvent) :
  In (status c) ["connecting"; "live"; "offline"; "error"] ->
  In (status (socketStep c e)) ["connecting"; "live"; "offline"; "error"].
Proof.
  intros Hin. destruct e; unfold socketStep; destruct (shouldClose c);
    cbn [negb status]; try exact Hin.
  - right. now left.
  - right. right. now left.
  - right. right. right. now left.
Qed.

Lemma socketRun_status (events : list SocketEvent) :
  In (status (socketRun events connecting))
    ["connecting"; "live"; "offline"; "error"].
Proof.
  induction events as [| e rest IH] using rev_ind.
  - now left.
  - unfold socketRun in *. rewrite fold_left_app. cbn [fold_left].
    now apply socketStep_status.
Qed.

(** X20. Once the socket effect is cleaned up, nothing the socket does
    changes the status shown: the status after any events that follow the
    cleanup is the status the events before it left.  The status is
    always one of connecting, live, offline and error. *)
Theorem status_frozen_by_cleanup (before later : list SocketEvent) :
  let c := socketRun (before ++ cleanup :: later) connecting in
  status c = status (socketRun before connecting) /\
  shouldClose c = true /\
  In (status c) ["connecting"; "live"; "offline"; "error"].
Proof.
  intros c.
  assert (Hc : c = socketStep (socketRun before connecting) cleanup).
  { subst c. unfold socketRun. rewrite fold_left_app. cbn [fold_left].
    apply (socketRun_closing later). reflexivity. }
  rewrite Hc. split; [reflexivity |]. split; [reflexivity |].
  cbn [socketStep status]. apply socketRun_status.
Qed.

(** ** App.jsx: the section chats *)

Lemma pushMessage_same (sectionId : string) (message : Message)
  (prev : gmap string (list Message)) :
  pushMessage sectionId message prev !! sectionId =
    Some (default [] (prev !! sectionId) ++ [message])%list.
Proof. unfold pushMessage. apply lookup_insert_eq. Qed.

Lemma pushMessage_other (sectionId other : string) (message : Message)
  (prev : gmap string (list Message)) :
  other <> sectionId ->
  pushMessage sectionId message prev !! other = prev !! other.
Proof.
  intros Hne. unfold pushMessage. apply lookup_insert_ne. congruence.
Qed.

Lemma replyContent_nonempty (reply : Reply) : replyContent reply <> "".
Proof.
  destruct reply as [answer |]; simpl; [| discriminate].
  unfold or_string. destruct (String.eqb_spec answer ""); [discriminate | exact n].
Qed.

(** X21. [sendSectionQuestion] does nothing when the input of the section
    is blank.  Otherwise it appends to the history of the section the
    question, trimmed, and then exactly one assistant message, which is
    never empty; it clears the input of the section; with system data
    present the loading flag of the section ends up false, without it the
    flags are not touched.  The histories, inputs and flags of all other
    sections, and the open chat, stay as they were. *)
Theorem sendSectionQuestion_exchange (fetch : string -> Reply)
  (metrics : option Snapshot) (sectionId : string) (chat : Chat) :
  let question := trim (default "" (sectionInputs chat !! sectionId)) in
  let history := default [] (sectionMessages chat !! sectionId) in
  let after := sendSectionQuestion fetch metrics sectionId chat in
  (question = "" -> after = chat) /\
  (question <> "" ->
   exists answer,
     answer <> "" /\
     sectionMessages after !! sectionId =
       Some (history ++ [ {| role := "user"; content := question |};
                          {| role := "assistant"; content := answer |} ])%list /\
     sectionInputs after !! sectionId = Some "" /\
     (metrics <> None -> sectionLoading after !! sectionId = Some false) /\
     (metrics = None -> sectionLoading after = sectionLoading chat)) /\
  (forall other, other <> sectionId ->
     sectionMessages after !! other = sectionMessages chat !! other /\
     sectionInputs after !! other = sectionInputs chat !! other /\
     sectionLoading after !! other = sectionLoading chat !! other) /\
  activeChatSection after = activeChatSection chat.
Proof.
  intros question history after. subst after. unfold sendSectionQuestion.
  fold question.
  destruct (String.eqb_spec question "") as [Hblank | Hasked].
  - split; [reflexivity |]. split; [contradiction |].
    split; [| reflexivity]. intros other _. split; [| split]; reflexivity.
  - split; [contradiction |].
    assert (Hother : forall other, other <> sectionId -> sectionId <> other).
    { intros other H E. apply H. now symmetry. }
    destruct metrics as [data |]; cbn [sectionMessages sectionInputs
      sectionLoading activeChatSection].
    + split; [| split; [| reflexivity]].
      * intros _. exists (replyContent (fetch (userQuery sectionId question))).
        split; [apply replyContent_nonempty |]. split.
        { rewrite pushMessage_same, pushMessage_same. fold history.
          cbn [default from_option]. unfold id. now rewrite <- app_assoc. }
        split; [apply lookup_insert_eq |].
        split; [intros _; apply lookup_insert_eq | discriminate].
      * intros other Hne. split; [| split].
        { now rewrite !pushMessage_other. }
        { apply lookup_insert_ne. now apply Hother. }
        { rewrite !lookup_insert_ne by now apply Hother. reflexivity. }
    + split; [| split; [| reflexivity]].
      * intros _.
        exists "System data is still loading. Try again in a moment.".
        split; [discriminate |]. split.
        { rewrite pushMessage_same, pushMessage_same. fold history.
          cbn [default from_option]. unfold id. now rewrite <- app_assoc. }
        split; [apply lookup_insert_eq |].
        split; [congruence | reflexivity].
      * intros other Hne. split; [| split].
        { now rewrite !pushMessage_other. }
        { apply lookup_insert_ne. now apply Hother. }
        { reflexivity. }
Qed.

(** X22. A suggested question is the one that gets asked: after
    [suggestQuestion] for a section, the chat of that section is open (so
    that toggling it closes it) and its input holds the suggestion; and
    [sendSectionQuestion] then appends the suggestion, trimmed, and one
    assistant message to the history of the section and clears the
    input. *)
Theorem suggested_question_is_asked (fetch : string -> Reply)
  (metrics : option Snapshot) (text sectionId : string) (chat : Chat) :
  sectionId <> "" ->
  trim text <> "" ->
  let opened := suggestQuestion text sectionId chat in
  let after := sendSectionQuestion fetch metrics sectionId opened in
  activeChatSection opened = Some sectionId /\
  sectionInputs opened !! sectionId = Some text /\
  toggleSectionChat sectionId (activeChatSection opened) = None /\
  activeChatSection after = Some sectionId /\
  sectionInputs after !! sectionId = Some "" /\
  exists answer,
    sectionMessages after !! sectionId =
      Some (default [] (sectionMessages chat !! sectionId) ++
            [ {| role := "user"; content := trim text |};
              {| role := "assistant"; content := answer |} ])%list.
Proof.
  intros Hid Hasked opened after.
  assert (Hopened : opened =
            {| activeChatSection := Some sectionId;
               sectionMessages := sectionMessages chat;
               sectionInputs := <[sectionId := text]> (sectionInputs chat);
               sectionLoading := sectionLoading chat |}).
  { subst opened. unfold suggestQuestion.
    destruct (String.eqb_spec sectionId ""); [contradiction | reflexivity]. }
  assert (Hinput : sectionInputs opened !! sectionId = Some text).
  { rewrite Hopened. apply lookup_insert_eq. }
  split; [now rewrite Hopened |]. split; [exact Hinput |].
  split.
  { rewrite Hopened. cbn [activeChatSection toggleSectionChat].
    now rewrite String.eqb_refl. }
  subst after. unfold sendSectionQuestion. rewrite Hinput. cbn [default from_option].
  unfold id.
  destruct (String.eqb_spec (trim text) ""); [contradiction |].
  assert (Hhistory : sectionMessages opened = sectionMessages chat)
    by now rewrite Hopened.
  destruct metrics as [data |];
    cbn [activeChatSection sectionInputs sectionMessages].
  - split; [now rewrite Hopened |]. split; [apply lookup_insert_eq |].
    eexists. rewrite pushMessage_same, pushMessage_same, Hhistory.
    cbn [default from_option]. unfold id. now rewrite <- app_assoc.
  - split; [now rewrite Hopened |]. split; [apply lookup_insert_eq |].
    eexists. rewrite pushMessage_same, pushMessage_same, Hhistory.
    cbn [default from_option]. unfold id. now rewrite <- app_assoc.
Qed.

(** ** components/WorldMap.jsx: the zoom buttons *)

Lemma press_zoom_bounds (prev : Position) (button : Button) :
  (minZoom <= zoom (press prev button) <= maxZoom)%Q.
Proof.
  destruct button; cbn [press zoom initialPosition].
  - apply clamp_bounds. unfold minZoom, maxZoom. lra.
  - apply clamp_bounds. unfold minZoom, maxZoom. lra.
  - unfold minZoom, maxZoom. lra.
Qed.

(** X23. After one or more presses of the map buttons the zoom lies
    between 0.8 and 3.5, whatever the position was before.  The zoom
    buttons leave the centre of the map alone; zooming in from a zoom of
    at most 3.5 never zooms out, zooming out from at least 0.8 never zooms
    in; and the reset button gives the initial view. *)
Theorem zoom_buttons (prev : Position) (button : Button) (later : list Button) :
  (minZoom <= zoom (fold_left press (button :: later) prev) <= maxZoom)%Q /\
  coordinates (press prev ZoomIn) = coordinates prev /\
  coordinates (press prev ZoomOut) = coordinates prev /\
  ((zoom prev <= maxZoom)%Q -> (zoom prev <= zoom (press prev ZoomIn))%Q) /\
  ((minZoom <= zoom prev)%Q -> (zoom (press prev ZoomOut) <= zoom prev)%Q) /\
  press prev ResetView = initialPosition.
Proof.
  split.
  - induction later as [| b rest IH] using rev_ind.
    + apply press_zoom_bounds.
    + change (button :: rest ++ [b])%list with ((button :: rest) ++ [b])%list.
      rewrite fold_left_app. apply press_zoom_bounds.
  - split; [reflexivity |]. split; [reflexivity |].
    cbn [press zoom]. unfold minZoom, maxZoom.
    pose proof (clamp_cases (zoom prev + (3 # 10)) (8 # 10) (35 # 10)) as Hin.
    pose proof (clamp_cases (zoom prev - (3 # 10)) (8 # 10) (35 # 10)) as Hout.
    split; [intros; lra |]. split; [intros; lra | reflexivity].
Qed.


End Client.

(** ** Geolocation request coalescing *)

Module GeoResolverFacts.

Import GeoResolver.

















End GeoResolverFacts.

(** ** Binary64: rounding *)

Module Binary64Facts.

Import Binary64.

Lemma pow2_pos (e : Z) : (0 < pow2 e)%Q.
Proof. apply Qpower_0_lt. reflexivity. Qed.

Lemma pow2_plus (a b : Z) : (pow2 (a + b) == pow2 a * pow2 b)%Q.
Proof. apply Qpower_plus. discriminate. Qed.

Lemma pow2_Z (n : Z) : (0 <= n)%Z -> (pow2 n == inject_Z (2 ^ n))%Q.
Proof. intros Hn. unfold pow2. now rewrite Zpower_Qpower. Qed.

Lemma pow2_le (a b : Z) : (a <= b)%Z -> (pow2 a <= pow2 b)%Q.
Proof. intros H. apply Qpower_le_compat_l; [exact H | discriminate]. Qed.

(** [ilog2] is below the magnitude of its argument. *)
Lemma ilog2_le (q : Q) : ~ (q == 0)%Q -> (pow2 (ilog2 q) <= Qabs q)%Q.
Proof.
  intros Hq. unfold ilog2.
  set (a := Z.abs (Qnum q)). set (b := Zpos (Qden q)).
  destruct (Qle_bool (pow2 (Z.log2 a - Z.log2 b)) (Qabs q)) eqn:E.
  - now apply Qle_bool_iff.
  - clear E.
    assert (Ha : (0 < a)%Z).
    { subst a. destruct q as [n d]. unfold Qeq in Hq. simpl in *. lia. }
    assert (Hb : (0 < b)%Z) by (subst b; lia).
    destruct (Z.log2_spec a Ha) as [Ha1 _].
    destruct (Z.log2_spec b Hb) as [_ Hb2].
    pose proof (Z.log2_nonneg a) as Hla. pose proof (Z.log2_nonneg b) as Hlb.
    replace (Z.log2 a - Z.log2 b - 1)%Z with (Z.log2 a + - (Z.succ (Z.log2 b)))%Z by lia.
    rewrite pow2_plus. unfold pow2 at 2. rewrite Qpower_opp.
    fold (pow2 (Z.succ (Z.log2 b))).
    rewrite !pow2_Z by lia.
    assert (Habs : (Qabs q == inject_Z a / inject_Z b)%Q).
    { destruct q as [n d]. subst a b. simpl. unfold Qabs, Qdiv, Qeq. simpl.
      rewrite Z.mul_1_r. destruct n; simpl; try lia. }
    rewrite Habs.
    set (A := (2 ^ Z.log2 a)%Z) in *. set (B := (2 ^ Z.succ (Z.log2 b))%Z) in *.
    assert (HB : (0 < B)%Z) by lia.
    apply Qle_shift_div_l; [rewrite <- (Zlt_Qlt 0); exact Hb |].
    apply Qle_trans with (inject_Z a * / inject_Z B * inject_Z B)%Q.
    + apply Qmult_le_compat_nonneg.
      * split.
        -- apply Qmult_le_0_compat; [rewrite <- (Zle_Qle 0); lia |].
           apply Qinv_le_0_compat. rewrite <- (Zle_Qle 0); lia.
        -- apply Qmult_le_compat_r; [rewrite <- Zle_Qle; exact Ha1 |].
           apply Qinv_le_0_compat. rewrite <- (Zle_Qle 0); lia.
      * split; [rewrite <- (Zle_Qle 0); lia | rewrite <- Zle_Qle; lia].
    + assert (HBq : ~ (inject_Z B == 0)%Q).
      { intros H. apply (Qlt_irrefl 0). rewrite <- H at 2.
        rewrite <- (Zlt_Qlt 0). exact HB. }
      apply Qle_lteq. right. field. exact HBq.
Qed.

Lemma Qabs_diff_le (x y d : Q) :
  (Qabs (x - y) <= d)%Q <-> (y - d <= x)%Q /\ (x <= y + d)%Q.
Proof.
  rewrite Qabs_Qle_condition. split; intros [H1 H2]; split; lra.
Qed.

(** [rne] gives an integer nearest to its argument. *)
Lemma rne_nearest (x : Q) (z : Z) :
  (Qabs (inject_Z (rne x) - x) <= Qabs (inject_Z z - x))%Q.
Proof.
  pose proof (Qfloor_le x) as Hlo. pose proof (Qlt_floor x) as Hhi.
  rewrite inject_Z_plus in Hhi. change (inject_Z 1) with 1%Q in Hhi.
  assert (Hz : (inject_Z z <= inject_Z (Qfloor x))%Q \/
               (inject_Z (Qfloor x) + 1 <= inject_Z z)%Q).
  { destruct (Z.le_gt_cases z (Qfloor x)) as [H | H].
    - left. now rewrite <- Zle_Qle.
    - right. rewrite <- (inject_Z_plus _ 1), <- Zle_Qle. lia. }
  assert (Hcase : (rne x = Qfloor x /\ (x - inject_Z (Qfloor x) <= 1 # 2)%Q) \/
                  (rne x = (Qfloor x + 1)%Z /\ ((1 # 2) <= x - inject_Z (Qfloor x))%Q)).
  { unfold rne.
    destruct (Qcompare_spec (x - inject_Z (Qfloor x)) (1 # 2)) as [E | E | E].
    - destruct (Z.even (Qfloor x)); [left | right]; split; try reflexivity; lra.
    - left. split; [reflexivity | lra].
    - right. split; [reflexivity | lra]. }
  destruct Hcase as [[-> Hr] | [-> Hr]].
  - apply Qabs_diff_le.
    apply (Qabs_case (inject_Z z - x)); intros Hs; destruct Hz; split; lra.
  - rewrite inject_Z_plus. change (inject_Z 1) with 1%Q.
    apply Qabs_diff_le.
    apply (Qabs_case (inject_Z z - x)); intros Hs; destruct Hz; split; lra.
Qed.

(** Rounding to the multiples of [2^e]. *)
Lemma lattice_nearest (q : Q) (e : Z) (z : Z) :
  (Qabs (inject_Z (rne (q / pow2 e)) * pow2 e - q)
   <= Qabs (inject_Z z * pow2 e - q))%Q.
Proof.
  pose proof (pow2_pos e) as Hp.
  pose proof (rne_nearest (q / pow2 e) z) as Hn.
  assert (Hne : ~ (pow2 e == 0)%Q) by lra.
  assert (Hscale : forall w : Q,
            (w * pow2 e - q == (w - q / pow2 e) * pow2 e)%Q).
  { intros w. field. exact Hne. }
  rewrite (Hscale (inject_Z (rne (q / pow2 e)))), (Hscale (inject_Z z)).
  rewrite !Qabs_Qmult. rewrite (Qabs_pos (pow2 e)) by lra.
  apply Qmult_le_compat_r; [exact Hn | lra].
Qed.

Lemma binary64_bound (y : Q) : binary64 y -> (Qabs y < pow2 1024)%Q.
Proof.
  intros (m & e & Hy & Hm & He). rewrite Hy, Qabs_Qmult.
  rewrite (Qabs_pos (pow2 e)) by (apply Qlt_le_weak, pow2_pos).
  apply Qle_lt_trans with (Qabs (inject_Z m) * pow2 971)%Q.
  - rewrite !(Qmult_comm (Qabs (inject_Z m))).
    apply Qmult_le_compat_r; [apply pow2_le; lia | apply Qabs_nonneg].
  - replace 1024%Z with (53 + 971)%Z by reflexivity. rewrite pow2_plus.
    apply Qmult_lt_compat_r; [apply pow2_pos |].
    rewrite pow2_Z by lia.
    assert (Habs : (Qabs (inject_Z m) == inject_Z (Z.abs m))%Q).
    { unfold Qabs, inject_Z. simpl. reflexivity. }
    rewrite Habs, <- Zlt_Qlt. exact Hm.
Qed.

Lemma Qabs_bounds (y : Q) : (- Qabs y <= y)%Q /\ (y <= Qabs y)%Q.
Proof. apply (Qabs_case y); intros; split; lra. Qed.

Lemma binary64_representable (q : Q) : binary64 q -> representable q.
Proof.
  intros (m & e & Hq & Hm & He). exists m, e.
  split; [exact Hq |]. split; [exact Hm | lia].
Qed.

(** The rounding step gives a number at least as near as any
    representable one. *)
Lemma rounded_nearest (q y : Q) :
  ~ (q == 0)%Q -> representable y -> (Qabs (rounded q - q) <= Qabs (y - q))%Q.
Proof.
  intros Hq (m & e & Hy & Hm & He). unfold rounded.
  set (u := ulp_exponent q).
  destruct (Z.le_gt_cases u e) as [Hue | Hue].
  - assert (Hlat : (y == inject_Z (m * 2 ^ (e - u)) * pow2 u)%Q).
    { rewrite Hy, inject_Z_mult, <- pow2_Z by lia.
      rewrite <- Qmult_assoc, <- pow2_plus.
      replace (e - u + u)%Z with e by lia. reflexivity. }
    rewrite Hlat. apply lattice_nearest.
  - assert (Hu : u = (ilog2 q - 52)%Z).
    { subst u. unfold ulp_exponent in *. lia. }
    pose proof (ilog2_le q Hq) as Hk.
    assert (Hk52 : (pow2 (ilog2 q) == inject_Z (2 ^ 52) * pow2 u)%Q).
    { rewrite <- pow2_Z by lia. rewrite <- pow2_plus. rewrite Hu.
      replace (52 + (ilog2 q - 52))%Z with (ilog2 q) by lia. reflexivity. }
    assert (Habs_y : (Qabs y < pow2 (ilog2 q))%Q).
    { rewrite Hy, Qabs_Qmult.
      rewrite (Qabs_pos (pow2 e)) by (apply Qlt_le_weak, pow2_pos).
      apply Qlt_le_trans with (pow2 53 * pow2 e)%Q.
      - apply Qmult_lt_compat_r; [apply pow2_pos |].
        rewrite pow2_Z by lia.
        assert (Habs : (Qabs (inject_Z m) == inject_Z (Z.abs m))%Q).
        { unfold Qabs, inject_Z. simpl. reflexivity. }
        rewrite Habs, <- Zlt_Qlt. exact Hm.
      - rewrite <- pow2_plus. apply pow2_le. lia. }
    destruct (Qabs_bounds y) as [Hy1 Hy2].
    destruct (Qlt_le_dec 0 q) as [Hpos | Hneg].
    + pose proof (lattice_nearest q u (2 ^ 52)) as Hn.
      rewrite <- Hk52 in Hn.
      rewrite (Qabs_pos q) in Hk by lra.
      eapply Qle_trans; [exact Hn |].
      apply (Qabs_case (pow2 (ilog2 q) - q)); intros H1;
        apply (Qabs_case (y - q)); intros H2; lra.
    + pose proof (lattice_nearest q u (- 2 ^ 52)) as Hn.
      rewrite inject_Z_opp in Hn.
      assert (Hneg52 : (- inject_Z (2 ^ 52) * pow2 u == - pow2 (ilog2 q))%Q).
      { rewrite Hk52. ring. }
      rewrite Hneg52 in Hn.
      rewrite (Qabs_neg q) in Hk by exact Hneg.
      eapply Qle_trans; [exact Hn |].
      apply (Qabs_case (- pow2 (ilog2 q) - q)); intros H1;
        apply (Qabs_case (y - q)); intros H2; lra.
Qed.

(** The rounding step of [round64] gives a number at least as near as
    any binary64 value. *)
Lemma round_nearest (q y : Q) :
  ~ (q == 0)%Q -> binary64 y ->
  (Qabs (inject_Z (rne (q / pow2 (ulp_exponent q))) * pow2 (ulp_exponent q) - q)
   <= Qabs (y - q))%Q.
Proof.
  intros Hq Hy. exact (rounded_nearest q y Hq (binary64_representable y Hy)).
Qed.

(** Rounding stays between any two binary64 values its argument lies
    between. *)
Lemma round64_between (lo hi q : Q) :
  binary64 lo -> binary64 hi -> (lo <= q)%Q -> (q <= hi)%Q ->
  exists r, round64 q = Finite r /\ (lo <= r)%Q /\ (r <= hi)%Q.
Proof.
  intros Hlo Hhi Hl Hh. unfold round64.
  destruct (Qeq_bool q 0) eqn:E.
  - apply Qeq_bool_iff in E. exists 0%Q. split; [reflexivity |]. split; lra.
  - assert (Hq : ~ (q == 0)%Q).
    { intros H. apply Qeq_bool_iff in H. congruence. }
    set (r := (inject_Z (rne (q / pow2 (ulp_exponent q)))
               * pow2 (ulp_exponent q))%Q).
    pose proof (round_nearest q lo Hq Hlo) as Hn1.
    pose proof (round_nearest q hi Hq Hhi) as Hn2.
    fold r in Hn1, Hn2.
    assert (Hr : (lo <= r)%Q /\ (r <= hi)%Q).
    { revert Hn1 Hn2.
      apply (Qabs_case (r - q)); intros H0;
        apply (Qabs_case (lo - q)); intros H1;
        apply (Qabs_case (hi - q)); intros H2 Hn1 Hn2; split; lra. }
    destruct Hr as [Hr1 Hr2].
    pose proof (binary64_bound lo Hlo) as Bl.
    pose proof (binary64_bound hi Hhi) as Bh.
    destruct (Qabs_bounds lo) as [L1 L2]. destruct (Qabs_bounds hi) as [H1 H2].
    destruct (Qle_bool (pow2 1024) (Qabs r)) eqn:Eo.
    + apply Qle_bool_iff in Eo. exfalso. revert Eo.
      apply (Qabs_case r); intros; lra.
    + exists r. split; [reflexivity |]. split; [exact Hr1 | exact Hr2].
Qed.

(** A binary64 value rounds to itself. *)
Lemma round64_exact (q : Q) :
  binary64 q -> exists r, round64 q = Finite r /\ (r == q)%Q.
Proof.
  intros Hq.
  destruct (round64_between q q q Hq Hq (Qle_refl q) (Qle_refl q))
    as (r & Hr & H1 & H2).
  exists r. split; [exact Hr | lra].
Qed.

(** Rounding does not fall below a positive binary64 value its argument
    is not below. *)
Lemma round64_above (lo q : Q) :
  binary64 lo -> (0 < lo)%Q -> (lo <= q)%Q ->
  round64 q = PlusInfinity \/ exists r, round64 q = Finite r /\ (lo <= r)%Q.
Proof.
  intros Hlo Hpos Hl. unfold round64.
  destruct (Qeq_bool q 0) eqn:E.
  - apply Qeq_bool_iff in E. lra.
  - assert (Hq : ~ (q == 0)%Q) by lra.
    set (r := (inject_Z (rne (q / pow2 (ulp_exponent q)))
               * pow2 (ulp_exponent q))%Q).
    pose proof (round_nearest q lo Hq Hlo) as Hn. fold r in Hn.
    assert (Hr : (lo <= r)%Q).
    { revert Hn.
      apply (Qabs_case (r - q)); intros H0;
        apply (Qabs_case (lo - q)); intros H1 Hn; lra. }
    destruct (Qle_bool (pow2 1024) (Qabs r)).
    + assert (H0 : Qle_bool 0 q = true) by (apply Qle_bool_iff; lra).
      rewrite H0. now left.
    + right. exists r. split; [reflexivity | exact Hr].
Qed.

Lemma binary64_integer (n : Z) : (Z.abs n <= 2 ^ 53)%Z -> binary64 (inject_Z n).
Proof.
  intros Hn. destruct (Z.eq_dec (Z.abs n) (2 ^ 53)) as [E | E].
  - exists (n / 2)%Z, 1%Z. split; [| split; [| lia]].
    + assert (Hn2 : n = (2 * (n / 2))%Z).
      { assert (Hmod : (n mod 2 = 0)%Z).
        { destruct (Z.abs_eq_or_opp n) as [H | H]; rewrite H in E.
          - rewrite E. reflexivity.
          - replace n with (- 2 ^ 53)%Z by lia. reflexivity. }
        pose proof (Z.div_mod n 2). lia. }
      rewrite Hn2 at 1. rewrite inject_Z_mult. unfold pow2. rewrite Qpower_1_r.
      ring.
    + assert (Hdiv : (Z.abs (n / 2) = Z.abs n / 2)%Z).
      { destruct (Z.abs_eq_or_opp n) as [H | H]; rewrite H in E |- *.
        - rewrite Z.abs_eq; [reflexivity |]. apply Z.div_pos; lia.
        - replace n with (- 2 ^ 53)%Z by lia. reflexivity. }
      rewrite Hdiv, E. reflexivity.
  - exists n, 0%Z. split; [| split; [lia | lia]].
    unfold pow2. rewrite Qpower_0_r. ring.
Qed.

Lemma binary64_Qeq (x y : Q) : (x == y)%Q -> binary64 x -> binary64 y.
Proof.
  intros Hxy (m & e & Hx & Hm & He). exists m, e.
  split; [now rewrite <- Hxy | now split].
Qed.

(** The sum of two numbers whose exact sum is a whole number of at most
    [2^53] in magnitude is exact. *)
Lemma plus_exact (x y : Q) (n : Z) :
  (x + y == inject_Z n)%Q -> (Z.abs n <= 2 ^ 53)%Z ->
  exists r, plus (Finite x) (Finite y) = Finite r /\ (r == inject_Z n)%Q.
Proof.
  intros Hsum Hn. cbn [plus].
  destruct (round64_exact (x + y)) as (r & Hr & Heq).
  - apply (binary64_Qeq (inject_Z n)); [now symmetry | now apply binary64_integer].
  - exists r. split; [exact Hr | now rewrite Heq].
Qed.

(** ** Binary64: rounding is monotone *)

Lemma Qabs_fraction (q : Q) :
  (Qabs q == inject_Z (Z.abs (Qnum q)) / inject_Z (Zpos (Qden q)))%Q.
Proof.
  destruct q as [n d]. simpl. unfold Qabs, Qdiv, Qeq. simpl.
  rewrite Z.mul_1_r. destruct n; simpl; try lia.
Qed.

(** [ilog2] is the exponent of the magnitude of its argument. *)
Lemma ilog2_lt (q : Q) : ~ (q == 0)%Q -> (Qabs q < pow2 (ilog2 q + 1))%Q.
Proof.
  intros Hq. unfold ilog2.
  set (a := Z.abs (Qnum q)). set (b := Zpos (Qden q)).
  destruct (Qle_bool (pow2 (Z.log2 a - Z.log2 b)) (Qabs q)) eqn:E.
  - clear E.
    assert (Ha : (0 < a)%Z).
    { subst a. destruct q as [n d]. unfold Qeq in Hq. simpl in *. lia. }
    assert (Hb : (0 < b)%Z) by (subst b; lia).
    destruct (Z.log2_spec a Ha) as [_ Ha2].
    destruct (Z.log2_spec b Hb) as [Hb1 _].
    pose proof (Z.log2_nonneg a) as Hla. pose proof (Z.log2_nonneg b) as Hlb.
    rewrite Qabs_fraction. fold a b.
    assert (Hbq : (0 < inject_Z b)%Q) by (rewrite <- (Zlt_Qlt 0); exact Hb).
    apply Qlt_shift_div_r; [exact Hbq |].
    apply Qlt_le_trans with (inject_Z (2 ^ Z.succ (Z.log2 a))).
    + rewrite <- Zlt_Qlt. exact Ha2.
    + rewrite <- pow2_Z by lia.
      replace (Z.succ (Z.log2 a)) with (Z.log2 a - Z.log2 b + 1 + Z.log2 b)%Z by lia.
      rewrite (pow2_plus (Z.log2 a - Z.log2 b + 1) (Z.log2 b)).
      rewrite !(Qmult_comm (pow2 (Z.log2 a - Z.log2 b + 1))).
      apply Qmult_le_compat_r; [| apply Qlt_le_weak, pow2_pos].
      rewrite pow2_Z by lia. rewrite <- Zle_Qle. exact Hb1.
  - replace (Z.log2 a - Z.log2 b - 1 + 1)%Z with (Z.log2 a - Z.log2 b)%Z by lia.
    apply Qnot_le_lt. intros H. apply Qle_bool_iff in H. congruence.
Qed.

Lemma ilog2_unique (q : Q) (k : Z) :
  (pow2 k <= Qabs q)%Q -> (Qabs q < pow2 (k + 1))%Q -> ilog2 q = k.
Proof.
  intros Hlo Hhi.
  assert (Hq : ~ (q == 0)%Q).
  { intros H. rewrite H in Hlo. pose proof (pow2_pos k).
    change (Qabs 0) with 0%Q in Hlo. lra. }
  pose proof (ilog2_le q Hq) as H1. pose proof (ilog2_lt q Hq) as H2.
  destruct (Z.lt_trichotomy (ilog2 q) k) as [Hlt | [Heq | Hgt]]; [| exact Heq |].
  - pose proof (pow2_le (ilog2 q + 1) k ltac:(lia)). lra.
  - pose proof (pow2_le (k + 1) (ilog2 q) ltac:(lia)). lra.
Qed.

Lemma ilog2_Qeq (x y : Q) : (x == y)%Q -> ~ (x == 0)%Q -> ilog2 x = ilog2 y.
Proof.
  intros Hxy Hx. symmetry. apply ilog2_unique.
  - rewrite <- Hxy. now apply ilog2_le.
  - rewrite <- Hxy. now apply ilog2_lt.
Qed.

Lemma rne_Qeq (x y : Q) : (x == y)%Q -> rne x = rne y.
Proof.
  intros Hxy. unfold rne. rewrite (Qfloor_comp x y Hxy).
  assert (Hc : ((x - inject_Z (Qfloor y) ?= 1 # 2) =
                (y - inject_Z (Qfloor y) ?= 1 # 2))%Q).
  { apply Qcompare_comp; [now rewrite Hxy | reflexivity]. }
  now rewrite Hc.
Qed.

Lemma rounded_Qeq (x y : Q) :
  (x == y)%Q -> ~ (x == 0)%Q -> (rounded x == rounded y)%Q.
Proof.
  intros Hxy Hx. unfold rounded, ulp_exponent.
  rewrite (ilog2_Qeq x y Hxy Hx).
  rewrite (rne_Qeq (x / pow2 (Z.max (ilog2 y - 52) (-1074)))
             (y / pow2 (Z.max (ilog2 y - 52) (-1074)))); [reflexivity |].
  now rewrite Hxy.
Qed.

Lemma rne_floor (x : Q) : rne x = Qfloor x \/ rne x = (Qfloor x + 1)%Z.
Proof.
  unfold rne. destruct (x - inject_Z (Qfloor x) ?= 1 # 2)%Q;
    [destruct (Z.even (Qfloor x)) | |]; auto.
Qed.

(** What the rounding step gives is representable. *)
Lemma rounded_representable (q : Q) : ~ (q == 0)%Q -> representable (rounded q).
Proof.
  intros Hq. unfold rounded.
  set (u := ulp_exponent q). set (x := (q / pow2 u)%Q).
  pose proof (pow2_pos u) as Hu.
  assert (Hx : (Qabs x < pow2 53)%Q).
  { unfold x, Qdiv. rewrite Qabs_Qmult.
    rewrite (Qabs_pos (/ pow2 u)) by (apply Qinv_le_0_compat; lra).
    apply Qlt_shift_div_r; [exact Hu |].
    eapply Qlt_le_trans; [apply (ilog2_lt q Hq) |].
    rewrite <- pow2_plus. apply pow2_le. unfold u, ulp_exponent. lia. }
  rewrite pow2_Z in Hx by lia.
  assert (Hz : (- 2 ^ 53 <= rne x <= 2 ^ 53)%Z).
  { pose proof (Qfloor_le x) as Hlo. pose proof (Qlt_floor x) as Hhi.
    destruct (Qabs_bounds x) as [B1 B2].
    assert (F1 : (Qfloor x < 2 ^ 53)%Z).
    { rewrite Zlt_Qlt. lra. }
    assert (F2 : (- 2 ^ 53 < Qfloor x + 1)%Z).
    { rewrite Zlt_Qlt, inject_Z_opp. lra. }
    destruct (rne_floor x) as [-> | ->]; lia. }
  destruct (Z.eq_dec (Z.abs (rne x)) (2 ^ 53)) as [E | E].
  - exists (rne x / 2)%Z, (u + 1)%Z. split; [| split].
    + assert (Hhalf : rne x = (2 * (rne x / 2))%Z).
      { destruct (Z.abs_eq_or_opp (rne x)) as [H | H]; rewrite H in E.
        - rewrite E. reflexivity.
        - replace (rne x) with (- 2 ^ 53)%Z by lia. reflexivity. }
      rewrite Hhalf at 1. rewrite inject_Z_mult, pow2_plus.
      unfold pow2 at 3. rewrite Qpower_1_r. ring.
    + destruct (Z.abs_eq_or_opp (rne x)) as [H | H]; rewrite H in E.
      * rewrite E. reflexivity.
      * replace (rne x) with (- 2 ^ 53)%Z by lia. reflexivity.
    + unfold u, ulp_exponent. lia.
  - exists (rne x), u. split; [reflexivity |]. split; [lia |].
    unfold u, ulp_exponent. lia.
Qed.

Lemma representable_0 : representable 0.
Proof. exists 0%Z, 0%Z. split; [reflexivity | split; [reflexivity | lia]]. Qed.

(** The rounding step keeps the sign. *)
Lemma rounded_sign (q : Q) :
  ((0 < q)%Q -> (0 <= rounded q)%Q) /\ ((q < 0)%Q -> (rounded q <= 0)%Q).
Proof.
  split; intros Hs.
  - pose proof (rounded_nearest q 0 ltac:(lra) representable_0) as Hn.
    revert Hn. apply (Qabs_case (rounded q - q)); intros H0;
      apply (Qabs_case (0 - q)); intros H1 Hn; lra.
  - pose proof (rounded_nearest q 0 ltac:(lra) representable_0) as Hn.
    revert Hn. apply (Qabs_case (rounded q - q)); intros H0;
      apply (Qabs_case (0 - q)); intros H1 Hn; lra.
Qed.

(** The rounding step is monotone. *)
Lemma rounded_mono (x y : Q) :
  ~ (x == 0)%Q -> ~ (y == 0)%Q -> (x <= y)%Q -> (rounded x <= rounded y)%Q.
Proof.
  intros Hx Hy Hxy.
  destruct (Qlt_le_dec (rounded y) (rounded x)) as [Hgt | Hle]; [| exact Hle].
  exfalso.
  pose proof (rounded_nearest x (rounded y) Hx (rounded_representable y Hy)) as H1.
  pose proof (rounded_nearest y (rounded x) Hy (rounded_representable x Hx)) as H2.
  assert (Heq : (x == y)%Q).
  { revert H1 H2.
    apply (Qabs_case (rounded x - x)); intros A1;
      apply (Qabs_case (rounded y - x)); intros A2;
      apply (Qabs_case (rounded y - y)); intros A3;
      apply (Qabs_case (rounded x - y)); intros A4 H1 H2; lra. }
  pose proof (rounded_Qeq x y Heq Hx). lra.
Qed.

Lemma round64_rounded (q : Q) :
  ~ (q == 0)%Q ->
  round64 q =
    if Qle_bool (pow2 1024) (Qabs (rounded q))
    then (if Qle_bool 0 q then PlusInfinity else MinusInfinity)
    else Finite (rounded q).
Proof.
  intros Hq. unfold round64.
  destruct (Qeq_bool q 0) eqn:E; [| reflexivity].
  apply Qeq_bool_iff in E. contradiction.
Qed.

Lemma round64_zero (q : Q) : (q == 0)%Q -> round64 q = Finite 0.
Proof.
  intros Hq. unfold round64. apply Qeq_bool_iff in Hq. now rewrite Hq.
Qed.

(** Rounding to binary64 is monotone. *)
Lemma round64_mono (x y : Q) : (x <= y)%Q -> below (round64 x) (round64 y).
Proof.
  intros Hxy.
  pose proof (pow2_pos 1024) as Hbig.
  assert (Hcases : forall q, ~ (q == 0)%Q ->
            (round64 q = PlusInfinity /\ (0 < q)%Q /\ (pow2 1024 <= rounded q)%Q) \/
            (round64 q = MinusInfinity /\ (q < 0)%Q /\ (rounded q <= - pow2 1024)%Q) \/
            (round64 q = Finite (rounded q) /\
             (- pow2 1024 < rounded q)%Q /\ (rounded q < pow2 1024)%Q)).
  { intros q Hq. rewrite (round64_rounded q Hq).
    destruct (rounded_sign q) as [Hp Hn].
    destruct (Qle_bool (pow2 1024) (Qabs (rounded q))) eqn:E.
    - apply Qle_bool_iff in E.
      destruct (Qle_bool 0 q) eqn:S.
      + apply Qle_bool_iff in S. left. split; [reflexivity |].
        assert (Hpos : (0 < q)%Q) by lra. split; [exact Hpos |].
        specialize (Hp Hpos). rewrite Qabs_pos in E by exact Hp. exact E.
      + right. left. split; [reflexivity |].
        assert (Hneg : (q < 0)%Q).
        { apply Qnot_le_lt. intros H. apply Qle_bool_iff in H. congruence. }
        split; [exact Hneg |].
        specialize (Hn Hneg). rewrite Qabs_neg in E by exact Hn. lra.
    - right. right. split; [reflexivity |].
      assert (Hlt : (Qabs (rounded q) < pow2 1024)%Q).
      { apply Qnot_le_lt. intros H. apply Qle_bool_iff in H. congruence. }
      revert Hlt. apply (Qabs_case (rounded q)); intros; split; lra. }
  destruct (Qeq_dec x 0) as [X0 | X0], (Qeq_dec y 0) as [Y0 | Y0].
  - rewrite (round64_zero x X0), (round64_zero y Y0). cbn [below]. lra.
  - rewrite (round64_zero x X0).
    destruct (rounded_sign y) as [Hp _].
    destruct (Hcases y Y0) as [(-> & _) | [(-> & Hn & _) | (-> & _)]];
      cbn [below]; [exact I | lra | apply Hp; lra].
  - rewrite (round64_zero y Y0).
    destruct (rounded_sign x) as [_ Hn].
    destruct (Hcases x X0) as [(-> & Hp & _) | [(-> & _) | (-> & _)]];
      cbn [below]; [lra | exact I | apply Hn; lra].
  - pose proof (rounded_mono x y X0 Y0 Hxy) as Hm.
    destruct (Hcases x X0) as [(-> & Hx1 & Hx2) | [(-> & Hx1 & Hx2) | (-> & Hx1 & Hx2)]];
      destruct (Hcases y Y0) as [(-> & Hy1 & Hy2) | [(-> & Hy1 & Hy2) | (-> & Hy1 & Hy2)]];
      cbn [below]; try exact I; try lra.
Qed.

(** ** Binary64: the sums of aggregateFlows *)

Lemma total_snoc (pick : Flow JsValue -> JsValue) (flows : list (Flow JsValue))
  (f : Flow JsValue) :
  total pick (flows ++ [f]) =
    plus (total pick flows) (Finite (finite_or (pick f) 0)).
Proof. unfold total. now rewrite fold_left_app. Qed.

(** Counts that stay within [2^53] are summed exactly. *)
Lemma total_exact (pick : Flow JsValue -> JsValue) (flows : list (Flow JsValue)) :
  Forall (fun f => counted (pick f)) flows ->
  (Qsum (List.map (fun f => number (pick f)) flows) <= inject_Z (2 ^ 53))%Q ->
  exists q n,
    total pick flows = Finite q /\ (q == inject_Z n)%Q /\ (0 <= n)%Z /\
    (q == Qsum (List.map (fun f => number (pick f)) flows))%Q.
Proof.
  induction flows as [| f rest IH] using rev_ind; intros Hall Hsum.
  - exists 0%Q, 0%Z. split; [reflexivity |]. split; [reflexivity |].
    split; [lia | reflexivity].
  - apply Forall_app in Hall as [Hrest Hf].
    inversion Hf as [| ? ? (v & Hv0 & Hv) _]; subst.
    rewrite map_app, Qsum_app in Hsum. cbn [List.map] in Hsum.
    unfold number in Hsum at 2.
    assert (Hlast : (Qsum [finite_or (pick f) 0] == inject_Z v)%Q).
    { unfold Qsum. cbn [fold_right]. rewrite Hv. ring. }
    rewrite Hlast in Hsum.
    assert (Hv0q : (0 <= inject_Z v)%Q) by (rewrite <- (Zle_Qle 0); exact Hv0).
    destruct (IH Hrest) as (q & n & Hq & Hqn & Hn0 & Hqs); [lra |].
    assert (Hbound : (n + v <= 2 ^ 53)%Z).
    { rewrite Zle_Qle, inject_Z_plus, <- Hqn, Hqs. exact Hsum. }
    destruct (plus_exact q (finite_or (pick f) 0) (n + v)) as (r & Hr & Heq).
    + rewrite inject_Z_plus, Hqn, Hv. reflexivity.
    + lia.
    + exists r, (n + v)%Z. rewrite total_snoc, Hq.
      split; [exact Hr |]. split; [exact Heq |]. split; [lia |].
      rewrite map_app, Qsum_app. cbn [List.map]. unfold number at 2.
      rewrite Hlast, Heq, inject_Z_plus, <- Hqn, Hqs. reflexivity.
Qed.

Lemma accumulate_skip64 (map : JsMap (Flow Number)) (flow : Flow JsValue) :
  located flow = false -> accumulate map flow = map.
Proof.
  unfold located, accumulate. intros H.
  destruct (Number_isFinite (lat flow)), (Number_isFinite (lon flow));
    try discriminate H; reflexivity.
Qed.

Lemma accumulate_get64 (k : string) (map : JsMap (Flow Number))
  (flow : Flow JsValue) :
  Map_get k (accumulate map flow) = step_key k (Map_get k map) flow.
Proof.
  unfold step_key, accumulate.
  destruct (Number_isFinite (lat flow)), (Number_isFinite (lon flow));
    cbn [negb orb andb]; try reflexivity.
  destruct (String.eqb_spec (flowKey flow) k) as [<- | Hne].
  - rewrite Map_get_set_eq. reflexivity.
  - now rewrite Map_get_set_ne.
Qed.

Lemma fold_accumulate_get64 (k : string) (flows : list (Flow JsValue))
  (map : JsMap (Flow Number)) :
  Map_get k (fold_left accumulate flows map) =
    fold_left (step_key k) flows (Map_get k map).
Proof.
  revert map. induction flows as [| flow rest IH]; intros map; cbn [fold_left].
  - reflexivity.
  - now rewrite IH, accumulate_get64.
Qed.

(** The slot of a key holds the sums, in input order, of the flows that
    feed it. *)
Lemma fold_step_key_some64 (k : string) (flows : list (Flow JsValue))
  (c : Flow Number) :
  exists c',
    fold_left (step_key k) flows (Some c) = Some c' /\
    direction c' = direction c /\ ip c' = ip c /\
    mb_s c' =
      fold_left (fun acc f => plus acc (Finite (finite_or (mb_s f) 0)))
        (feeding k flows) (mb_s c) /\
    bytes c' =
      fold_left (fun acc f => plus acc (Finite (finite_or (bytes f) 0)))
        (feeding k flows) (bytes c).
Proof.
  revert c. induction flows as [| flow rest IH]; intros c; cbn [fold_left].
  - exists c. unfold feeding. cbn. now repeat split.
  - unfold step_key at 2, feeding. cbn [List.filter]. unfold located.
    destruct ((Number_isFinite (lat flow) && Number_isFinite (lon flow))
              && String.eqb (flowKey flow) k).
    + match goal with
      | |- context [fold_left (step_key k) rest (Some ?c1)] =>
          destruct (IH c1) as (c' & Hfold & Hd & Hi & Hm & Hb)
      end.
      exists c'. split; [exact Hfold |]. split; [exact Hd |].
      split; [exact Hi |]. split; [exact Hm | exact Hb].
    + apply IH.
Qed.

Lemma fold_step_key_none64 (k : string) (flows : list (Flow JsValue)) :
  match feeding k flows with
  | [] => fold_left (step_key k) flows None = None
  | first :: _ =>
      exists c',
        fold_left (step_key k) flows None = Some c' /\
        direction c' = direction first /\ ip c' = ip first /\
        mb_s c' = total mb_s (feeding k flows) /\
        bytes c' = total bytes (feeding k flows)
  end.
Proof.
  induction flows as [| flow rest IH]; cbn [fold_left]; [reflexivity |].
  unfold step_key at 2 4, feeding. cbn [List.filter]. unfold located.
  destruct ((Number_isFinite (lat flow) && Number_isFinite (lon flow))
            && String.eqb (flowKey flow) k).
  - match goal with
    | |- context [fold_left (step_key k) rest (Some ?c1)] =>
        destruct (fold_step_key_some64 k rest c1)
          as (c' & Hfold & Hd & Hi & Hm & Hb)
    end.
    exists c'. split; [exact Hfold |]. split; [exact Hd |].
    split; [exact Hi |]. split; [exact Hm | exact Hb].
  - exact IH.
Qed.

(** Keys are distinct, every entry sits under the key of its own
    direction and ip, and carries the direction of a located input
    flow. *)
Lemma fold_accumulate_shape64 (flows : list (Flow JsValue)) :
  NoDup (Map_keys (fold_left accumulate flows [])) /\
  forall k c,
    In (k, c) (fold_left accumulate flows []) ->
    flowKey c = k /\
    exists f, In f flows /\ located f = true /\ direction c = direction f.
Proof.
  induction flows as [| flow rest [IHnd IHkey]] using rev_ind.
  - split; [constructor | intros k c []].
  - rewrite fold_left_app. cbn [fold_left].
    set (map := fold_left accumulate rest []) in *.
    assert (Hold : forall k c, In (k, c) map ->
              flowKey c = k /\
              exists f, In f (rest ++ [flow]) /\ located f = true /\
                        direction c = direction f).
    { intros k c Hin. destruct (IHkey k c Hin) as (Hk & f & Hf & Hrest).
      split; [exact Hk |]. exists f. split; [apply in_or_app; now left | exact Hrest]. }
    destruct (located flow) eqn:L.
    + assert (Hset : accumulate map flow =
                Map_set (flowKey flow)
                  (let current := match Map_get (flowKey flow) map with
                                  | Some found => found
                                  | None => fresh flow
                                  end in
                   mkFlow (direction current) (ip current) (lat current)
                     (lon current)
                     (plus (mb_s current) (Finite (finite_or (mb_s flow) 0)))
                     (plus (bytes current) (Finite (finite_or (bytes flow) 0)))
                     (Math_max (or_zero (fade current))
                        (Finite (finite_or (fade flow) 1)))) map).
      { unfold accumulate. unfold located in L.
        destruct (Number_isFinite (lat flow)), (Number_isFinite (lon flow));
          try discriminate L. reflexivity. }
      rewrite Hset. split; [now apply Map_set_NoDup |].
      intros k c Hin. apply Map_In_set in Hin as [[-> ->] | Hin];
        [| exact (Hold _ _ Hin)].
      destruct (Map_get (flowKey flow) map) as [found |] eqn:G.
      * apply Map_get_In in G. exact (Hold _ _ G).
      * split; [reflexivity |]. exists flow.
        split; [apply in_or_app; right; now left |]. split; [exact L | reflexivity].
    + rewrite accumulate_skip64 by exact L. split; [exact IHnd | exact Hold].
Qed.

Lemma keyed_filter64 (k : string) (map : JsMap (Flow Number)) :
  NoDup (Map_keys map) ->
  (forall k' c, In (k', c) map -> flowKey c = k') ->
  List.filter (fun c => String.eqb (flowKey c) k) (Map_values map) =
    match Map_get k map with
    | Some c => [c]
    | None => []
    end.
Proof.
  induction map as [| [k0 c0] rest IH]; intros Hnd Hkey; [reflexivity |].
  cbn [Map_values List.map snd List.filter Map_get].
  apply NoDup_cons_iff in Hnd as [Hnotin Hnd].
  change (~ In k0 (Map_keys rest)) in Hnotin.
  assert (Hrest : forall k' c, In (k', c) rest -> flowKey c = k').
  { intros k' c' H. apply Hkey. now right. }
  rewrite (Hkey k0 c0) by now left.
  rewrite (String.eqb_sym k0 k).
  destruct (String.eqb_spec k k0) as [-> | Hne].
  - fold (Map_values rest). rewrite (IH Hnd Hrest).
    apply Map_get_None in Hnotin. now rewrite Hnotin.
  - exact (IH Hnd Hrest).
Qed.

Lemma aggregateFlows_perm64 (flows : list (Flow JsValue)) :
  Permutation (aggregateFlows flows) (Map_values (fold_left accumulate flows [])).
Proof. apply Array_sort_perm. Qed.

(** C1. Byte conservation, in the arithmetic of the code: over input
    flows that have a direction of the data model and finite [lat], [lon],
    [mb_s] and [bytes], each identity key (direction, ip) that occurs in
    the input has exactly one aggregated entry.  Its [bytes] is the sum the code takes of the [bytes] of the
    input entries with that key: from 0, in input order, every addition
    rounded to binary64; and so is its [mb_s].  When the byte counts of
    these entries are whole numbers that are not negative and add up to
    at most [2^53], [bytes] is their exact sum: no byte is dropped or
    counted twice. *)
Theorem aggregateFlows_sums_in_order (flows : list (Flow JsValue))
  (d i : string) :
  Forall (fun f => is_direction (direction f) /\ measured f) flows ->
  (exists f, In f flows /\ has_identity d i f = true) ->
  exists a,
    List.filter (has_identity d i) (Binary64.aggregateFlows flows) = [a] /\
    bytes a = Binary64.total bytes (List.filter (has_identity d i) flows) /\
    mb_s a = Binary64.total mb_s (List.filter (has_identity d i) flows) /\
    (Forall (fun f => Binary64.counted (bytes f))
       (List.filter (has_identity d i) flows) ->
     (Qsum (List.map (fun f => number (bytes f))
              (List.filter (has_identity d i) flows)) <= inject_Z (2 ^ 53))%Q ->
     exists q,
       bytes a = Binary64.Finite q /\
       (q == Qsum (List.map (fun f => number (bytes f))
                     (List.filter (has_identity d i) flows)))%Q).
Proof.
  intros Hall (f0 & Hin0 & Hid0).
  rewrite Forall_forall in Hall.
  assert (Hd : is_direction d).
  { unfold has_identity in Hid0. apply andb_prop in Hid0 as [E _].
    apply String.eqb_eq in E. rewrite <- E. now apply Hall. }
  destruct (fold_accumulate_shape64 flows) as [Hnd Hkey].
  assert (Hslot : List.filter (has_identity d i) (aggregateFlows flows) =
            match Map_get (d +:+ "-" +:+ i) (fold_left accumulate flows []) with
            | Some c => [c]
            | None => []
            end).
  { assert (Hperm := Permutation_filter (has_identity d i) _ _
                       (aggregateFlows_perm64 flows)).
    rewrite (filter_ext_in (has_identity d i)
               (fun c => String.eqb (flowKey c) (d +:+ "-" +:+ i))
               (Map_values (fold_left accumulate flows []))) in Hperm.
    - rewrite (keyed_filter64 _ _ Hnd) in Hperm
        by (intros k' c' H; now apply Hkey).
      destruct (Map_get (d +:+ "-" +:+ i) (fold_left accumulate flows [])).
      + apply Permutation_length_1_inv. now symmetry.
      + apply Permutation_nil. now symmetry.
    - intros c Hc. apply Map_values_In in Hc as [k Hc].
      destruct (Hkey _ _ Hc) as (_ & f & Hf & _ & Hdir).
      apply has_identity_flowKey; [exact Hd |].
      rewrite Hdir. now apply Hall. }
  rewrite Hslot.
  assert (Hfeed : feeding (d +:+ "-" +:+ i) flows =
                  List.filter (has_identity d i) flows).
  { unfold feeding. apply filter_ext_in. intros f Hf.
    destruct (Hall f Hf) as (Hdir & Hlat & Hlon & _).
    unfold located. rewrite Hlat, Hlon. cbn [andb]. symmetry.
    now apply has_identity_flowKey. }
  rewrite fold_accumulate_get64. cbn [Map_get].
  pose proof (fold_step_key_none64 (d +:+ "-" +:+ i) flows) as Hfold.
  rewrite Hfeed in Hfold.
  destruct (List.filter (has_identity d i) flows) as [| first rest] eqn:Hfilter.
  - exfalso. assert (Hin : In f0 (List.filter (has_identity d i) flows)).
    { apply filter_In. now split. }
    now rewrite Hfilter in Hin.
  - destruct Hfold as (c & -> & _ & _ & Hm & Hb).
    exists c. split; [reflexivity |]. split; [exact Hb |]. split; [exact Hm |].
    intros Hcounted Hsum.
    destruct (total_exact bytes (first :: rest) Hcounted Hsum)
      as (q & n & Hq & _ & _ & Hqs).
    exists q. split; [now rewrite Hb | exact Hqs].
Qed.

(** ** Binary64: every byte is kept while the total stays within 2^53 *)

Lemma valueOf_bound {V : Type} (g : V -> Q) (k : string) (c : V) (m : JsMap V) :
  Forall (fun kc => (0 <= g (snd kc))%Q) m ->
  Map_get k m = Some c ->
  (g c <= Qsum (List.map g (Map_values m)))%Q.
Proof.
  intros Hall. unfold Qsum.
  induction Hall as [| [k0 c0] rest H0 Hrest IH]; cbn [Map_get]; [discriminate |].
  cbn [snd] in H0. cbn [Map_values List.map snd fold_right].
  assert (Hsum : (0 <= fold_right Qplus 0 (List.map g (List.map snd rest)))%Q).
  { apply (Qsum_nonneg (List.map g (List.map snd rest))).
    apply Forall_forall. intros x Hx.
    apply in_map_iff in Hx as (c1 & <- & Hc1).
    apply in_map_iff in Hc1 as ([k1 c2] & <- & Hin).
    rewrite Forall_forall in Hrest. exact (Hrest _ Hin). }
  destruct (String.eqb k k0).
  - intros [= ->]. lra.
  - intros Hget. specialize (IH Hget). unfold Map_values in IH. lra.
Qed.

(** The map after the flows [done]: every [bytes] is a whole number that
    is not negative, and they add up to the bytes of the located flows. *)
Lemma fold_accumulate_counts (flows : list (Flow JsValue)) :
  Forall (fun f => counted (bytes f)) (List.filter located flows) ->
  (Qsum (List.map (fun f => number (bytes f)) (List.filter located flows))
   <= inject_Z (2 ^ 53))%Q ->
  Forall
    (fun kc => exists q n,
       bytes (snd kc) = Finite q /\ (q == inject_Z n)%Q /\ (0 <= n)%Z)
    (fold_left accumulate flows []) /\
  (Qsum (List.map (fun c => valueOf (bytes c))
           (Map_values (fold_left accumulate flows [])))
   == Qsum (List.map (fun f => number (bytes f)) (List.filter located flows)))%Q.
Proof.
  induction flows as [| flow rest IH] using rev_ind; intros Hall Hsum.
  - split; [constructor | reflexivity].
  - rewrite filter_app in Hall, Hsum |- *. rewrite fold_left_app. cbn [fold_left].
    apply Forall_app in Hall as [Hrest Hflow].
    rewrite map_app, Qsum_app in Hsum |- *.
    set (map := fold_left accumulate rest []) in *.
    destruct (located flow) eqn:L; cbn [List.filter] in *; rewrite L in *.
    + inversion Hflow as [| ? ? (v & Hv0 & Hv) _]; subst.
      cbn [List.map] in Hsum |- *.
      assert (Hlast : (Qsum [number (bytes flow)] == inject_Z v)%Q).
      { unfold Qsum, number. cbn [fold_right]. rewrite Hv. ring. }
      rewrite Hlast in Hsum |- *.
      assert (Hv0q : (0 <= inject_Z v)%Q) by (rewrite <- (Zle_Qle 0); exact Hv0).
      destruct (IH Hrest) as [IHc IHs]; [lra |].
      assert (Hnonneg : Forall (fun kc => (0 <= valueOf (bytes (snd kc)))%Q) map).
      { eapply Forall_impl; [| exact IHc].
        intros kc (q & n & Hq & Hqn & Hn). rewrite Hq. cbn [valueOf].
        rewrite Hqn, <- (Zle_Qle 0). exact Hn. }
      assert (Hset : accumulate map flow =
                Map_set (flowKey flow)
                  (let current := match Map_get (flowKey flow) map with
                                  | Some found => found
                                  | None => fresh flow
                                  end in
                   mkFlow (direction current) (ip current) (lat current)
                     (lon current)
                     (plus (mb_s current) (Finite (finite_or (mb_s flow) 0)))
                     (plus (bytes current) (Finite (finite_or (bytes flow) 0)))
                     (Math_max (or_zero (fade current))
                        (Finite (finite_or (fade flow) 1)))) map).
      { unfold accumulate. unfold located in L.
        destruct (Number_isFinite (lat flow)), (Number_isFinite (lon flow));
          try discriminate L. reflexivity. }
      assert (Hcur : exists q n,
                bytes match Map_get (flowKey flow) map with
                      | Some found => found
                      | None => fresh flow
                      end = Finite q /\
                (q == inject_Z n)%Q /\ (0 <= n)%Z /\
                (q == match Map_get (flowKey flow) map with
                      | Some old => valueOf (bytes old)
                      | None => 0
                      end)%Q /\
                (q <= Qsum (List.map (fun c => valueOf (bytes c))
                              (Map_values map)))%Q).
      { destruct (Map_get (flowKey flow) map) as [found |] eqn:G.
        - pose proof (Map_get_In _ _ _ G) as Hin.
          rewrite Forall_forall in IHc.
          destruct (IHc _ Hin) as (q & n & Hq & Hqn & Hn). cbn [snd] in Hq.
          exists q, n. split; [exact Hq |]. split; [exact Hqn |].
          split; [exact Hn |]. rewrite Hq. cbn [valueOf].
          split; [reflexivity |].
          pose proof (valueOf_bound (fun c => valueOf (bytes c)) _ _ _
                        Hnonneg G) as Hb.
          cbv beta in Hb. rewrite Hq in Hb. exact Hb.
        - exists 0%Q, 0%Z. split; [reflexivity |]. split; [reflexivity |].
          split; [lia |]. split; [reflexivity |].
          apply (Qsum_nonneg
                   (List.map (fun c => valueOf (bytes c)) (Map_values map))).
          apply Forall_forall. intros x Hx.
          apply in_map_iff in Hx as (c1 & <- & Hc1).
          apply in_map_iff in Hc1 as ([k1 c2] & <- & Hin).
          rewrite Forall_forall in Hnonneg. exact (Hnonneg _ Hin). }
      destruct Hcur as (q & n & Hq & Hqn & Hn & Hold & Hle).
      assert (Hbound : (n + v <= 2 ^ 53)%Z).
      { rewrite Zle_Qle, inject_Z_plus, <- Hqn. rewrite IHs in Hle. lra. }
      destruct (plus_exact q (finite_or (bytes flow) 0) (n + v))
        as (r & Hr & Heq).
      { rewrite inject_Z_plus, Hqn, Hv. reflexivity. }
      { lia. }
      rewrite Hset. cbv zeta. rewrite Hq, Hr. split.
      * apply Forall_forall. intros [k c] Hin.
        apply Map_In_set in Hin as [[-> ->] | Hin].
        -- cbn [snd bytes]. exists r, (n + v)%Z.
           split; [reflexivity |]. split; [exact Heq | lia].
        -- rewrite Forall_forall in IHc. exact (IHc _ Hin).
      * match goal with
        | |- context [Map_set ?key ?new map] =>
            pose proof (Map_set_total (fun c => valueOf (bytes c)) key new map)
              as Htotal
        end.
        cbv beta in Htotal.
        change (valueOf (bytes (mkFlow _ _ _ _ _ (Finite r) _))) with r in Htotal.
        rewrite IHs in Htotal.
        rewrite inject_Z_plus, <- Hqn in Heq.
        rewrite <- Hold in Htotal.
        match type of Htotal with
        | (?S + _ == _)%Q => set (after := S) in *
        end.
        lra.
    + rewrite accumulate_skip64 by exact L.
      cbn [List.map] in Hsum |- *.
      assert (Hnil : (Qsum [] == 0)%Q) by reflexivity.
      rewrite Hnil in Hsum |- *.
      destruct (IH Hrest) as [IHc IHs]; [lra |].
      split; [exact IHc | rewrite IHs; ring].
Qed.

(** X9. With byte counts that are whole numbers, none negative, and a
    total over the located flows of at most [2^53], [aggregateFlows]
    neither loses nor invents a byte: every entry has a finite count and
    the counts of the entries add up to the bytes of the located input
    flows. *)
Theorem aggregateFlows_keeps_every_byte (flows : list (Flow JsValue)) :
  Forall (fun f => Binary64.counted (bytes f)) (List.filter located flows) ->
  (Qsum (List.map (fun f => number (bytes f)) (List.filter located flows))
   <= inject_Z (2 ^ 53))%Q ->
  Forall (fun a => exists q, bytes a = Binary64.Finite q)
    (Binary64.aggregateFlows flows) /\
  (Qsum (List.map (fun a => Binary64.valueOf (bytes a))
           (Binary64.aggregateFlows flows))
   == Qsum (List.map (fun f => number (bytes f)) (List.filter located flows)))%Q.
Proof.
  intros Hall Hsum.
  destruct (fold_accumulate_counts flows Hall Hsum) as [Hc Hs].
  split.
  - apply Forall_forall. intros a Hin.
    apply (Permutation_in _ (aggregateFlows_perm64 flows)) in Hin.
    apply Map_values_In in Hin as [k Hin].
    rewrite Forall_forall in Hc.
    destruct (Hc _ Hin) as (q & _ & Hq & _). now exists q.
  - rewrite (Qsum_perm _ _
               (Permutation_map (fun a => valueOf (bytes a))
                  (aggregateFlows_perm64 flows))).
    exact Hs.
Qed.

(** ** Binary64: the CPU average *)

Lemma fold_left_finite (values : list Q) (acc : Number) :
  fold_left (fun acc value => plus acc value) (List.map Finite values) acc =
  fold_left (fun acc value => plus acc (Finite value)) values acc.
Proof.
  revert acc. induction values as [| v rest IH]; intros acc; [reflexivity |].
  cbn [List.map fold_left]. apply IH.
Qed.

Lemma fold_plus_between (lo hi : Z) (perCore : list Q) (k : Z) (acc : Q) :
  (0 <= k)%Z ->
  ((k + Z.of_nat (length perCore)) * Z.max (Z.abs lo) (Z.abs hi) <= 2 ^ 53)%Z ->
  (inject_Z (k * lo) <= acc)%Q -> (acc <= inject_Z (k * hi))%Q ->
  Forall (fun v => (inject_Z lo <= v)%Q /\ (v <= inject_Z hi)%Q) perCore ->
  exists s,
    fold_left (fun acc value => plus acc (Finite value)) perCore (Finite acc)
      = Finite s /\
    (inject_Z ((k + Z.of_nat (length perCore)) * lo) <= s)%Q /\
    (s <= inject_Z ((k + Z.of_nat (length perCore)) * hi))%Q.
Proof.
  intros Hk Hsize Hlo Hhi Hall. revert k acc Hk Hsize Hlo Hhi.
  induction Hall as [| v rest [Hv1 Hv2] _ IH]; intros k acc Hk Hsize Hlo Hhi.
  - exists acc. cbn [fold_left length]. rewrite Z.add_0_r. now split.
  - cbn [fold_left length plus] in *.
    rewrite Nat2Z.inj_succ in Hsize |- *.
    destruct (round64_between (inject_Z ((k + 1) * lo)) (inject_Z ((k + 1) * hi))
                (acc + v)) as (r & Hr & Hr1 & Hr2).
    + apply binary64_integer. nia.
    + apply binary64_integer. nia.
    + replace ((k + 1) * lo)%Z with (k * lo + lo)%Z by ring.
      rewrite inject_Z_plus. lra.
    + replace ((k + 1) * hi)%Z with (k * hi + hi)%Z by ring.
      rewrite inject_Z_plus. lra.
    + rewrite Hr.
      destruct (IH (k + 1)%Z r) as (s & Hs & Hs1 & Hs2);
        [lia | | exact Hr1 | exact Hr2 |].
      * replace (k + 1 + Z.of_nat (length rest))%Z
          with (k + Z.succ (Z.of_nat (length rest)))%Z by lia.
        exact Hsize.
      * exists s. split; [exact Hs |].
        replace (k + Z.succ (Z.of_nat (length rest)))%Z
          with (k + 1 + Z.of_nat (length rest))%Z by lia.
        split; [exact Hs1 | exact Hs2].
Qed.

(** X16. When the snapshot has per-core values that are finite numbers
    and all lie between two whole numbers [lo] and [hi], with the number
    of cores times the larger of [|lo|] and [|hi|] at most [2^53],
    [cpuAverage] is a finite number between [lo] and [hi]: the rounding of
    the sum and of the quotient never carries the average of loads between
    0 and 100 outside 0 to 100. *)
Theorem cpuAverage_between (metrics : option Snapshot) (perCore : list Q)
  (lo hi : Z) :
  perCore <> [] ->
  (Z.of_nat (length perCore) * Z.max (Z.abs lo) (Z.abs hi) <= 2 ^ 53)%Z ->
  Forall (fun v => (inject_Z lo <= v)%Q /\ (v <= inject_Z hi)%Q) perCore ->
  exists average,
    Binary64.cpuAverage metrics (List.map Finite perCore) = Num average /\
    (inject_Z lo <= average)%Q /\ (average <= inject_Z hi)%Q.
Proof.
  intros Hne Hsize Hall. destruct perCore as [| v0 rest]; [congruence |].
  set (perCore := v0 :: rest) in *.
  assert (Hlen : (1 <= Z.of_nat (length perCore))%Z) by (subst perCore; cbn; lia).
  destruct (fold_plus_between lo hi perCore 0 0) as (s & Hs & Hs1 & Hs2);
    [lia | exact Hsize | | | exact Hall |].
  { change (inject_Z (0 * lo)) with 0%Q. lra. }
  { change (inject_Z (0 * hi)) with 0%Q. lra. }
  rewrite Z.add_0_l in Hs1, Hs2.
  rewrite inject_Z_mult in Hs1, Hs2.
  assert (Hn : (0 < inject_Z (Z.of_nat (length perCore)))%Q).
  { rewrite <- (Zlt_Qlt 0). lia. }
  destruct (round64_between (inject_Z lo) (inject_Z hi)
              (s / inject_Z (Z.of_nat (length perCore))))
    as (r & Hr & Hr1 & Hr2).
  - apply binary64_integer. nia.
  - apply binary64_integer. nia.
  - apply Qle_shift_div_l; [exact Hn |]. lra.
  - apply Qle_shift_div_r; [exact Hn |]. lra.
  - exists r. unfold perCore in *.
    change (Binary64.cpuAverage metrics (List.map Finite (v0 :: rest)))
      with (toValue
              (divide
                 (fold_left (fun acc value => plus acc value)
                    (List.map Finite (v0 :: rest)) (Finite 0))
                 (length (List.map Finite (v0 :: rest))))).
    rewrite fold_left_finite, length_map, Hs. cbn [divide]. rewrite Hr.
    split; [reflexivity |]. split; [exact Hr1 | exact Hr2].
Qed.

(** ** Binary64: the swap pulse *)

Lemma round64_number (q : Q) : round64 q <> NotANumber.
Proof.
  unfold round64. destruct (Qeq_bool q 0); [discriminate |].
  destruct (Qle_bool (pow2 1024) _); [| discriminate].
  destruct (Qle_bool 0 q); discriminate.
Qed.

Lemma below_number (a b : Number) :
  below a b -> a <> NotANumber /\ b <> NotANumber.
Proof. destruct a, b; cbn [below]; intros H; try contradiction; split; discriminate. Qed.

Lemma below_top (a : Number) : a <> NotANumber -> below a PlusInfinity.
Proof. destruct a; cbn [below]; intros H; try exact I. contradiction. Qed.

Lemma below_bottom (a : Number) : a <> NotANumber -> below MinusInfinity a.
Proof. destruct a; cbn [below]; intros H; try exact I. contradiction. Qed.

Lemma divide_mono (x y : Q) (n : nat) :
  (0 < n)%nat -> (x <= y)%Q ->
  below (divide (Finite x) n) (divide (Finite y) n).
Proof.
  intros Hn Hxy. cbn [divide]. apply round64_mono.
  assert (Hq : (0 < inject_Z (Z.of_nat n))%Q) by (rewrite <- (Zlt_Qlt 0); lia).
  unfold Qdiv. apply Qmult_le_compat_r; [exact Hxy |].
  apply Qinv_le_0_compat. lra.
Qed.

Lemma times_mono (a b : Number) (c : Q) :
  (0 < c)%Q -> below a b -> below (times a (Finite c)) (times b (Finite c)).
Proof.
  intros Hc Hab.
  assert (E0 : Qeq_bool c 0 = false).
  { destruct (Qeq_bool c 0) eqn:E; [| reflexivity].
    apply Qeq_bool_iff in E. lra. }
  assert (E1 : Qle_bool 0 c = true) by (apply Qle_bool_iff; lra).
  destruct a as [x | | |], b as [y | | |]; cbn [below] in Hab;
    try contradiction; cbn [times]; rewrite ?E0, ?E1; cbn [below]; try exact I.
  - apply round64_mono. apply Qmult_le_compat_r; [exact Hab | lra].
  - apply below_top, round64_number.
  - apply below_bottom, round64_number.
Qed.

Lemma minus_anti (a b : Number) (c : Q) :
  below a b -> below (minus (Finite c) b) (minus (Finite c) a).
Proof.
  intros Hab.
  destruct a as [x | | |], b as [y | | |]; cbn [below] in Hab;
    try contradiction; cbn [minus below]; try exact I.
  - apply round64_mono. lra.
  - apply below_bottom, round64_number.
  - apply below_top, round64_number.
Qed.

Lemma max_mono (a b : Number) (m : Q) :
  below a b -> below (Math_max (Finite m) a) (Math_max (Finite m) b).
Proof.
  intros Hab.
  destruct a as [x | | |], b as [y | | |]; cbn [below] in Hab;
    try contradiction; cbn [Math_max below]; try exact I.
  - apply Q.max_le_compat_l. exact Hab.
  - apply Q.le_max_l.
  - apply Qle_refl.
Qed.

Lemma min_mono (a b : Number) (m : Q) :
  below a b -> below (Math_min (Finite m) a) (Math_min (Finite m) b).
Proof.
  intros Hab.
  destruct a as [x | | |], b as [y | | |]; cbn [below] in Hab;
    try contradiction; cbn [Math_min below]; try exact I.
  - apply Q.min_le_compat_l. exact Hab.
  - apply Q.le_min_l.
  - apply Qle_refl.
Qed.

(** The literals of the swap pulse, as binary64 values. *)
Lemma swapPulse_literals :
  exists longest slope shortest : Q,
    literal (26 # 10) = Finite longest /\
    literal (19 # 10) = Finite slope /\
    literal (6 # 10) = Finite shortest /\
    (longest == 5854679515581645 # 2251799813685248)%Q /\
    (slope == 4278419646001971 # 2251799813685248)%Q /\
    (shortest == 5404319552844595 # 9007199254740992)%Q.
Proof.
  eexists. eexists. eexists.
  split; [vm_compute; reflexivity |].
  split; [vm_compute; reflexivity |].
  split; [vm_compute; reflexivity |].
  split; [reflexivity |]. split; reflexivity.
Qed.

Lemma binary64_fraction (m : Z) (e : Z) (q : Q) :
  (q == inject_Z m * pow2 e)%Q -> (Z.abs m < 2 ^ 53)%Z ->
  (-1074 <= e <= 971)%Z -> binary64 q.
Proof. intros Hq Hm He. exists m, e. now split. Qed.

Lemma swapPulse_monotone (p other : Q) :
  (p <= other)%Q ->
  below (swapPulse (Finite other)) (swapPulse (Finite p)).
Proof.
  intros Hle. unfold swapPulse, clamp.
  destruct swapPulse_literals as (longest & slope & shortest & -> & -> & -> & Hl & Hs & Hh).
  apply min_mono, max_mono, minus_anti, times_mono; [lra |].
  apply divide_mono; [lia | exact Hle].
Qed.

(** X17. The swap pulse, in the arithmetic of the code.  For every finite
    swap percentage the duration is a finite number between 0.6 and 2.6,
    the binary64 values of the literals; it never grows with the
    percentage; it is 2.6 for a percentage of 0 or less; and for a
    percentage between 0 and 100 the clamp leaves the code's expression
    [2.6 - swapPercent / 100 * 1.9] as it is, which is then at least
    0.7. *)
Theorem swapPulse_scale (swapPercent other : Q) :
  exists d,
    swapPulse (Finite swapPercent) = Finite d /\
    (valueOf (literal (6 # 10)) <= d)%Q /\
    (d <= valueOf (literal (26 # 10)))%Q /\
    ((swapPercent <= other)%Q ->
     exists d', swapPulse (Finite other) = Finite d' /\ (d' <= d)%Q) /\
    ((swapPercent <= 0)%Q -> (d == valueOf (literal (26 # 10)))%Q) /\
    ((0 <= swapPercent)%Q -> (swapPercent <= 100)%Q ->
     exists e,
       minus (literal (26 # 10))
         (times (divide (Finite swapPercent) 100) (literal (19 # 10)))
         = Finite e /\
       (d == e)%Q /\ ((7 # 10) <= d)%Q).
Proof.
  assert (Hfinite : forall p, exists d,
            swapPulse (Finite p) = Finite d /\
            (valueOf (literal (6 # 10)) <= d)%Q /\
            (d <= valueOf (literal (26 # 10)))%Q).
  { intros p. unfold swapPulse, clamp.
    destruct swapPulse_literals
      as (longest & slope & shortest & -> & -> & -> & Hl & Hs & Hh).
    cbn [valueOf].
    set (v := minus (Finite longest) (times (divide (Finite p) 100) (Finite slope))).
    assert (Hv : v <> NotANumber).
    { pose proof (minus_anti _ _ longest
                    (times_mono _ _ slope ltac:(lra)
                       (divide_mono p p 100 ltac:(lia) (Qle_refl p)))) as H.
      now apply below_number in H as [H _]. }
    destruct v as [x | | |]; [| | | contradiction]; cbn [Math_max Math_min].
    - exists (Qmin longest (Qmax shortest x)). split; [reflexivity |].
      split; [| apply Q.le_min_l].
      apply Q.min_glb; [lra | apply Q.le_max_l].
    - exists longest. split; [reflexivity |]. split; lra.
    - exists (Qmin longest shortest). split; [reflexivity |].
      split; [| apply Q.le_min_l].
      apply Q.min_glb; lra. }
  destruct (Hfinite swapPercent) as (d & Hd & Hlo & Hhi).
  exists d. split; [exact Hd |]. split; [exact Hlo |]. split; [exact Hhi |].
  split; [| split].
  - intros Hle. destruct (Hfinite other) as (d' & Hd' & _ & _).
    exists d'. split; [exact Hd' |].
    pose proof (swapPulse_monotone swapPercent other Hle) as Hm.
    rewrite Hd, Hd' in Hm. exact Hm.
  - intros Hneg. revert Hd Hlo Hhi. unfold swapPulse, clamp.
    destruct swapPulse_literals
      as (longest & slope & shortest & -> & -> & -> & Hl & Hs & Hh).
    cbn [valueOf]. intros Hd Hlo Hhi.
    assert (Hlong : binary64 longest).
    { apply (binary64_fraction 5854679515581645 (-51)); [| reflexivity | lia].
      rewrite Hl. reflexivity. }
    assert (Ht : below (times (divide (Finite swapPercent) 100) (Finite slope))
                   (Finite 0)).
    { pose proof (times_mono _ _ slope ltac:(lra)
                    (divide_mono swapPercent 0 100 ltac:(lia) Hneg)) as H.
      assert (Hz : times (divide (Finite 0) 100) (Finite slope) = Finite 0).
      { cbn [divide]. rewrite (round64_zero (0 / inject_Z (Z.of_nat 100)))
          by reflexivity.
        cbn [times]. apply round64_zero. ring. }
      now rewrite Hz in H. }
    destruct (times (divide (Finite swapPercent) 100) (Finite slope))
      as [t | | |]; cbn [below] in Ht; try contradiction.
    + cbn [minus] in Hd.
      destruct (round64_above longest (longest - t) Hlong ltac:(lra) ltac:(lra))
        as [E | (r & E & Hr)]; rewrite E in Hd; cbn [Math_max Math_min] in Hd;
        injection Hd as <-.
      * reflexivity.
      * apply Q.min_l. apply Qle_trans with r; [exact Hr | apply Q.le_max_r].
    + cbn [minus Math_max Math_min] in Hd. injection Hd as <-. reflexivity.
  - intros H0 H100. revert Hd Hlo Hhi. unfold swapPulse, clamp.
    destruct swapPulse_literals
      as (longest & slope & shortest & -> & -> & -> & Hl & Hs & Hh).
    cbn [valueOf]. intros Hd Hlo Hhi.
    assert (Hlong : binary64 longest).
    { apply (binary64_fraction 5854679515581645 (-51)); [| reflexivity | lia].
      rewrite Hl. reflexivity. }
    assert (Hslope : binary64 slope).
    { apply (binary64_fraction 4278419646001971 (-51)); [| reflexivity | lia].
      rewrite Hs. reflexivity. }
    assert (Hgap : binary64 (longest - slope)).
    { apply (binary64_fraction 1576259869579674 (-51)); [| reflexivity | lia].
      rewrite Hl, Hs. reflexivity. }
    cbn [divide] in Hd |- *.
    destruct (round64_between 0 1 (swapPercent / inject_Z (Z.of_nat 100)))
      as (x & Ex & Hx0 & Hx1).
    { apply (binary64_integer 0). lia. }
    { apply (binary64_integer 1). lia. }
    { apply Qle_shift_div_l; [reflexivity | lra]. }
    { apply Qle_shift_div_r; [reflexivity |].
      change (inject_Z (Z.of_nat 100)) with 100%Q. lra. }
    rewrite Ex in Hd |- *. cbn [times] in Hd |- *.
    destruct (round64_between 0 slope (x * slope)) as (t & Et & Ht0 & Ht1).
    { apply (binary64_integer 0). lia. }
    { exact Hslope. }
    { apply Qmult_le_0_compat; lra. }
    { rewrite <- (Qmult_1_l slope) at 2. apply Qmult_le_compat_r; lra. }
    rewrite Et in Hd |- *. cbn [minus] in Hd |- *.
    destruct (round64_between (longest - slope) longest (longest - t))
      as (e & Ee & He0 & He1); [exact Hgap | exact Hlong | lra | lra |].
    rewrite Ee in Hd |- *. cbn [Math_max Math_min] in Hd. injection Hd as <-.
    exists e. split; [reflexivity |].
    assert (Hmax : (Qmax shortest e == e)%Q) by (apply Q.max_r; lra).
    assert (Hmin : (Qmin longest (Qmax shortest e) == Qmax shortest e)%Q).
    { apply Q.min_r. rewrite Hmax. exact He1. }
    split; [now rewrite Hmin, Hmax |].
    rewrite Hmin, Hmax. lra.
Qed.

End Binary64Facts.

(** ** The Sankey chart: nodes and links *)

Module SankeyFacts.

Import Sankey.

Lemma key_eqb_eq (a b : nat * nat) : key_eqb a b = true <-> a = b.
Proof.
  destruct a as [a1 a2], b as [b1 b2]. unfold key_eqb. cbn [fst snd].
  rewrite andb_true_iff, !Nat.eqb_eq. split.
  - intros [-> ->]. reflexivity.
  - intros [= -> ->]. split; reflexivity.
Qed.

Lemma LinkMap_get_In (key : nat * nat) (l : Link) (m : LinkMap) :
  LinkMap_get key m = Some l -> In (key, l) m.
Proof.
  induction m as [| [k w] rest IH]; cbn [LinkMap_get]; [discriminate |].
  destruct (key_eqb key k) eqn:E.
  - intros [= ->]. apply key_eqb_eq in E as ->. now left.
  - intros H. right. now apply IH.
Qed.

Lemma LinkMap_set_In (k key : nat * nat) (l v : Link) (m : LinkMap) :
  In (k, l) (LinkMap_set key v m) -> (k = key /\ l = v) \/ In (k, l) m.
Proof.
  induction m as [| [k0 w] rest IH]; cbn [LinkMap_set].
  - intros [[= <- <-] | []]. left. split; reflexivity.
  - destruct (key_eqb key k0) eqn:E.
    + intros [[= <- <-] | Hin].
      * apply key_eqb_eq in E as ->. left. split; reflexivity.
      * right. now right.
    + intros [Hin | Hin].
      * right. now left.
      * destruct (IH Hin) as [Hnew | Hold]; [now left | right; now right].
Qed.

Lemma LinkMap_set_nonempty (key : nat * nat) (v : Link) (m : LinkMap) :
  LinkMap_set key v m <> [].
Proof.
  destruct m as [| [k w] rest]; cbn [LinkMap_set]; [discriminate |].
  destruct (key_eqb key k); discriminate.
Qed.

Lemma key_present (key : nat * nat) (ks : list (nat * nat)) :
  existsb (key_eqb key) ks = true <-> In key ks.
Proof.
  rewrite existsb_exists. split.
  - intros (k & Hin & E). apply key_eqb_eq in E as ->. exact Hin.
  - intros Hin. exists key. split; [exact Hin | now apply key_eqb_eq].
Qed.

(** [set] replaces the value under a key that is there and appends the
    key when it is not. *)
Lemma LinkMap_set_keys (key : nat * nat) (v : Link) (m : LinkMap) :
  List.map fst (LinkMap_set key v m) =
    if existsb (key_eqb key) (List.map fst m)
    then List.map fst m
    else (List.map fst m ++ [key])%list.
Proof.
  induction m as [| [k w] rest IH]; cbn [LinkMap_set List.map fst existsb];
    [reflexivity |].
  destruct (key_eqb key k); cbn [orb List.map fst]; [reflexivity |].
  rewrite IH. now destruct (existsb (key_eqb key) (List.map fst rest)).
Qed.

Lemma LinkMap_set_keeps (k key : nat * nat) (v : Link) (m : LinkMap) :
  In k (List.map fst m) -> In k (List.map fst (LinkMap_set key v m)).
Proof.
  intros Hin. rewrite LinkMap_set_keys.
  destruct (existsb (key_eqb key) (List.map fst m)); [exact Hin |].
  apply in_or_app. now left.
Qed.

Lemma LinkMap_set_has (key : nat * nat) (v : Link) (m : LinkMap) :
  In key (List.map fst (LinkMap_set key v m)).
Proof.
  rewrite LinkMap_set_keys.
  destruct (existsb (key_eqb key) (List.map fst m)) eqn:E.
  - now apply key_present.
  - apply in_or_app. right. now left.
Qed.

Lemma LinkMap_set_distinct (key : nat * nat) (v : Link) (m : LinkMap) :
  NoDup (List.map fst m) -> NoDup (List.map fst (LinkMap_set key v m)).
Proof.
  intros Hm. rewrite LinkMap_set_keys.
  destruct (existsb (key_eqb key) (List.map fst m)) eqn:E; [exact Hm |].
  assert (Hout : ~ In key (List.map fst m)).
  { intros Hin. apply key_present in Hin. congruence. }
  clear E. induction Hm as [| k ks Hk _ IH]; cbn [app].
  - constructor; [intros [] | constructor].
  - constructor.
    + intros Hin. apply in_app_or in Hin as [Hin | [<- | []]].
      * contradiction.
      * apply Hout. now left.
    + apply IH. intros Hin. apply Hout. now right.
Qed.

(** ** The value of a link *)

Lemma or_zero_above (a : Binary64.Number) :
  above_zero a -> Binary64.or_zero a = a.
Proof.
  destruct a as [x | | |]; cbn [above_zero Binary64.or_zero]; try tauto.
  intros Hx. destruct (Qeq_bool x 0) eqn:E; [| reflexivity].
  apply Qeq_bool_iff in E. lra.
Qed.

(** Adding a positive binary64 rate to nothing, or to a value above 0,
    gives a value above 0: the sum is not below the rate. *)
Lemma plus_above (a : Binary64.Number) (v : Q) :
  Binary64.binary64 v -> (0 < v)%Q ->
  a = Binary64.Finite 0 \/ above_zero a ->
  above_zero (Binary64.plus a (Binary64.Finite v)).
Proof.
  intros Hv Hpos Ha.
  assert (Hsum : forall x, (0 <= x)%Q ->
            above_zero (Binary64.plus (Binary64.Finite x) (Binary64.Finite v))).
  { intros x Hx. cbn [Binary64.plus].
    destruct (Binary64Facts.round64_above v (x + v) Hv Hpos) as [-> | (r & -> & Hr)].
    - lra.
    - exact I.
    - cbn [above_zero]. lra. }
  destruct Ha as [-> | Ha]; [apply Hsum; lra |].
  destruct a as [x | | |]; cbn [above_zero] in Ha; try contradiction.
  - apply Hsum. lra.
  - exact I.
Qed.

Lemma joined_get (m : LinkMap) (n : nat) (key : nat * nat) (l : Link) :
  Forall (joined n) m -> LinkMap_get key m = Some l -> above_zero (value l).
Proof.
  intros Hall Hget. apply LinkMap_get_In in Hget.
  rewrite Forall_forall in Hall. now destruct (Hall _ Hget) as (_ & _ & _ & _ & Hv).
Qed.

Lemma addLink_joined (m : LinkMap) (n s t : nat) (v : Q) :
  (s < n)%nat -> (t < n)%nat -> Binary64.binary64 v -> (0 < v)%Q ->
  Forall (joined n) m -> Forall (joined n) (addLink s t v m).
Proof.
  intros Hs Ht Hb Hv Hall. apply Forall_forall. intros [k l] Hin.
  unfold addLink in Hin. apply LinkMap_set_In in Hin as [[-> ->] | Hin].
  - unfold joined. cbn [fst snd source target value].
    split; [reflexivity |]. split; [reflexivity |].
    split; [exact Hs |]. split; [exact Ht |].
    apply plus_above; [exact Hb | exact Hv |].
    destruct (LinkMap_get (s, t) m) as [old |] eqn:Hget; [| now left].
    right. pose proof (joined_get m n (s, t) old Hall Hget) as Hold.
    now rewrite or_zero_above.
  - rewrite Forall_forall in Hall. exact (Hall _ Hin).
Qed.

Lemma joined_grow (m : LinkMap) (n n' : nat) :
  (n <= n')%nat -> Forall (joined n) m -> Forall (joined n') m.
Proof.
  intros Hle Hall. eapply Forall_impl; [| exact Hall].
  intros kl (H1 & H2 & H3 & H4 & H5).
  split; [exact H1 |]. split; [exact H2 |]. split; [lia |]. split; [lia | exact H5].
Qed.

Lemma addLink_In (k : nat * nat) (l : Link) (s t : nat) (v : Q) (m : LinkMap) :
  In (k, l) (addLink s t v m) -> k = (s, t) \/ In (k, l) m.
Proof.
  intros Hin. unfold addLink in Hin.
  apply LinkMap_set_In in Hin as [[-> _] | Hin]; [now left | now right].
Qed.

(** ** The node table *)

Lemma names_app (ns extra : list Node) :
  List.map name (ns ++ extra) = (List.map name ns ++ List.map name extra)%list.
Proof. apply map_app. Qed.

Lemma indexed_inj (b : Builder) (i j : nat) (key : string) :
  indexed b ->
  nth_error (names b) i = Some key -> nth_error (names b) j = Some key -> i = j.
Proof.
  intros Hidx Hi Hj. apply Hidx in Hi, Hj. congruence.
Qed.

Lemma addNode_spec (key lab : string) (b b' : Builder) (i : nat) :
  indexed b -> addNode key lab b = (i, b') ->
  indexed b' /\ nth_error (names b') i = Some key /\
  linkMap b' = linkMap b /\
  exists extra,
    nodes b' = (nodes b ++ extra)%list /\
    Forall (fun node => name node = key /\ label node = lab) extra.
Proof.
  intros Hidx. unfold addNode.
  destruct (Map_get key (nodeIndex b)) as [index |] eqn:Hget.
  - intros [= <- <-]. split; [exact Hidx |].
    split; [now apply Hidx |]. split; [reflexivity |].
    exists []. split; [now rewrite app_nil_r | constructor].
  - intros [= <- <-]. cbn [linkMap nodes].
    assert (Hnames : names {| nodes := (nodes b ++ [{| name := key; label := lab |}])%list;
                              nodeIndex := Map_set key (length (nodes b)) (nodeIndex b);
                              linkMap := linkMap b |}
                     = (names b ++ [key])%list).
    { unfold names. cbn [nodes]. now rewrite map_app. }
    assert (Hlen : length (names b) = length (nodes b)).
    { unfold names. apply length_map. }
    assert (Hlast : nth_error (names b ++ [key]) (length (nodes b)) = Some key).
    { rewrite nth_error_app2 by lia. rewrite Hlen, Nat.sub_diag. reflexivity. }
    split; [| split; [| split]].
    + intros key' j. rewrite Hnames. cbn [nodeIndex].
      destruct (String.eqb_spec key key') as [<- | Hne].
      * rewrite Map_get_set_eq. split.
        { intros [= <-]. exact Hlast. }
        { intros Hj. destruct (Nat.lt_ge_cases j (length (names b))) as [Hlt | Hge].
          - rewrite nth_error_app1 in Hj by exact Hlt.
            apply Hidx in Hj. congruence.
          - rewrite nth_error_app2 in Hj by exact Hge.
            destruct (j - length (names b))%nat as [| d] eqn:Hd.
            + f_equal. lia.
            + destruct d; discriminate Hj. }
      * rewrite Map_get_set_ne by exact Hne. rewrite (Hidx key' j). split.
        { intros Hj. rewrite nth_error_app1; [exact Hj |].
          apply nth_error_Some. congruence. }
        { intros Hj. destruct (Nat.lt_ge_cases j (length (names b))) as [Hlt | Hge].
          - now rewrite nth_error_app1 in Hj by exact Hlt.
          - rewrite nth_error_app2 in Hj by exact Hge.
            destruct (j - length (names b))%nat as [| d].
            + cbn in Hj. congruence.
            + destruct d; discriminate Hj. }
    + rewrite Hnames. exact Hlast.
    + reflexivity.
    + exists [{| name := key; label := lab |}]. split; [reflexivity |].
      constructor; [split; reflexivity | constructor].
Qed.

Lemma names_stable (ns extra : list Node) (i : nat) (key : string) :
  nth_error (List.map name ns) i = Some key ->
  nth_error (List.map name (ns ++ extra)) i = Some key.
Proof.
  intros Hi. rewrite map_app, nth_error_app1; [exact Hi |].
  apply nth_error_Some. congruence.
Qed.

(** One flow of a positive rate: its three nodes, then its two links. *)
Lemma addFlow_spec (b : Builder) (f : LiveFlow) :
  indexed b -> Qle_bool (rate f) 0 = false ->
  exists a p c extra,
    nodes (addFlow b f) = (nodes b ++ extra)%list /\
    indexed (addFlow b f) /\
    nth_error (names (addFlow b f)) a = Some (appNode f) /\
    nth_error (names (addFlow b f)) p = Some (protocolNode f) /\
    nth_error (names (addFlow b f)) c = Some (countryNode f) /\
    linkMap (addFlow b f) =
      addLink p c (rate f) (addLink a p (rate f) (linkMap b)) /\
    Forall
      (fun node =>
         name node = "app:" +:+ label node \/
         name node = "protocol:" +:+ label node \/
         name node = "country:" +:+ label node) extra.
Proof.
  intros Hidx Hpos. unfold addFlow. rewrite Hpos.
  destruct (addNode (appNode f) (appOf f) b) as [a b1] eqn:E1.
  destruct (addNode (protocolNode f) (protocolOf f) b1) as [p b2] eqn:E2.
  destruct (addNode (countryNode f) (countryOf f) b2) as [c b3] eqn:E3.
  destruct (addNode_spec _ _ _ _ _ Hidx E1) as (Hidx1 & Ha & Hl1 & x1 & Hn1 & Hx1).
  destruct (addNode_spec _ _ _ _ _ Hidx1 E2) as (Hidx2 & Hp & Hl2 & x2 & Hn2 & Hx2).
  destruct (addNode_spec _ _ _ _ _ Hidx2 E3) as (Hidx3 & Hc & Hl3 & x3 & Hn3 & Hx3).
  exists a, p, c, (x1 ++ x2 ++ x3)%list.
  assert (Hnodes : nodes b3 = (nodes b ++ x1 ++ x2 ++ x3)%list).
  { rewrite Hn3, Hn2, Hn1, <- !app_assoc. reflexivity. }
  assert (Hnames : names {| nodes := nodes b3; nodeIndex := nodeIndex b3;
                            linkMap := addLink p c (rate f)
                                         (addLink a p (rate f) (linkMap b3)) |}
                   = names b3) by reflexivity.
  split; [exact Hnodes |]. split; [| split; [| split; [| split; [| split]]]].
  - intros key i. rewrite Hnames. apply Hidx3.
  - rewrite Hnames. unfold names in *. rewrite Hn3, Hn2.
    now apply names_stable, names_stable.
  - rewrite Hnames. unfold names in *. rewrite Hn3. now apply names_stable.
  - rewrite Hnames. exact Hc.
  - cbn [linkMap]. now rewrite Hl3, Hl2, Hl1.
  - apply Forall_app. split; [| apply Forall_app; split].
    + eapply Forall_impl; [| exact Hx1]. intros node [-> ->]. now left.
    + eapply Forall_impl; [| exact Hx2]. intros node [-> ->]. right. now left.
    + eapply Forall_impl; [| exact Hx3]. intros node [-> ->]. right. now right.
Qed.

Lemma built_start : built start [].
Proof.
  constructor.
  - intros key i. cbn. destruct i; split; discriminate.
  - constructor.
  - constructor.
  - constructor.
  - constructor.
  - constructor.
  - split; reflexivity.
Qed.

Lemma built_step (b : Builder) (done : list LiveFlow) (f : LiveFlow) :
  built b done -> positive f = true -> Binary64.binary64 (rate f) ->
  built (addFlow b f) (done ++ [f]).
Proof.
  intros [Hidx Hlab Hlinked Hsourced Hcovered Hdistinct Hempty] Hpos Hb.
  assert (Hno : Qle_bool (rate f) 0 = false).
  { unfold positive in Hpos. now apply negb_true_iff in Hpos. }
  assert (Hv : (0 < rate f)%Q) by now apply Qle_bool_false.
  destruct (addFlow_spec b f Hidx Hno)
    as (a & p & c & extra & Hnodes & Hidx' & Ha & Hp & Hc & Hlinks & Hextra).
  assert (Hlen : (length (nodes b) <= length (nodes (addFlow b f)))%nat).
  { rewrite Hnodes, length_app. lia. }
  assert (Hbound : forall i key,
            nth_error (names (addFlow b f)) i = Some key ->
            (i < length (nodes (addFlow b f)))%nat).
  { intros i key Hi. unfold names in Hi.
    rewrite <- (length_map name). apply nth_error_Some. congruence. }
  assert (Hstable : forall i key,
            nth_error (names b) i = Some key ->
            nth_error (names (addFlow b f)) i = Some key).
  { intros i key Hi. unfold names in *. rewrite Hnodes. now apply names_stable. }
  assert (Hmid : Forall (joined (length (nodes (addFlow b f))))
                   (addLink a p (rate f) (linkMap b))).
  { apply addLink_joined; [now apply (Hbound a _ Ha) | now apply (Hbound p _ Hp)
                         | exact Hb | exact Hv |].
    now apply (joined_grow _ (length (nodes b))). }
  constructor.
  - exact Hidx'.
  - unfold labelled. rewrite Hnodes. apply Forall_app. now split.
  - unfold linked. rewrite Hlinks.
    apply addLink_joined; [now apply (Hbound p _ Hp) | now apply (Hbound c _ Hc)
                         | exact Hb | exact Hv | exact Hmid].
  - unfold sourced. rewrite Hlinks. apply Forall_forall. intros [k l] Hin.
    cbn [fst snd].
    apply addLink_In in Hin as [-> | Hin];
      [| apply addLink_In in Hin as [-> | Hin]].
    + exists f. split; [apply in_or_app; right; now left |].
      right. cbn [fst snd]. now split.
    + exists f. split; [apply in_or_app; right; now left |].
      left. cbn [fst snd]. now split.
    + unfold sourced in Hsourced. rewrite Forall_forall in Hsourced.
      destruct (Hsourced _ Hin) as (g & Hg & Hlink). cbn [fst snd] in Hlink.
      exists g. split; [apply in_or_app; now left |].
      destruct Hlink as [[H1 H2] | [H1 H2]]; [left | right];
        (split; apply Hstable; assumption).
  - unfold covered. rewrite Hlinks. apply Forall_app. split.
    + eapply Forall_impl; [| exact Hcovered].
      intros g (a0 & p0 & c0 & H1 & H2 & H3 & H4 & H5).
      exists a0, p0, c0.
      split; [now apply Hstable |]. split; [now apply Hstable |].
      split; [now apply Hstable |].
      split; unfold addLink; now apply LinkMap_set_keeps, LinkMap_set_keeps.
    + constructor; [| constructor]. exists a, p, c.
      split; [exact Ha |]. split; [exact Hp |]. split; [exact Hc |].
      split; unfold addLink.
      * apply LinkMap_set_keeps, LinkMap_set_has.
      * apply LinkMap_set_has.
  - rewrite Hlinks. unfold addLink.
    now apply LinkMap_set_distinct, LinkMap_set_distinct.
  - unfold links. rewrite Hlinks. unfold addLink at 1. split.
    + intros H. apply map_eq_nil in H. now apply LinkMap_set_nonempty in H.
    + intros H. now apply app_eq_nil in H as [_ H].
Qed.

Lemma built_fold (out : list LiveFlow) :
  Forall (fun f => Binary64.binary64 (rate f)) (List.filter positive out) ->
  built (fold_left addFlow out start) (List.filter positive out).
Proof.
  induction out as [| f rest IH] using rev_ind; intros Hall.
  - apply built_start.
  - rewrite filter_app in Hall |- *. apply Forall_app in Hall as [Hrest Hf].
    rewrite fold_left_app. cbn [fold_left List.filter] in Hf |- *.
    destruct (positive f) eqn:Hpos.
    + apply built_step; [now apply IH | exact Hpos | now inversion Hf].
    + rewrite app_nil_r.
      assert (Hsame : addFlow (fold_left addFlow rest start) f =
                      fold_left addFlow rest start).
      { unfold addFlow. unfold positive in Hpos.
        apply negb_false_iff in Hpos. now rewrite Hpos. }
      rewrite Hsame. now apply IH.
Qed.

Lemma filter_sent (liveFlows : list LiveFlow) :
  List.filter positive (List.filter outbound liveFlows) = List.filter sent liveFlows.
Proof.
  induction liveFlows as [| f rest IH]; [reflexivity |].
  cbn [List.filter]. unfold sent at 1.
  destruct (outbound f); cbn [List.filter andb].
  - fold (positive f). destruct (positive f); now rewrite IH.
  - exact IH.
Qed.

Lemma build_built (liveFlows : list LiveFlow) :
  Forall (fun f => Binary64.binary64 (rate f)) (List.filter sent liveFlows) ->
  built (build liveFlows) (List.filter sent liveFlows).
Proof. rewrite <- filter_sent. apply built_fold. Qed.

Lemma sankeyData_links (liveFlows : list LiveFlow) :
  sankeyData liveFlows =
    match links (build liveFlows) with
    | [] => None
    | ls => Some {| data_nodes := nodes (build liveFlows); data_links := ls |}
    end.
Proof. destruct liveFlows; reflexivity. Qed.

(** X24. The Sankey chart of the live flows is made of the outbound
    flows with a positive rate, their rates being binary64 values:
    [sankeyData] is [null] exactly when there is none.  Otherwise no two
    nodes have the same name and every node is an app, a protocol or a
    country labelled with its name; every link joins two nodes of the
    chart with a value above 0, no two links join the same two nodes, and
    every link leads from the app of one of the flows to its protocol or
    from its protocol to its country; every flow has its three nodes, a
    link from its app to its protocol and a link from its protocol to its
    country. *)
Theorem sankeyData_joins_every_flow (liveFlows : list LiveFlow) :
  Forall (fun f => Binary64.binary64 (rate f)) (List.filter sent liveFlows) ->
  match sankeyData liveFlows with
  | None => List.filter sent liveFlows = []
  | Some chart =>
      List.filter sent liveFlows <> [] /\
      NoDup (List.map name (data_nodes chart)) /\
      Forall
        (fun node =>
           name node = "app:" +:+ label node \/
           name node = "protocol:" +:+ label node \/
           name node = "country:" +:+ label node)
        (data_nodes chart) /\
      Forall
        (fun l =>
           (source l < length (data_nodes chart))%nat /\
           (target l < length (data_nodes chart))%nat /\
           above_zero (value l) /\
           exists f,
             In f (List.filter sent liveFlows) /\
             link_of (List.map name (data_nodes chart)) (source l) (target l) f)
        (data_links chart) /\
      NoDup (List.map (fun l => (source l, target l)) (data_links chart)) /\
      Forall
        (fun f =>
           exists a p c,
             nth_error (List.map name (data_nodes chart)) a = Some (appNode f) /\
             nth_error (List.map name (data_nodes chart)) p = Some (protocolNode f) /\
             nth_error (List.map name (data_nodes chart)) c = Some (countryNode f) /\
             joins (data_links chart) a p /\ joins (data_links chart) p c)
        (List.filter sent liveFlows)
  end.
Proof.
  intros Hrates.
  destruct (build_built liveFlows Hrates)
    as [Hidx Hlab Hlinked Hsourced Hcovered Hdistinct Hempty].
  rewrite sankeyData_links.
  destruct (links (build liveFlows)) as [| l ls] eqn:Hlinks.
  - now apply Hempty.
  - cbn [data_nodes data_links].
    split.
    { intros Hnone. apply Hempty in Hnone. congruence. }
    clear Hempty. rewrite <- Hlinks. clear Hlinks l ls.
    unfold linked in Hlinked. rewrite Forall_forall in Hlinked.
    assert (Hjoin : forall s t,
              In (s, t) (List.map fst (linkMap (build liveFlows))) ->
              joins (links (build liveFlows)) s t).
    { intros s t Hin. apply in_map_iff in Hin as ([k l] & Hk & Hin).
      cbn [fst] in Hk. subst k.
      destruct (Hlinked _ Hin) as (Hs & Ht & _). cbn [fst snd] in Hs, Ht.
      exists l. split; [| now split].
      unfold links. apply in_map_iff. now exists ((s, t), l). }
    split.
    { apply NoDup_nth_error. intros i j Hi Hij.
      destruct (nth_error (List.map name (nodes (build liveFlows))) i)
        as [key |] eqn:E; [| apply nth_error_None in E; lia].
      symmetry in Hij. exact (indexed_inj _ _ _ _ Hidx E Hij). }
    split; [exact Hlab |]. split; [| split].
    + unfold links. apply Forall_forall. intros l Hl.
      apply in_map_iff in Hl as ([k l'] & <- & Hin).
      destruct (Hlinked _ Hin) as (Hs & Ht & Hks & Hkt & Hv).
      unfold sourced in Hsourced. rewrite Forall_forall in Hsourced.
      destruct (Hsourced _ Hin) as (f & Hf & Hlink).
      cbn [fst snd] in *. rewrite Hs, Ht.
      split; [exact Hks |]. split; [exact Hkt |]. split; [exact Hv |].
      exists f. now split.
    + unfold links. rewrite map_map.
      rewrite (map_ext_in _ fst); [exact Hdistinct |].
      intros [[s t] l] Hin. destruct (Hlinked _ Hin) as (Hs & Ht & _).
      cbn [fst snd] in *. now rewrite Hs, Ht.
    + eapply Forall_impl; [| exact Hcovered].
      intros f (a & p & c & H1 & H2 & H3 & H4 & H5).
      exists a, p, c.
      split; [exact H1 |]. split; [exact H2 |]. split; [exact H3 |].
      split; now apply Hjoin.
Qed.

End SankeyFacts.

(** ** The flow cache of the copy in src/frontend *)

Module FrontendFacts.

Lemma mergeFlow_slot (nowMs : Z) (k : string) (next : JsMap (Cached JsValue))
  (flow : Flow JsValue) :
  Map_get k (Frontend.mergeFlow nowMs next flow) =
    if String.eqb (cacheKey flow) k
    then Some (mkCached (Frontend.merge (Map_get k next) flow) nowMs)
    else Map_get k next.
Proof.
  unfold Frontend.mergeFlow.
  destruct (String.eqb_spec (cacheKey flow) k) as [<- | Hne].
  - apply Map_get_set_eq.
  - now apply Map_get_set_ne.
Qed.

Lemma fold_mergeFlow_other (nowMs : Z) (k : string)
  (flows : list (Flow JsValue)) (next : JsMap (Cached JsValue)) :
  Forall (fun g => cacheKey g <> k) flows ->
  Map_get k (fold_left (Frontend.mergeFlow nowMs) flows next) = Map_get k next.
Proof.
  intros Hall. revert next. induction Hall as [| g rest Hg _ IH]; intros next.
  - reflexivity.
  - cbn [fold_left]. rewrite IH, mergeFlow_slot.
    destruct (String.eqb_spec (cacheKey g) k); [contradiction | reflexivity].
Qed.

(** X25. In the copy of the component in src/frontend the last record a
    message has for a key decides the coordinates of the cache entry
    whenever the record has them, finite or not: the entry is stamped with
    the arrival time and takes the [lat] and [lon] of that record, so a
    record whose coordinates are null replaces resolved ones. *)
Theorem latest_record_wins (nowMs : Z) (data : Snapshot)
  (prev : JsMap (Cached JsValue)) (before after : list (Flow JsValue))
  (f : Flow JsValue) :
  flows_of data = (before ++ f :: after)%list ->
  Forall (fun g => cacheKey g <> cacheKey f) after ->
  exists c,
    Map_get (cacheKey f) (Frontend.updateFlowCache nowMs data prev) = Some c /\
    lastSeen c = nowMs /\
    (lat f <> Undefined -> lat (entry c) = lat f) /\
    (lon f <> Undefined -> lon (entry c) = lon f).
Proof.
  intros Hflows Hafter. unfold Frontend.updateFlowCache.
  fold (flows_of data). rewrite Hflows, fold_left_app. cbn [fold_left].
  set (mid := fold_left (Frontend.mergeFlow nowMs) before prev).
  exists (mkCached (Frontend.merge (Map_get (cacheKey f) mid) f) nowMs).
  split; [| split; [reflexivity |]].
  - unfold Frontend.prune. apply Map_get_filter.
    + rewrite fold_mergeFlow_other by exact Hafter.
      rewrite mergeFlow_slot, String.eqb_refl. reflexivity.
    + cbn [snd lastSeen]. unfold or_time, Frontend.MAP_LINGER_MS.
      apply negb_true_iff. rewrite Z.gtb_ltb. apply Z.ltb_ge.
      destruct (Z.eqb_spec nowMs 0); lia.
  - cbn [entry]. destruct (Map_get (cacheKey f) mid) as [found |]; cbn [Frontend.merge].
    + split; intros Hpresent.
      * cbn [lat]. destruct (lat f); try reflexivity. contradiction.
      * cbn [lon]. destruct (lon f); try reflexivity. contradiction.
    + split; reflexivity.
Qed.

End FrontendFacts.

(** * Part III. The properties at work on sample inputs *)

Lemma flow_identity_direction_ip_witness :
  Forall (fun f => is_direction (direction f))
    [sample_outbound; sample_inbound] /\
  Forall (fun f => is_direction (direction f))
    (flows_of (snapshot_of_flows [sample_outbound; sample_inbound])) /\
  NoDup (List.map (fun a => (direction a, ip a))
           (aggregateFlows [sample_outbound; sample_inbound])) /\
  (forall f, In f (flows_of (snapshot_of_flows [sample_outbound; sample_inbound])) ->
     exists c,
       Map_get (cacheKey f)
         (updateFlowCache 1000 (snapshot_of_flows [sample_outbound; sample_inbound]) [])
         = Some c /\
       direction (entry c) = direction f /\
       or_string (ip (entry c)) "unknown" = or_string (ip f) "unknown").
Proof.
  assert (H1 : Forall (fun f => is_direction (direction f))
                 [sample_outbound; sample_inbound]).
  { repeat (constructor; [first [left; reflexivity | right; reflexivity] |]).
    constructor. }
  assert (H2 : Forall (fun f => is_direction (direction f))
                 (flows_of (snapshot_of_flows [sample_outbound; sample_inbound]))).
  { exact H1. }
  split; [exact H1 |]. split; [exact H2 |].
  destruct (flow_identity_direction_ip
              [sample_outbound; sample_inbound]
              (snapshot_of_flows [sample_outbound; sample_inbound]) 1000 [] H1 H2)
    as (_ & Hnodup & _ & Hcache).
  split; [exact Hnodup | exact Hcache].
Defined.

(** The claim C3 as worded fails.  The server sends null for the memory
    in use and the dashboard prints the number zero; so it does for the
    rates, the percentages, the operations per second and the CPU average
    the snapshot does not have.  And a CPU total that is not a number
    takes the whole dashboard down, the marker of the temperature with
    it. *)
Lemma unavailable_readings_unmarked :
  field (Some snapshot_unavailable) MemoryUsed = Null /\
  display toFixed_decimal numberToString_decimal StringToNumber_digits
    (Some snapshot_unavailable) MemoryUsed = Some "0 B" /\
  field (Some snapshot_unavailable) DiskRead = Undefined /\
  display toFixed_decimal numberToString_decimal StringToNumber_digits
    (Some snapshot_unavailable) DiskRead = Some "0.00 MB/s" /\
  field (Some snapshot_unavailable) MemoryPercent = Undefined /\
  display toFixed_decimal numberToString_decimal StringToNumber_digits
    (Some snapshot_unavailable) MemoryPercent = Some "0%" /\
  field (Some snapshot_unavailable) DiskReadIops = Undefined /\
  display toFixed_decimal numberToString_decimal StringToNumber_digits
    (Some snapshot_unavailable) DiskReadIops = Some "0 IOPS" /\
  field (Some snapshot_unavailable) CpuAverage = Undefined /\
  display toFixed_decimal numberToString_decimal StringToNumber_digits
    (Some snapshot_unavailable) CpuAverage = Some "0.0%" /\
  field (Some snapshot_busy) CpuTemp = Null /\
  display toFixed_decimal numberToString_decimal StringToNumber_digits
    (Some snapshot_busy) CpuTemp = None.
Proof. repeat split. Qed.

Lemma flowCache_pairs_and_retains_witness :
  Forall (fun m => Forall paired (flows_of (snd m)))
    [(1000%Z, snapshot_of_flows [sample_outbound])] /\
  Forall paired (flows_of (snapshot_of_flows [sample_outbound_unresolved])) /\
  (forall k c,
     In (k, c)
       (flowCache
          (onmessage toLocaleTimeString_epoch 2000
             (snapshot_of_flows [sample_outbound_unresolved])
             (run toLocaleTimeString_epoch
                [(1000%Z, snapshot_of_flows [sample_outbound])]
                (initialState 0)))) ->
     paired (entry c)) /\
  exists e',
    Map_get "outbound-203.0.113.5"
      (flowCache
         (onmessage toLocaleTimeString_epoch 2000
            (snapshot_of_flows [sample_outbound_unresolved])
            (run toLocaleTimeString_epoch
               [(1000%Z, snapshot_of_flows [sample_outbound])]
               (initialState 0)))) = Some e' /\
    lat (entry e') = Num (407 # 10) /\ lon (entry e') = Num (-74).
Proof.
  assert (H1 : Forall (fun m => Forall paired (flows_of (snd m)))
                 [(1000%Z, snapshot_of_flows [sample_outbound])]).
  { repeat constructor. }
  assert (H2 : Forall paired
                 (flows_of (snapshot_of_flows [sample_outbound_unresolved]))).
  { repeat constructor. }
  split; [exact H1 |]. split; [exact H2 |].
  destruct (flowCache_pairs_and_retains toLocaleTimeString_epoch 0
              [(1000%Z, snapshot_of_flows [sample_outbound])] 2000
              (snapshot_of_flows [sample_outbound_unresolved]) H1 H2)
    as [Hpaired Hkeep].
  split; [exact Hpaired |].
  apply (Hkeep "outbound-203.0.113.5" (mkCached sample_outbound 1000)).
  - reflexivity.
  - exists sample_outbound_unresolved. split; [now left | reflexivity].
  - intros f [<- | []] _. split; reflexivity.
Defined.


Lemma unavailable_readings_marked_witness :
  renders toFixed_decimal numberToString_decimal StringToNumber_digits
    (Some snapshot_unavailable) = true /\
  defaulted CpuTemp = false /\
  Number_isFinite (field (Some snapshot_unavailable) CpuTemp) = false /\
  display toFixed_decimal numberToString_decimal StringToNumber_digits
    (Some snapshot_unavailable) CpuTemp = Some "--" /\
  formatBytes toFixed_decimal Infinity = "--".
Proof.
  destruct (unavailable_readings_marked toFixed_decimal numberToString_decimal
              StringToNumber_digits (Some snapshot_unavailable) CpuTemp)
    as (Hmark & _ & _ & Hbare & _).
  split; [reflexivity |]. split; [reflexivity |]. split; [reflexivity |].
  split; [exact (Hbare eq_refl eq_refl eq_refl) |].
  exact (proj1 (Hmark Infinity eq_refl)).
Defined.

(** The sample flows, aggregated: one entry per identity, the busier
    first. *)
Example aggregateFlows_sample :
  List.map (fun a => (direction a, ip a, Qred (bytes a)))
    (aggregateFlows [sample_outbound; sample_inbound; sample_outbound_again]) =
    [("outbound", "203.0.113.5", 2500%Q); ("inbound", "203.0.113.5", 1000%Q)].
Proof. reflexivity. Qed.

(** The summary line of a running capture with an error string. *)
Example captureSummary_sample :
  captureSummary numberToString_decimal
    (Some {| sniffer_running := true; packet_count := 120;
             local_match_count := 80; ignored_count := 40; flow_keys := 3;
             geo_cached := 7; geo_inflight := 1; ifaces := ["en0"];
             sniffer_mode := ""; capture_method := "tcpdump";
             sniffer_error := "permission denied" |}) =
    "Capture: running · Packets: 120 · Local: 80 · Ignored: 40 · Flows: 3 · Geo cache: 7 · Inflight: 1 · Ifaces: en0 · Method: tcpdump · Error: permission denied".
Proof. reflexivity. Qed.

(** The formatters on finite and on unavailable values. *)
Example formatters_sample :
  formatBytes toFixed_decimal (Num 1536) = "1.5 KB" /\
  formatBytes toFixed_decimal Null = "--" /\
  formatRate toFixed_decimal (Num (5 # 4)) = "1.25 MB/s" /\
  formatTemp toFixed_decimal Undefined = "--" /\
  formatCo2 toFixed_decimal (Num 1500) = "1.5000 kg".
Proof. repeat split. Qed.

(** A cached flow seen 5 s ago is handed to the map at three quarters of
    its rate. *)
Example mapFlows_sample :
  List.map (fun flow => (Qred (fade (entry flow)), Qred (bytes (entry flow))))
    (mapFlows [("outbound-203.0.113.5", mkCached sample_outbound 1000)] 6000) =
    [((3 # 4)%Q, 1500%Q)].
Proof. reflexivity. Qed.


Lemma updateFlowCache_untouched_witness :
  NoDup (Map_keys [("outbound-203.0.113.5", mkCached sample_outbound 1000)]) /\
  Forall (fun f => cacheKey f <> "outbound-203.0.113.5")
    (flows_of (snapshot_of_flows [sample_inbound])) /\
  Map_get "outbound-203.0.113.5"
    (updateFlowCache 21000 (snapshot_of_flows [sample_inbound])
       [("outbound-203.0.113.5", mkCached sample_outbound 1000)]) =
    Some (mkCached sample_outbound 1000) /\
  Map_get "outbound-203.0.113.5"
    (updateFlowCache 21001 (snapshot_of_flows [sample_inbound])
       [("outbound-203.0.113.5", mkCached sample_outbound 1000)]) = None.
Proof.
  assert (H1 : NoDup (Map_keys
                 [("outbound-203.0.113.5", mkCached sample_outbound 1000)])).
  { constructor; [intros [] | constructor]. }
  assert (H2 : Forall (fun f => cacheKey f <> "outbound-203.0.113.5")
                 (flows_of (snapshot_of_flows [sample_inbound]))).
  { constructor; [discriminate | constructor]. }
  split; [exact H1 |]. split; [exact H2 |]. split.
  - exact (updateFlowCache_untouched 21000 (snapshot_of_flows [sample_inbound])
             [("outbound-203.0.113.5", mkCached sample_outbound 1000)]
             "outbound-203.0.113.5" H1 H2).
  - exact (updateFlowCache_untouched 21001 (snapshot_of_flows [sample_inbound])
             [("outbound-203.0.113.5", mkCached sample_outbound 1000)]
             "outbound-203.0.113.5" H1 H2).
Defined.


Lemma suggested_question_is_asked_witness :
  "cpu" <> "" /\
  trim_ascii " Why is the CPU busy? " <> "" /\
  exists answer,
    sectionMessages
      (sendSectionQuestion trim_ascii (fun _ => Answered "It is compiling.")
         (Some snapshot_unavailable) "cpu"
         (suggestQuestion " Why is the CPU busy? " "cpu"
            {| activeChatSection := None; sectionMessages := ∅;
               sectionInputs := ∅; sectionLoading := ∅ |})) !! "cpu" =
      Some [ {| role := "user"; content := "Why is the CPU busy?" |};
             {| role := "assistant"; content := answer |} ].
Proof.
  assert (H1 : "cpu" <> "") by discriminate.
  assert (H2 : trim_ascii " Why is the CPU busy? " <> "") by discriminate.
  split; [exact H1 |]. split; [exact H2 |].
  destruct (suggested_question_is_asked trim_ascii
              (fun _ => Answered "It is compiling.")
              (Some snapshot_unavailable) " Why is the CPU busy? " "cpu"
              {| activeChatSection := None; sectionMessages := ∅;
                 sectionInputs := ∅; sectionLoading := ∅ |} H1 H2)
    as (_ & _ & _ & _ & _ & answer & Hanswer).
  exists answer. exact Hanswer.
Defined.

Lemma latest_record_wins_witness :
  flows_of (snapshot_of_flows [sample_outbound_unresolved]) =
    ([] ++ sample_outbound_unresolved :: [])%list /\
  Forall (fun g => cacheKey g <> cacheKey sample_outbound_unresolved) [] /\
  exists c,
    Map_get "outbound-203.0.113.5"
      (Frontend.updateFlowCache 2000
         (snapshot_of_flows [sample_outbound_unresolved])
         [("outbound-203.0.113.5", mkCached sample_outbound 1000)]) = Some c /\
    lastSeen c = 2000%Z /\ lat (entry c) = Null /\ lon (entry c) = Null.
Proof.
  assert (H1 : flows_of (snapshot_of_flows [sample_outbound_unresolved]) =
               ([] ++ sample_outbound_unresolved :: [])%list) by reflexivity.
  assert (H2 : Forall (fun g => cacheKey g <> cacheKey sample_outbound_unresolved)
                 []) by constructor.
  split; [exact H1 |]. split; [exact H2 |].
  destruct (FrontendFacts.latest_record_wins 2000
              (snapshot_of_flows [sample_outbound_unresolved])
              [("outbound-203.0.113.5", mkCached sample_outbound 1000)]
              [] [] sample_outbound_unresolved H1 H2)
    as (c & Hget & Hseen & Hlat & Hlon).
  exists c. split; [exact Hget |]. split; [exact Hseen |].
  split; [apply Hlat | apply Hlon]; discriminate.
Defined.

Lemma aggregateFlows_sums_in_order_witness :
  Forall (fun f => is_direction (direction f) /\ measured f) sample_transfers /\
  (exists f,
     In f sample_transfers /\ has_identity "outbound" "203.0.113.5" f = true) /\
  exists a,
    List.filter (has_identity "outbound" "203.0.113.5")
      (Binary64.aggregateFlows sample_transfers) = [a] /\
    bytes a =
      Binary64.total bytes
        (List.filter (has_identity "outbound" "203.0.113.5") sample_transfers) /\
    mb_s a =
      Binary64.total mb_s
        (List.filter (has_identity "outbound" "203.0.113.5") sample_transfers) /\
    exists q, bytes a = Binary64.Finite q /\ (q == 2560)%Q.
Proof.
  assert (H1 : Forall (fun f => is_direction (direction f) /\ measured f)
                 sample_transfers).
  { repeat (constructor;
            [split; [first [left; reflexivity | right; reflexivity]
                    | repeat split] |]).
    constructor. }
  assert (H2 : exists f,
             In f sample_transfers /\
             has_identity "outbound" "203.0.113.5" f = true).
  { exists sample_transfer. split; [now left | reflexivity]. }
  split; [exact H1 |]. split; [exact H2 |].
  destruct (Binary64Facts.aggregateFlows_sums_in_order _ _ _ H1 H2)
    as (a & Ha & Hbytes & Hrate & Hexact).
  exists a. split; [exact Ha |]. split; [exact Hbytes |]. split; [exact Hrate |].
  change (List.filter (has_identity "outbound" "203.0.113.5") sample_transfers)
    with [sample_transfer; sample_transfer_again] in Hexact.
  destruct Hexact as (q & Hq & Hsum).
  - constructor; [exists 2048%Z; split; [lia | reflexivity] |].
    constructor; [exists 512%Z; split; [lia | reflexivity] | constructor].
  - vm_compute. discriminate.
  - exists q. split; [exact Hq |]. rewrite Hsum. reflexivity.
Defined.

(** The claim C1 as worded fails.  Two records of one flow, of [2^53]
    bytes and of one byte: the entry has [2^53] bytes, one short of the
    sum.  And two records with directions that are not those of the data
    model, whose keys are the same text: the one entry of the first
    identity has the bytes of both. *)
Lemma aggregateFlows_bytes_differ :
  Forall (fun f => is_direction (direction f) /\ measured f)
    [sample_bulk; sample_single_byte] /\
  (Qsum (List.map (fun f => number (bytes f))
           (List.filter (has_identity "outbound" "203.0.113.5")
              [sample_bulk; sample_single_byte]))
   == 9007199254740993)%Q /\
  (exists a q,
     List.filter (has_identity "outbound" "203.0.113.5")
       (Binary64.aggregateFlows [sample_bulk; sample_single_byte]) = [a] /\
     bytes a = Binary64.Finite q /\ (q == 9007199254740992)%Q) /\
  Forall measured [sample_hyphen_left; sample_hyphen_right] /\
  (Qsum (List.map (fun f => number (bytes f))
           (List.filter (has_identity "a" "b-c")
              [sample_hyphen_left; sample_hyphen_right]))
   == 10)%Q /\
  (exists a q,
     List.filter (has_identity "a" "b-c")
       (Binary64.aggregateFlows [sample_hyphen_left; sample_hyphen_right])
       = [a] /\
     bytes a = Binary64.Finite q /\ (q == 30)%Q).
Proof.
  split.
  { repeat (constructor; [split; [left; reflexivity | repeat split] |]).
    constructor. }
  split; [reflexivity |].
  split.
  { eexists. eexists. split; [vm_compute; reflexivity |].
    split; [reflexivity | reflexivity]. }
  split.
  { repeat (constructor; [repeat split |]). constructor. }
  split; [reflexivity |].
  eexists. eexists. split; [vm_compute; reflexivity |].
  split; [reflexivity | reflexivity].
Qed.

Lemma aggregateFlows_keeps_every_byte_witness :
  Forall (fun f => Binary64.counted (bytes f))
    (List.filter located sample_transfers) /\
  (Qsum (List.map (fun f => number (bytes f))
           (List.filter located sample_transfers)) <= inject_Z (2 ^ 53))%Q /\
  Forall (fun a => exists q, bytes a = Binary64.Finite q)
    (Binary64.aggregateFlows sample_transfers) /\
  (Qsum (List.map (fun a => Binary64.valueOf (bytes a))
           (Binary64.aggregateFlows sample_transfers)) == 3560)%Q.
Proof.
  assert (H1 : Forall (fun f => Binary64.counted (bytes f))
                 (List.filter located sample_transfers)).
  { change (List.filter located sample_transfers) with sample_transfers.
    constructor; [exists 2048%Z; split; [lia | reflexivity] |].
    constructor; [exists 1000%Z; split; [lia | reflexivity] |].
    constructor; [exists 512%Z; split; [lia | reflexivity] | constructor]. }
  assert (H2 : (Qsum (List.map (fun f => number (bytes f))
                        (List.filter located sample_transfers))
                <= inject_Z (2 ^ 53))%Q).
  { vm_compute. discriminate. }
  split; [exact H1 |]. split; [exact H2 |].
  destruct (Binary64Facts.aggregateFlows_keeps_every_byte sample_transfers H1 H2)
    as [Hfinite Hsum].
  split; [exact Hfinite |]. rewrite Hsum. reflexivity.
Defined.

Lemma cpuAverage_between_witness :
  [25; 50; 100]%Q <> [] /\
  (Z.of_nat (length [25; 50; 100]%Q) * Z.max (Z.abs 0) (Z.abs 100) <= 2 ^ 53)%Z /\
  Forall (fun v => (inject_Z 0 <= v)%Q /\ (v <= inject_Z 100)%Q) [25; 50; 100]%Q /\
  exists average,
    Binary64.cpuAverage None (List.map Binary64.Finite [25; 50; 100]%Q) =
      Num average /\
    (inject_Z 0 <= average)%Q /\ (average <= inject_Z 100)%Q.
Proof.
  assert (H1 : [25; 50; 100]%Q <> []) by discriminate.
  assert (H2 : (Z.of_nat (length [25; 50; 100]%Q)
                * Z.max (Z.abs 0) (Z.abs 100) <= 2 ^ 53)%Z).
  { vm_compute. discriminate. }
  assert (H3 : Forall (fun v => (inject_Z 0 <= v)%Q /\ (v <= inject_Z 100)%Q)
                 [25; 50; 100]%Q).
  { repeat (constructor; [split; vm_compute; discriminate |]). constructor. }
  split; [exact H1 |]. split; [exact H2 |]. split; [exact H3 |].
  exact (Binary64Facts.cpuAverage_between None [25; 50; 100]%Q 0 100 H1 H2 H3).
Defined.

Lemma sankeyData_joins_every_flow_witness :
  Forall (fun f => Binary64.binary64 (Sankey.rate f))
    (List.filter Sankey.sent sample_live) /\
  exists chart,
    Sankey.sankeyData sample_live = Some chart /\
    List.map Sankey.name (Sankey.data_nodes chart) =
      ["app:firefox"; "protocol:TCP"; "country:US"; "country:Unknown"] /\
    NoDup (List.map (fun l => (Sankey.source l, Sankey.target l))
             (Sankey.data_links chart)) /\
    Forall (fun l => Sankey.above_zero (Sankey.value l)) (Sankey.data_links chart).
Proof.
  assert (H : Forall (fun f => Binary64.binary64 (Sankey.rate f))
                (List.filter Sankey.sent sample_live)).
  { constructor; [exists 1%Z, (-1)%Z; split; [reflexivity | split; lia] |].
    constructor; [exists 1%Z, (-2)%Z; split; [reflexivity | split; lia] |].
    constructor. }
  split; [exact H |].
  pose proof (SankeyFacts.sankeyData_joins_every_flow sample_live H) as Hchart.
  destruct (Sankey.sankeyData sample_live) as [chart |] eqn:E;
    [| vm_compute in E; discriminate E].
  exists chart. split; [reflexivity |].
  destruct Hchart as (_ & _ & _ & Hlinks & Hdistinct & _).
  split; [| split; [exact Hdistinct |]].
  - vm_compute in E. injection E as <-. reflexivity.
  - eapply Forall_impl; [| exact Hlinks]. intros l (_ & _ & Hv & _). exact Hv.
Defined.

Lemma swapPulse_scale_witness :
  exists d d',
    Binary64.swapPulse (Binary64.Finite 50) = Binary64.Finite d /\
    Binary64.swapPulse (Binary64.Finite 100) = Binary64.Finite d' /\
    (d' <= d)%Q /\ ((7 # 10) <= d)%Q.
Proof.
  destruct (Binary64Facts.swapPulse_scale 50 100)
    as (d & Hd & _ & _ & Hmono & _ & Hmid).
  destruct Hmono as (d' & Hd' & Hle); [discriminate |].
  destruct Hmid as (e & _ & _ & Hlow); [discriminate | discriminate |].
  exists d, d'. split; [exact Hd |]. split; [exact Hd' |].
  split; [exact Hle | exact Hlow].
Defined.
